(** * MagnetStreamer: session registry and streaming gateway

    A shallow embedding of [server/index.js] (the Express server of
    MagnetStreamer) and the properties of it that the specification states.

    Conventions of the embedding.
    - JavaScript numbers that hold byte offsets, lengths, timestamps and
      seeder counts are integers, modelled as [Z]; [NaN] is the [None] of an
      [option Z].  Up to [JS.MAX_SAFE_INTEGER] (2^53 - 1) double arithmetic
      on integers is exact and the model is the code.  File lengths and
      clock readings are numbers the server itself holds, taken to lie in
      that range; a number read
      from a request or from an upstream answer is the value of a numeral
      of any length, and a statement that depends on the value of such a
      number, not only on its being a number, carries the bound as a
      hypothesis.  The download progress ratio is a genuine fraction and
      stays a binary64 [float].
    - JavaScript strings are [string]: sequences of 8-bit code units.
    - [Date.now()] is an input: a handler that reads the clock several
      times is given one reading per read.
    - The [Map] [activeTorrents] iterates in insertion order and
      [Array.prototype.sort] is stable, so the registry is an association
      list and the sort is a stable insertion sort.
    - Torrent objects are shared between the registry and the engine client:
      they live in a heap indexed by handle, and a registry record holds the
      handle. *)

From Stdlib Require Import ZArith List Bool Lia String Ascii.
From Stdlib Require Import Sorting.Sorted Sorting.Permutation.
From Stdlib Require Import Numbers.DecimalString.
From Stdlib Require Import Floats.PrimFloat Floats.FloatOps Floats.SpecFloat.
From Stdlib Require Import Numbers.Cyclic.Int63.Uint63.
From Stdlib Require Import Numbers.DecimalPos.
Import ListNotations.

Local Open Scope string_scope.
Local Open Scope list_scope.
Local Open Scope Z_scope.

(* ================================================================== *)
(** ** JavaScript string and number primitives used by the server *)
(* ================================================================== *)

Module JS.

(** [s.length] *)
Definition len (s : string) : nat := String.length s.

(** Drop the first [n] code units. *)
Fixpoint drop (n : nat) (s : string) : string :=
  match n, s with
  | O, _ => s
  | S _, EmptyString => EmptyString
  | S n', String _ s' => drop n' s'
  end.

(** [s.startsWith(p)] *)
Fixpoint startsWith (p s : string) : bool :=
  match p, s with
  | EmptyString, _ => true
  | String _ _, EmptyString => false
  | String a p', String b s' => Ascii.eqb a b && startsWith p' s'
  end.

(** [s.endsWith(suffix)] *)
Definition endsWith (s suffix : string) : bool :=
  (len suffix <=? len s)%nat
  && String.eqb (drop (len s - len suffix) s) suffix.

(** [s.includes(sub)] *)
Fixpoint includes (s sub : string) : bool :=
  startsWith sub s
  || match s with
     | EmptyString => false
     | String _ s' => includes s' sub
     end.

(** [s.replace(/pat/, rep)] for a pattern that is a literal text: only the
    first (leftmost) occurrence is replaced. *)
Fixpoint replaceFirst (pat rep s : string) : string :=
  if startsWith pat s then String.append rep (drop (len pat) s)
  else match s with
       | EmptyString => EmptyString
       | String c s' => String c (replaceFirst pat rep s')
       end.

(** [s.split(sep)] for a one-character separator.  The result is never
    empty: a text without separator is its own single part. *)
Fixpoint split (sep : ascii) (s : string) : list string :=
  match s with
  | EmptyString => [EmptyString]
  | String c s' =>
      if Ascii.eqb c sep then EmptyString :: split sep s'
      else match split sep s' with
           | x :: xs => String c x :: xs
           | [] => [String c EmptyString]
           end
  end.

(** White space as [parseInt] and [trim] see it (the 8-bit part of
    WhiteSpace and LineTerminator). *)
Definition isWhite (c : ascii) : bool :=
  let n := nat_of_ascii c in
  ((9 <=? n) && (n <=? 13) || (n =? 32) || (n =? 160))%nat.

Fixpoint trimStart (s : string) : string :=
  match s with
  | String c s' => if isWhite c then trimStart s' else s
  | EmptyString => EmptyString
  end.

(** [trimEnd], by the first position after which only white space follows. *)
Fixpoint trimEnd (s : string) : string :=
  match s with
  | EmptyString => EmptyString
  | String c s' =>
      match trimEnd s' with
      | EmptyString => if isWhite c then EmptyString else String c EmptyString
      | r => String c r
      end
  end.

(** [s.trim()] *)
Definition trim (s : string) : string := trimEnd (trimStart s).

Definition digitVal (c : ascii) : option Z :=
  let n := nat_of_ascii c in
  if ((48 <=? n) && (n <=? 57))%nat then Some (Z.of_nat n - 48) else None.

(** The longest prefix of decimal digits, read with accumulator [acc];
    [seen] tells whether a digit was read. *)
Fixpoint digits (s : string) (acc : Z) (seen : bool) : option Z :=
  match s with
  | EmptyString => if seen then Some acc else None
  | String c s' =>
      match digitVal c with
      | Some d => digits s' (10 * acc + d) true
      | None => if seen then Some acc else None
      end
  end.

(** [Number.MAX_SAFE_INTEGER].  Up to here every integer is a binary64
    number, so that the engine's [parseInt], its comparisons and its
    printing of a number agree with [parseInt], the order of [Z] and [show]
    below.  A longer numeral is rounded by the engine; whether it parses at
    all, its sign, and its being beyond this bound do not depend on the
    rounding. *)
Definition MAX_SAFE_INTEGER : Z := 2 ^ 53 - 1.

(** [parseInt(s, 10)]: leading white space is skipped, one sign is read,
    then the longest run of digits; [None] is NaN.  The result is the
    number the digits denote. *)
Definition parseInt (s : string) : option Z :=
  match trimStart s with
  | EmptyString => None
  | String c s' =>
      if Ascii.eqb c "-" then option_map Z.opp (digits s' 0 false)
      else if Ascii.eqb c "+" then digits s' 0 false
      else digits (String c s') 0 false
  end.

(** A digit of a hexadecimal numeral. *)
Definition hexVal (c : ascii) : option Z :=
  let n := nat_of_ascii c in
  if ((48 <=? n) && (n <=? 57))%nat then Some (Z.of_nat n - 48)
  else if ((97 <=? n) && (n <=? 102))%nat then Some (Z.of_nat n - 87)
  else if ((65 <=? n) && (n <=? 70))%nat then Some (Z.of_nat n - 55)
  else None.

(** The longest prefix of hexadecimal digits, as [digits]. *)
Fixpoint hexDigits (s : string) (acc : Z) (seen : bool) : option Z :=
  match s with
  | EmptyString => if seen then Some acc else None
  | String c s' =>
      match hexVal c with
      | Some d => hexDigits s' (16 * acc + d) true
      | None => if seen then Some acc else None
      end
  end.

(** [parseInt(s)] without radix: as [parseInt(s, 10)], but the digits
    after a prefix 0x or 0X are read as a hexadecimal numeral. *)
Definition parseIntNoRadix (s : string) : option Z :=
  let unsigned (u : string) :=
    if startsWith "0x" u || startsWith "0X" u then hexDigits (drop 2 u) 0 false
    else digits u 0 false in
  match trimStart s with
  | EmptyString => None
  | String c s' =>
      if Ascii.eqb c "-" then option_map Z.opp (unsigned s')
      else if Ascii.eqb c "+" then unsigned s'
      else unsigned (String c s')
  end.

(** [isNaN(x)] *)
Definition isNaN (x : option Z) : bool :=
  match x with None => true | Some _ => false end.

(** Truthiness of a text: the empty text is falsy. *)
Definition truthy (s : string) : bool :=
  match s with EmptyString => false | _ => true end.

(** An integer inside a template literal (the decimal numeral, which is
    what the engine prints for an integer up to [MAX_SAFE_INTEGER]). *)
Definition show (z : Z) : string := NilZero.string_of_int (Z.to_int z).

(** ASCII part of [toLowerCase]. *)
Definition lowerChar (c : ascii) : ascii :=
  let n := nat_of_ascii c in
  if ((65 <=? n) && (n <=? 90))%nat then ascii_of_nat (n + 32) else c.

Fixpoint toLowerCase (s : string) : string :=
  match s with
  | EmptyString => EmptyString
  | String c s' => String (lowerChar c) (toLowerCase s')
  end.

(** [arr.slice(b, e)]: a negative index counts from the end. *)
Definition slice {A : Type} (b e : Z) (l : list A) : list A :=
  let n := Z.of_nat (List.length l) in
  let rel i := if i <? 0 then Z.max (n + i) 0 else Z.min i n in
  let k := rel b in
  let f := rel e in
  firstn (Z.to_nat (Z.max (f - k) 0)) (skipn (Z.to_nat k) l).

End JS.

(* ================================================================== *)
(** ** Data model: files, pieces, torrents, registry records *)
(* ================================================================== *)

(** A file of a torrent: [file.name], [file.length]. *)
Record File := mkFile { fileName : string; fileLength : Z }.

(** An element of [torrent.pieces].  [hasPriority] is the outcome of
    [typeof piece.priority === 'function']. *)
Record Piece := mkPiece { done : bool; hasPriority : bool }.

(** A torrent object of the engine.  [listed] tells whether the object is
    in [client.torrents]; [pieces] holds [None] where the engine has no
    piece object (the slot is null or undefined). *)
Record Torrent := mkTorrent {
  infoHash : string;
  destroyed : bool;
  listed : bool;
  ready : bool;
  files : list File;
  pieces : list (option Piece);
  progress : float
}.

(** The value of a registry entry: [{ torrent, lastAccessed, createdAt }],
    [torrent] being a reference into the heap. *)
Record Data := mkData { torrent : nat; lastAccessed : Z; createdAt : Z }.

Definition Entry : Type := string * Data.

(** The server: the [activeTorrents] map, the torrent objects, and the log
    of [client.add] invocations (most recent last). *)
Record Server := mkServer {
  activeTorrents : list Entry;
  heap : list Torrent;
  addCalls : list string
}.

Definition TORRENT_TIMEOUT : Z := 30 * 60 * 1000.
Definition CLEANUP_INTERVAL : Z := 5 * 60 * 1000.
Definition MAX_ACTIVE_TORRENTS : Z := 3.

Definition initial : Server := mkServer [] [] [].

(* ================================================================== *)
(** ** The insertion-ordered Map *)
(* ================================================================== *)

Module Map.

Definition size (m : list Entry) : Z := Z.of_nat (List.length m).

Fixpoint get (k : string) (m : list Entry) : option Data :=
  match m with
  | [] => None
  | (k', d) :: m' => if String.eqb k k' then Some d else get k m'
  end.

Definition has (k : string) (m : list Entry) : bool :=
  match get k m with Some _ => true | None => false end.

(** [m.set(k, d)]: an existing key keeps its position, a new key goes last. *)
Fixpoint set (k : string) (d : Data) (m : list Entry) : list Entry :=
  match m with
  | [] => [(k, d)]
  | (k', d') :: m' =>
      if String.eqb k k' then (k, d) :: m' else (k', d') :: set k d m'
  end.

(** [m.delete(k)] *)
Fixpoint delete (k : string) (m : list Entry) : list Entry :=
  match m with
  | [] => []
  | (k', d') :: m' =>
      if String.eqb k k' then m' else (k', d') :: delete k m'
  end.

End Map.

(* ================================================================== *)
(** ** The engine as the server uses it *)
(* ================================================================== *)

(** [heap[h]] *)
Definition deref (s : Server) (h : nat) : option Torrent := nth_error (heap s) h.

Fixpoint updateAt {A : Type} (n : nat) (f : A -> A) (l : list A) : list A :=
  match l, n with
  | [], _ => []
  | x :: l', O => f x :: l'
  | x :: l', S n' => x :: updateAt n' f l'
  end.

(** [torrent.destroy(cb)]: the object is flagged destroyed at once and
    leaves [client.torrents]; the callback only logs. *)
Definition engineDestroy (t : Torrent) : Torrent :=
  mkTorrent (infoHash t) true false (ready t) (files t) (pieces t) (progress t).

(** [client.torrents.find(t => t.infoHash === torrentId)] *)
Definition findTorrent (s : Server) (torrentId : string) : option (nat * Torrent) :=
  let fix go (h : nat) (l : list Torrent) : option (nat * Torrent) :=
    match l with
    | [] => None
    | t :: l' =>
        if listed t && String.eqb (infoHash t) torrentId then Some (h, t)
        else go (S h) l'
    end in
  go O (heap s).

(** The extension allow-list of the selected file. *)
Definition isVideo (f : File) : bool :=
  JS.endsWith (fileName f) ".mp4"
  || JS.endsWith (fileName f) ".mkv"
  || JS.endsWith (fileName f) ".avi"
  || JS.endsWith (fileName f) ".webm".

(** [torrent.files.find(file => ...)]: first match in directory order. *)
Definition findVideo (t : Torrent) : option File := List.find isVideo (files t).

Section Engine.

(** The engine derives the fingerprint of a torrent from its locator when
    the torrent object is constructed. *)
Variable infoHashOf : string -> string.

(** [client.add(magnetUrl, opts, cb)]: a fresh torrent object, without
    metadata, is created and listed; the call is logged. *)
Definition clientAdd (magnetUrl : string) (s : Server) : nat * Server :=
  let t := mkTorrent (infoHashOf magnetUrl) false true false [] [] 0%float in
  (List.length (heap s),
   mkServer (activeTorrents s) (heap s ++ [t]) (addCalls s ++ [magnetUrl])).

(* ================================================================== *)
(** ** Registry operations *)
(* ================================================================== *)

(** [destroyTorrent(magnetUrl, data, reason)] *)
Definition destroyTorrent (magnetUrl : string) (data : Data) (s : Server) : Server :=
  let hp :=
    match deref s (torrent data) with
    | Some t =>
        if negb (destroyed t) then updateAt (torrent data) engineDestroy (heap s)
        else heap s
    | None => heap s
    end in
  mkServer (Map.delete magnetUrl (activeTorrents s)) hp (addCalls s).

(** The body of the [setInterval] callback: every entry idle for more than
    [TORRENT_TIMEOUT] is destroyed. *)
Definition sweep (now : Z) (s : Server) : Server :=
  fold_left
    (fun acc (e : Entry) =>
       if now - lastAccessed (snd e) >? TORRENT_TIMEOUT
       then destroyTorrent (fst e) (snd e) acc else acc)
    (activeTorrents s) s.

(** Stable insertion of [x] into a list sorted by [lastAccessed]. *)
Fixpoint insertByAccess (x : Entry) (l : list Entry) : list Entry :=
  match l with
  | [] => [x]
  | y :: l' =>
      if lastAccessed (snd x) <=? lastAccessed (snd y) then x :: y :: l'
      else y :: insertByAccess x l'
  end.

(** [Array.from(activeTorrents.entries()).sort((a, b) => a[1].lastAccessed
    - b[1].lastAccessed)]: oldest access first, equal keys in map order. *)
Fixpoint sortByAccess (l : list Entry) : list Entry :=
  match l with
  | [] => []
  | x :: l' => insertByAccess x (sortByAccess l')
  end.

(** [cleanupOldTorrents(newMagnetUrl)] *)
Definition cleanupOldTorrents (newMagnetUrl : string) (s : Server) : Server :=
  if Map.size (activeTorrents s) >=? MAX_ACTIVE_TORRENTS then
    let sortedTorrents := sortByAccess (activeTorrents s) in
    let toRemove := Map.size (activeTorrents s) - MAX_ACTIVE_TORRENTS + 1 in
    fold_left
      (fun acc (e : Entry) =>
         if negb (String.eqb (fst e) newMagnetUrl)
         then destroyTorrent (fst e) (snd e) acc else acc)
      (firstn (Z.to_nat toRemove) sortedTorrents) s
  else s.

(* ================================================================== *)
(** ** HTTP responses *)
(* ================================================================== *)

Inductive Body :=
| NoBody
| JsonError (error : string)
| JsonStream (torrentId : string) (fileName : option string) (rdy : option bool)
| JsonInfo (torrentId : string) (hasMetadata rdy : bool) (videoFile : option File)
| Pipe (file : File) (range : option (Z * Z)).

(** [headers] records the handler's own [setHeader] calls, last write per
    name; what Express adds when it sends a JSON body is not recorded. *)
Record Response := mkResponse {
  status : Z;
  headers : list (string * string);
  headersSent : bool;
  body : Body
}.

Definition freshResponse : Response := mkResponse 200 [] false NoBody.

Definition resStatus (code : Z) (r : Response) : Response :=
  mkResponse code (headers r) (headersSent r) (body r).

Fixpoint setAssoc (n v : string) (l : list (string * string)) : list (string * string) :=
  match l with
  | [] => [(n, v)]
  | (n', v') :: l' =>
      if String.eqb n n' then (n, v) :: l' else (n', v') :: setAssoc n v l'
  end.

Definition setHeader (n v : string) (r : Response) : Response :=
  mkResponse (status r) (setAssoc n v (headers r)) (headersSent r) (body r).

Fixpoint getAssoc (n : string) (l : list (string * string)) : option string :=
  match l with
  | [] => None
  | (n', v) :: l' => if String.eqb n n' then Some v else getAssoc n l'
  end.

Definition getHeader (n : string) (r : Response) : option string :=
  getAssoc n (headers r).

(** [res.json(b)] and [stream.pipe(res)] send the head of the response. *)
Definition send (b : Body) (r : Response) : Response :=
  mkResponse (status r) (headers r) true b.

(** [res.status(code).json({ error })] *)
Definition sendError (code : Z) (error : string) (r : Response) : Response :=
  send (JsonError error) (resStatus code r).

(** Statements on [res] in the order the handler runs them. *)
Notation "r |> f" := (f r) (at level 45, left associativity, only parsing).

(* ================================================================== *)
(** ** POST /api/stream *)
(* ================================================================== *)

(** The tail of the handler, from [cleanupOldTorrents(magnetUrl)] on.  The
    record literal reads the clock twice: [accessed] is the reading stored
    as [lastAccessed], [created] the later one stored as [createdAt]. *)
Definition addTorrent (accessed created : Z) (magnetUrl : string) (s : Server)
  : Server * Response :=
  let s1 := cleanupOldTorrents magnetUrl s in
  let '(h, s2) := clientAdd magnetUrl s1 in
  let s3 := mkServer (Map.set magnetUrl (mkData h accessed created) (activeTorrents s2))
                     (heap s2) (addCalls s2) in
  (s3, send (JsonStream (infoHashOf magnetUrl) None None) freshResponse).

(** [data.lastAccessed = Date.now()] on the record stored under [k]. *)
Fixpoint touchKey (k : string) (now : Z) (m : list Entry) : list Entry :=
  match m with
  | [] => []
  | (k', d) :: m' =>
      if String.eqb k k' then (k', mkData (torrent d) now (createdAt d)) :: m'
      else (k', d) :: touchKey k now m'
  end.

(** The handler reads the clock up to three times: [now] when it finds a
    record for the locator, [accessed] and [created] when it stores a new
    record. *)
Definition postStream (now accessed created : Z) (magnetUrl : option string)
    (s : Server) : Server * Response :=
  match magnetUrl with
  | None => (s, sendError 400 "Magnet URL is required" freshResponse)
  | Some url =>
      if negb (JS.truthy url) then (s, sendError 400 "Magnet URL is required" freshResponse)
      else
        match Map.get url (activeTorrents s) with
        | Some data =>
            let s1 := mkServer (touchKey url now (activeTorrents s)) (heap s) (addCalls s) in
            match deref s (torrent data) with
            | Some t =>
                if destroyed t then
                  addTorrent accessed created url
                    (mkServer (Map.delete url (activeTorrents s1)) (heap s1) (addCalls s1))
                else
                  match findVideo t with
                  | Some videoFile =>
                      (s1, send (JsonStream (infoHash t) (Some (fileName videoFile))
                                            (Some (ready t))) freshResponse)
                  | None => addTorrent accessed created url s1
                  end
            | None => (s1, sendError 500 "Failed to add torrent" freshResponse)
            end
        | None => addTorrent accessed created url s
        end
  end.

(* ================================================================== *)
(** ** GET /api/torrent/:torrentId/stream *)
(* ================================================================== *)

Definition contentType (videoFile : File) : string :=
  if JS.endsWith (fileName videoFile) ".mkv" then "video/x-matroska"
  else if JS.endsWith (fileName videoFile) ".avi" then "video/x-msvideo"
  else if JS.endsWith (fileName videoFile) ".webm" then "video/webm"
  else "video/mp4".

(** The local helper [createStream(start, end)] of the stream handler, up
    to the point where the read stream is piped into the response.  The
    engine is taken to create the read stream without an exception; what
    the stream emits afterwards (data, errors, the client closing the
    connection) lies outside this model. *)
Definition createStream (t : Torrent) (videoFile : File) (start end_ : Z)
    (res : Response) : Response :=
  let start := if start <? 0 then 0 else start in
  let end_ := if end_ >=? fileLength videoFile then fileLength videoFile - 1 else end_ in
  if start >? end_ then
    if negb (headersSent res) then sendError 416 "Range Not Satisfiable" res else res
  else if destroyed t then
    if negb (headersSent res) then sendError 410 "Torrent no longer available" res else res
  else send (Pipe videoFile (Some (start, end_))) res.

(** [range.replace(/bytes=/, '').split('-')], then [parts[0]] and [parts[1]]
    ([None] where the array has no such element). *)
Definition rangeParts (range : string) : string * option string :=
  match JS.split "-" (JS.replaceFirst "bytes=" "" range) with
  | p0 :: p1 :: _ => (p0, Some p1)
  | p0 :: [] => (p0, None)
  | [] => (EmptyString, None)
  end.

Definition rangeStart (range : string) : option Z :=
  JS.parseInt (fst (rangeParts range)).

(** [parts[1] ? parseInt(parts[1], 10) : videoFile.length - 1] *)
Definition rangeEnd (range : string) (videoFile : File) : option Z :=
  match snd (rangeParts range) with
  | Some p1 => if JS.truthy p1 then JS.parseInt p1 else Some (fileLength videoFile - 1)
  | None => Some (fileLength videoFile - 1)
  end.

Definition contentRange (start end_ : Z) (videoFile : File) : string :=
  "bytes " ++ JS.show start ++ "-" ++ JS.show end_ ++ "/" ++ JS.show (fileLength videoFile).

Definition getStream (torrentId : string) (range : option string) (s : Server)
  : Response :=
  match findTorrent s torrentId with
  | None => sendError 404 "Torrent not found" freshResponse
  | Some (_, t) =>
      match findVideo t with
      | None => sendError 404 "No video file found in torrent" freshResponse
      | Some videoFile =>
          if destroyed t then sendError 410 "Torrent has been destroyed" freshResponse
          else
            let res :=
              freshResponse
              |> setHeader "Content-Type" (contentType videoFile)
              |> setHeader "Accept-Ranges" "bytes"
              |> setHeader "Content-Length" (JS.show (fileLength videoFile))
              |> setHeader "Cache-Control" "no-cache, no-store, must-revalidate"
              |> setHeader "Pragma" "no-cache"
              |> setHeader "Expires" "0"
              |> setHeader "Connection" "keep-alive" in
            let whole :=
              res
              |> setHeader "Connection" "keep-alive"
              |> createStream t videoFile 0 (fileLength videoFile - 1) in
            match range with
            | Some r =>
                if JS.truthy r then
                  match rangeStart r, rangeEnd r videoFile with
                  | Some start, Some end_ =>
                      let chunksize := (end_ - start) + 1 in
                      res
                      |> resStatus 206
                      |> setHeader "Content-Range" (contentRange start end_ videoFile)
                      |> setHeader "Content-Length" (JS.show chunksize)
                      |> setHeader "Connection" "keep-alive"
                      |> createStream t videoFile start end_
                  | _, _ => res |> sendError 400 "Invalid range"
                  end
                else whole
            | None => whole
            end
      end
  end.

(* ================================================================== *)
(** ** GET /api/torrent/:torrentId/info and /download *)
(* ================================================================== *)

(** The loop shared by the info and download handlers: the first entry, in
    map order, whose torrent has fingerprint [torrentId] gets
    [lastAccessed = Date.now()]; then the loop breaks. *)
Fixpoint touchByInfoHash (hp : list Torrent) (torrentId : string) (now : Z)
    (m : list Entry) : list Entry :=
  match m with
  | [] => []
  | (k, d) :: m' =>
      match nth_error hp (torrent d) with
      | Some t =>
          if String.eqb (infoHash t) torrentId
          then (k, mkData (torrent d) now (createdAt d)) :: m'
          else (k, d) :: touchByInfoHash hp torrentId now m'
      | None => (k, d) :: touchByInfoHash hp torrentId now m'
      end
  end.

Definition touched (torrentId : string) (now : Z) (s : Server) : Server :=
  mkServer (touchByInfoHash (heap s) torrentId now (activeTorrents s))
           (heap s) (addCalls s).

(** The status projection is cut down to the fields derived from the
    session record: fingerprint, [hasMetadata], [ready], selected file. *)
Definition getInfo (now : Z) (torrentId : string) (s : Server) : Server * Response :=
  match findTorrent s torrentId with
  | None => (s, sendError 404 "Torrent not found" freshResponse)
  | Some (_, t) =>
      let hasMetadata := (0 <? List.length (files t))%nat in
      (touched torrentId now s,
       send (JsonInfo (infoHash t) hasMetadata (ready t)
               (if hasMetadata then findVideo t else None)) freshResponse)
  end.

(** The character class [[a-zA-Z0-9.-]] of the filename sanitizer. *)
Definition safeChar (c : ascii) : bool :=
  let n := nat_of_ascii c in
  ((97 <=? n) && (n <=? 122) || (65 <=? n) && (n <=? 90)
   || (48 <=? n) && (n <=? 57) || (n =? 46) || (n =? 45))%nat.

(** [name.replace(/[^a-zA-Z0-9.-]/g, '_')] *)
Fixpoint sanitize (name : string) : string :=
  match name with
  | EmptyString => EmptyString
  | String c name' => String (if safeChar c then c else "_"%char) (sanitize name')
  end.

Definition quote : string := String (ascii_of_nat 34) EmptyString.

Definition contentDisposition (fileName : string) : string :=
  "attachment; filename=" ++ quote ++ fileName ++ quote.

Definition getDownload (now : Z) (torrentId : string) (range : option string)
    (s : Server) : Server * Response :=
  match findTorrent s torrentId with
  | None => (s, sendError 404 "Torrent not found" freshResponse)
  | Some (_, t) =>
      let s1 := touched torrentId now s in
      match findVideo t with
      | None => (s1, sendError 404 "No video file found in torrent" freshResponse)
      | Some videoFile =>
          if destroyed t then (s1, sendError 410 "Torrent has been destroyed" freshResponse)
          else
            let fileName := sanitize (fileName videoFile) in
            let res :=
              freshResponse
              |> setHeader "Content-Type" "application/octet-stream"
              |> setHeader "Content-Disposition" (contentDisposition fileName)
              |> setHeader "Content-Length" (JS.show (fileLength videoFile))
              |> setHeader "Accept-Ranges" "bytes" in
            match range with
            | Some r =>
                if JS.truthy r then
                  match rangeStart r, rangeEnd r videoFile with
                  | Some start, Some end_ =>
                      if start >? end_
                      then (s1, res |> sendError 416 "Range Not Satisfiable")
                      else
                        let chunksize := (end_ - start) + 1 in
                        (s1, res
                             |> resStatus 206
                             |> setHeader "Content-Range" (contentRange start end_ videoFile)
                             |> setHeader "Content-Length" (JS.show chunksize)
                             |> send (Pipe videoFile (Some (start, end_))))
                  | _, _ => (s1, res |> sendError 416 "Range Not Satisfiable")
                  end
                else (s1, res |> send (Pipe videoFile None))
            | None => (s1, res |> send (Pipe videoFile None))
            end
      end
  end.

(* ================================================================== *)
(** ** The server as a transition system *)
(* ================================================================== *)

(** What can happen to the server: the four requests, the cleanup timer,
    and the engine rewriting the fields of one of its torrent objects
    (metadata arriving, progress, a torrent destroyed after an error).  A
    session start carries the two clock readings of the record it may
    store. *)
Inductive Event :=
| PostStream (magnetUrl : option string) (accessed created : Z)
| GetStream (torrentId : string) (range : option string)
| GetInfo (torrentId : string)
| GetDownload (torrentId : string) (range : option string)
| CleanupTick
| EngineUpdate (h : nat) (t : Torrent).

(** One event; [now] is the clock reading when its handler first reads the
    clock. *)
Definition step (now : Z) (ev : Event) (s : Server) : Server * option Response :=
  match ev with
  | PostStream magnetUrl accessed created =>
      let '(s', r) := postStream now accessed created magnetUrl s in (s', Some r)
  | GetStream torrentId range => (s, Some (getStream torrentId range s))
  | GetInfo torrentId =>
      let '(s', r) := getInfo now torrentId s in (s', Some r)
  | GetDownload torrentId range =>
      let '(s', r) := getDownload now torrentId range s in (s', Some r)
  | CleanupTick => (sweep now s, None)
  | EngineUpdate h t =>
      (mkServer (activeTorrents s) (updateAt h (fun _ => t) (heap s)) (addCalls s), None)
  end.

Fixpoint run (evs : list (Z * Event)) (s : Server) : Server :=
  match evs with
  | [] => s
  | (now, ev) :: evs' => run evs' (fst (step now ev s))
  end.

End Engine.

(** Registry entries whose torrent object is not destroyed. *)
Definition isLive (hp : list Torrent) (e : Entry) : bool :=
  match nth_error hp (torrent (snd e)) with
  | Some t => negb (destroyed t)
  | None => false
  end.

Definition liveSessions (s : Server) : list Entry :=
  filter (isLive (heap s)) (activeTorrents s).

(** How often [client.add] was invoked for a locator. *)
Definition addCount (magnetUrl : string) (s : Server) : nat :=
  List.length (filter (String.eqb magnetUrl) (addCalls s)).

(* ================================================================== *)
(** ** Piece-priority policy *)
(* ================================================================== *)

Module Priority.

Definition INITIAL_WINDOW : Z := 100.
Definition bufferAhead : Z := 20.

(** The guard of the progress handler, [torrent.progress > 0.01]: the
    binary64 number that the literal [0.01] denotes. *)
Definition threshold : float := 0x1.47ae147ae147bp-7%float.

(** [Math.floor(x)] as an integer; [None] when [x] is NaN or infinite. *)
Definition floor (x : float) : option Z :=
  match Prim2SF x with
  | S754_zero _ => Some 0
  | S754_finite sign m e =>
      let v := if sign then Z.neg m else Z.pos m in
      Some (if 0 <=? e then Z.shiftl v e else Z.shiftr v (- e))
  | S754_infinity _ => None
  | S754_nan => None
  end.

(** An array length as a number. *)
Definition ofLength (n : nat) : float := PrimFloat.of_uint63 (Uint63.of_Z (Z.of_nat n)).

(** [torrent.pieces[i]] *)
Definition pieceAt (t : Torrent) (i : Z) : option Piece :=
  if i <? 0 then None
  else match nth_error (pieces t) (Z.to_nat i) with
       | Some p => p
       | None => None
       end.

(** [for (let i = from; i < bound; i++) body(i)], collecting the indices
    on which [body] calls [priority(1)]. *)
Fixpoint forLoop (fuel : nat) (i bound : Z) (body : Z -> bool) : list Z :=
  match fuel with
  | O => []
  | S fuel' =>
      if i <? bound
      then (if body i then [i] else []) ++ forLoop fuel' (i + 1) bound body
      else []
  end.

Definition loop (from bound : Z) (body : Z -> bool) : list Z :=
  forLoop (Z.to_nat (bound - from)) from bound body.

(** The callback given to [client.add], run once the torrent is ready:
    the piece indices on which [priority(1)] is called. *)
Definition onTorrent (t : Torrent) : list Z :=
  if (0 <? List.length (files t))%nat then
    match findVideo t with
    | Some _ =>
        let numPieces := Z.of_nat (List.length (pieces t)) in
        loop 0 (Z.min numPieces INITIAL_WINDOW)
          (fun i => match pieceAt t i with
                    | Some p => hasPriority p
                    | None => false
                    end)
    | None => []
    end
  else [].

(** [currentPiece = Math.floor(torrent.progress * torrent.pieces.length)] *)
Definition currentPiece (t : Torrent) : option Z :=
  floor (PrimFloat.mul (progress t) (ofLength (List.length (pieces t)))).

(** The [download] event handler: the piece indices on which
    [priority(1)] is called on one progress tick. *)
Definition onDownload (t : Torrent) : list Z :=
  if (0 <? List.length (files t))%nat && PrimFloat.ltb threshold (progress t) then
    match findVideo t with
    | Some _ =>
        match currentPiece t with
        | Some cur =>
            loop cur (Z.min (cur + bufferAhead) (Z.of_nat (List.length (pieces t))))
              (fun i => match pieceAt t i with
                        | Some p => negb (done p) && hasPriority p
                        | None => false
                        end)
        | None => []
        end
    | None => []
    end
  else [].

End Priority.

(* ================================================================== *)
(** ** GET /api/search *)
(* ================================================================== *)

Module SearchApi.

(** A JSON value as the handler meets it in a field of an upstream result.
    [Undefined] is the value of an absent key.  A number is an integer in
    the safe range.  A text is a [string], as everywhere in this file.  An
    array or object is kept by what the conversion
    [String(v)] yields for it; that conversion throws a TypeError for some
    of them (an object with an own key toString, for one), which is
    [None]. *)
Inductive Value :=
| Undefined
| Null
| Boolean (b : bool)
| Number (n : Z)
| Text (s : string)
| Compound (str : option string).

(** The outcome of a step that may throw. *)
Inductive Result (A : Type) :=
| Ok (a : A)
| Thrown.

Arguments Ok {A} a.
Arguments Thrown {A}.

Definition bind {A B : Type} (m : Result A) (k : A -> Result B) : Result B :=
  match m with
  | Ok a => k a
  | Thrown => Thrown
  end.

Local Notation "x <- m ;; k" := (bind m (fun x => k))
  (at level 61, m at next level, right associativity).

(** [arr.map(f)] and [arr.filter(p)] with a callback that may throw: the
    first exception ends the loop. *)
Fixpoint mapR {A B : Type} (f : A -> Result B) (l : list A) : Result (list B) :=
  match l with
  | [] => Ok []
  | x :: l' => y <- f x ;; ys <- mapR f l' ;; Ok (y :: ys)
  end.

Fixpoint filterR {A : Type} (p : A -> Result bool) (l : list A) : Result (list A) :=
  match l with
  | [] => Ok []
  | x :: l' => b <- p x ;; xs <- filterR p l' ;; Ok (if b then x :: xs else xs)
  end.

(** Truthiness of a value. *)
Definition truthy (v : Value) : bool :=
  match v with
  | Undefined => false
  | Null => false
  | Boolean b => b
  | Number n => negb (n =? 0)
  | Text s => JS.truthy s
  | Compound _ => true
  end.

(** [String(v)], the conversion that a template literal, [parseInt],
    [encodeURIComponent] and a property key apply to their argument. *)
Definition toString (v : Value) : Result string :=
  match v with
  | Undefined => Ok "undefined"
  | Null => Ok "null"
  | Boolean true => Ok "true"
  | Boolean false => Ok "false"
  | Number n => Ok (JS.show n)
  | Text s => Ok s
  | Compound (Some str) => Ok str
  | Compound None => Thrown
  end.

(** [parseInt(v)]; the number is NaN for [None]. *)
Definition parseIntOf (v : Value) : Result (option Z) :=
  str <- toString v ;; Ok (JS.parseIntNoRadix str).

(** [parseInt(v || 0)] *)
Definition parseCount (v : Value) : Result (option Z) :=
  parseIntOf (if truthy v then v else Number 0).

(** One element of an upstream answer that is an object, by the fields
    the handler reads. *)
Record RawResult := mkRaw {
  id : Value;
  name : Value;
  info_hash : Value;
  size : Value;
  seeders : Value;
  leechers : Value;
  category : Value;
  added : Value
}.

(** What one upstream request ends in: a network error, a body that
    [JSON.parse] rejects, a JSON array, or another JSON value.  An element
    that is an object is [Some], with its fields; [None] stands for any
    other element (null, a boolean, a number, a text, an array), none of
    which has a property info_hash. *)
Inductive Upstream :=
| NetworkError
| BadJson
| Results (rs : list (option RawResult))
| Single (r : option RawResult).

(** The elements that one category contributes to
    [[].concat(...allResults)]: the promise always resolves; failures
    resolve to [], an array contributes its elements, and any other value
    is appended as one element ([results || []] turns a falsy value into
    no element, which the filter on info_hash does not tell from a [None]
    element). *)
Definition resolved (u : Upstream) : list (option RawResult) :=
  match u with
  | NetworkError => []
  | BadJson => []
  | Results rs => rs
  | Single r => [r]
  end.

(** A formatted result.  [id], [name] and [infoHash] are copied; the
    seeder and leecher counts are numbers, NaN being [None].  The fields
    size, magnet, category and uploaded are presentation only and left
    out. *)
Record Formatted := mkFormatted {
  fId : Value;
  fName : Value;
  fInfoHash : Value;
  fSeeders : option Z;
  fLeechers : option Z
}.

(** The callback of [map], in the order in which the object literal
    evaluates its fields.  The conversions behind the fields that are
    left out are kept, since each of them may throw: [parseInt] for size,
    the template literal and [encodeURIComponent] for magnet, the property
    key of [getCategoryName] for category, [parseInt] for uploaded. *)
Definition format (r : RawResult) : Result Formatted :=
  _ <- parseCount (size r) ;;
  fseeders <- parseCount (seeders r) ;;
  fleechers <- parseCount (leechers r) ;;
  _ <- toString (info_hash r) ;;
  _ <- toString (name r) ;;
  _ <- toString (category r) ;;
  _ <- (if truthy (added r) then parseIntOf (added r) else Ok None) ;;
  Ok (mkFormatted (id r) (name r) (info_hash r) fseeders fleechers).

(** [parseInt(a.seeders || 0)] on a formatted result, whose seeders field
    is a number: NaN counts as 0. *)
Definition seedKey (f : Formatted) : Z :=
  match fSeeders f with Some n => n | None => 0 end.

(** The callback of the second [filter].  [result.name.toLowerCase()]
    throws a TypeError unless the name is a text. *)
Definition looksLikeVideo (f : Formatted) : Result bool :=
  match fName f with
  | Text s =>
      let name := JS.toLowerCase s in
      let hasVideoExt :=
        JS.includes name ".mp4" || JS.includes name ".mkv"
        || JS.includes name ".avi" || JS.includes name ".webm"
        || JS.includes name ".m4v" || JS.includes name ".mov" in
      let hasVideoKeywords :=
        JS.includes name "1080p" || JS.includes name "720p"
        || JS.includes name "480p" || JS.includes name "4k"
        || JS.includes name "2160p" || JS.includes name "hdr"
        || JS.includes name "bluray" || JS.includes name "dvdrip"
        || JS.includes name "webrip" || JS.includes name "hdtv" in
      let hasGoodSeeders := seedKey f >? 5 in
      Ok (hasVideoExt || hasVideoKeywords || hasGoodSeeders)
  | _ => Thrown
  end.

(** Stable insertion for [sort((a, b) => seedersB - seedersA)]. *)
Fixpoint insertBySeeders (x : Formatted) (l : list Formatted) : list Formatted :=
  match l with
  | [] => [x]
  | y :: l' =>
      if seedKey y <=? seedKey x then x :: y :: l'
      else y :: insertBySeeders x l'
  end.

Fixpoint sortBySeeders (l : list Formatted) : list Formatted :=
  match l with
  | [] => []
  | x :: l' => insertBySeeders x (sortBySeeders l')
  end.

(** The callback of the first [filter]: [result && result.info_hash]. *)
Definition keepRaw (r : option RawResult) : list RawResult :=
  match r with
  | Some x => if truthy (info_hash x) then [x] else []
  | None => []
  end.

Definition categories : list string := ["200"; "205"; "299"].

Inductive Reply :=
| Failure (code : Z) (error : string)
| Success (total : Z) (results : list Formatted).

Definition replyStatus (r : Reply) : Z :=
  match r with
  | Failure code _ => code
  | Success _ _ => 200
  end.

(** The handler.  [query] is [req.query.query], a text or absent; [page]
    and [limit] are the numbers the query parameters denote (1 and 20
    when absent); [upstream] gives what the request for a category ends
    in.  An exception in the chain from [filter] to [sort] is caught by
    the handler's [catch], which answers 500. *)
Definition search (query : option string) (page limit : Z)
    (upstream : string -> Upstream) : Reply :=
  let missing :=
    match query with
    | None => true
    | Some q => negb (JS.truthy q) || (JS.len (JS.trim q) =? 0)%nat
    end in
  if missing then Failure 400 "Search query is required"
  else
    let allResults := map (fun cat => resolved (upstream cat)) categories in
    let searchResults := List.concat allResults in
    let formattedResults :=
      formatted <- mapR format
                     (JS.slice ((page - 1) * limit) (page * limit)
                        (flat_map keepRaw searchResults)) ;;
      videos <- filterR looksLikeVideo formatted ;;
      Ok (sortBySeeders videos) in
    match formattedResults with
    | Ok results => Success (Z.of_nat (List.length results)) results
    | Thrown => Failure 500 "Search failed"
    end.

End SearchApi.

(* ================================================================== *)
(** ** What the specification says, for comparison with the code *)
(* ================================================================== *)

Module Spec.

(** Victim selection in the specification's words: among the live
    sessions other than the requested key, the least [lastAccessed], a
    tie going to the least [createdAt]. *)
Definition older (a b : Entry) : bool :=
  (lastAccessed (snd a) <? lastAccessed (snd b))
  || ((lastAccessed (snd a) =? lastAccessed (snd b))
      && (createdAt (snd a) <=? createdAt (snd b))).

Fixpoint least (l : list Entry) : option Entry :=
  match l with
  | [] => None
  | x :: l' =>
      match least l' with
      | None => Some x
      | Some m => if older x m then Some x else Some m
      end
  end.

Definition victim (requested : string) (s : Server) : option Entry :=
  least (filter (fun e => negb (String.eqb (fst e) requested)) (liveSessions s)).

(** Range rejection in the specification's words: after clamping [end]
    to [length - 1], reject when [start > end], [start < 0] or
    [start >= length]. *)
Definition rangeNotSatisfiable (start end_ length : Z) : bool :=
  let end_ := Z.min end_ (length - 1) in
  (start >? end_) || (start <? 0) || (start >=? length).

(** The window of a progress tick in the specification's words:
    [[currentPieceIndex, currentPieceIndex + BUFFER_AHEAD)] clamped to the
    valid piece indices. *)
Definition tickWindow (cur n : Z) : list Z :=
  filter (fun i => (0 <=? i) && (i <? n))
         (map (fun k => cur + Z.of_nat k) (seq 0 (Z.to_nat Priority.bufferAhead))).

End Spec.

(* ================================================================== *)
(** ** A concrete engine and concrete sessions for worked scenarios *)
(* ================================================================== *)

Module Scenario.

(** The text that follows the first occurrence of [pat]. *)
Fixpoint after (pat s : string) : string :=
  if JS.startsWith pat s then JS.drop (JS.len pat) s
  else match s with
       | EmptyString => EmptyString
       | String _ s' => after pat s'
       end.

Fixpoint upTo (c : ascii) (s : string) : string :=
  match s with
  | EmptyString => EmptyString
  | String a s' => if Ascii.eqb a c then EmptyString else String a (upTo c s')
  end.

(** The fingerprint of a magnet link: its [btih] parameter. *)
Definition btih (magnetUrl : string) : string :=
  upTo "&" (after "xt=urn:btih:" magnetUrl).

Definition magnetA : string := "magnet:?xt=urn:btih:aaaa&dn=a".
Definition magnetB : string := "magnet:?xt=urn:btih:bbbb&dn=b".
Definition magnetC : string := "magnet:?xt=urn:btih:cccc&dn=c".
Definition magnetD : string := "magnet:?xt=urn:btih:dddd&dn=d".

(** Metadata as the engine delivers it: one film of 1000 bytes. *)
Definition film : File := mkFile "My Film (2020).mp4" 1000.

Definition withMetadata (hash : string) : Torrent :=
  mkTorrent hash false true true [film] [] 0%float.

(** Sessions A, B and C, last accessed at 0, 5 and 10. *)
Definition threeSessions : Server :=
  run btih [(0, PostStream (Some magnetA) 0 0);
            (5, PostStream (Some magnetB) 5 5);
            (10, PostStream (Some magnetC) 10 10)] initial.

(** A is requested a second time before its metadata has arrived, and B
    is polled in the same millisecond; then C starts. *)
Definition tiedSessions : Server :=
  run btih [(1, PostStream (Some magnetA) 1 1);
            (2, PostStream (Some magnetB) 2 2);
            (3, PostStream (Some magnetA) 3 3);
            (3, GetInfo "bbbb");
            (4, PostStream (Some magnetC) 4 4)] initial.

(** Sessions A, B and C started at 0, 5 and 10; A is polled at 12. *)
Definition polledSessions : Server :=
  run btih [(0, PostStream (Some magnetA) 0 0);
            (5, PostStream (Some magnetB) 5 5);
            (10, PostStream (Some magnetC) 10 10);
            (12, GetInfo "aaaa")] initial.

(** One session whose metadata has arrived. *)
Definition readySession : Server :=
  run btih [(0, PostStream (Some magnetA) 0 0);
            (1, EngineUpdate 0 (withMetadata "aaaa"))] initial.

(** The registry as keys with access and creation times. *)
Definition view (s : Server) : list (string * Z * Z) :=
  map (fun e : Entry => (fst e, lastAccessed (snd e), createdAt (snd e)))
      (activeTorrents s).

End Scenario.

(* ================================================================== *)
(** ** Vocabulary of the statements *)
(* ================================================================== *)

(** The keys of the registry, in map order. *)
Definition keys (m : list Entry) : list string := map fst m.

(** The first entry, in map order, among those with the least
    [lastAccessed]. *)
Fixpoint firstOldest (l : list Entry) : option Entry :=
  match l with
  | [] => None
  | x :: l' =>
      match firstOldest l' with
      | None => Some x
      | Some m => if lastAccessed (snd x) <=? lastAccessed (snd m) then Some x else Some m
      end
  end.

(** The registry holds each key once and at most [n] entries. *)
Definition Within (n : nat) (s : Server) : Prop :=
  NoDup (keys (activeTorrents s)) /\ (List.length (activeTorrents s) <= n)%nat.

Definition Inv (s : Server) : Prop := Within (Z.to_nat MAX_ACTIVE_TORRENTS) s.

(** Whether a text holds the character [c]. *)
Fixpoint hasChar (c : ascii) (s : string) : bool :=
  match s with
  | EmptyString => false
  | String a s' => Ascii.eqb a c || hasChar c s'
  end.

(** Descending order of seeder counts. *)
Definition bySeedersDesc (a b : SearchApi.Formatted) : Prop :=
  SearchApi.seedKey a >= SearchApi.seedKey b.

(** An upstream for the scenarios of the search: the first category
    answers, the second fails in the network, the third sends no JSON. *)
Module SearchScenario.

Definition hit (name seeders : string) : option SearchApi.RawResult :=
  Some (SearchApi.mkRaw (SearchApi.Text "1") (SearchApi.Text name)
          (SearchApi.Text "abcd") (SearchApi.Text "1024") (SearchApi.Text seeders)
          (SearchApi.Text "0") (SearchApi.Text "200") (SearchApi.Text "1700000000")).

Definition movies : list (option SearchApi.RawResult) :=
  [hit "Film.2020.1080p" "5"; None; hit "Film.mkv" "100";
   hit "notes.txt" "2"; hit "Film.HDTV" "many"; hit "talk" "0x10"].

Definition upstream (cat : string) : SearchApi.Upstream :=
  if String.eqb cat "200" then SearchApi.Results movies
  else if String.eqb cat "205" then SearchApi.NetworkError
  else SearchApi.BadJson.

(** A hit that has an info_hash and no name. *)
Definition nameless : option SearchApi.RawResult :=
  Some (SearchApi.mkRaw (SearchApi.Text "2") SearchApi.Undefined
          (SearchApi.Text "ef01") (SearchApi.Text "1024") (SearchApi.Text "7")
          (SearchApi.Text "0") (SearchApi.Text "205") (SearchApi.Text "1700000000")).

(** The first category answers as before, the second sends the nameless
    hit. *)
Definition withNameless (cat : string) : SearchApi.Upstream :=
  if String.eqb cat "200" then SearchApi.Results movies
  else if String.eqb cat "205" then SearchApi.Results [nameless]
  else SearchApi.BadJson.

Definition ranking (r : SearchApi.Reply) : list (SearchApi.Value * option Z) :=
  match r with
  | SearchApi.Success _ results =>
      map (fun f => (SearchApi.fName f, SearchApi.fSeeders f)) results
  | SearchApi.Failure _ _ => []
  end.

End SearchScenario.

(** Torrents for the scenarios of the priority policy. *)
Module PriorityScenario.

Definition freshPiece : option Piece := Some (mkPiece false true).

(** Half of 1000 pieces downloaded. *)
Definition halfway : Torrent :=
  mkTorrent "aaaa" false true true [Scenario.film] (List.repeat freshPiece 1000) 0.5%float.

(** 1280 pieces at the ratio 1/128, below the threshold of 0.01. *)
Definition early : Torrent :=
  mkTorrent "aaaa" false true true [Scenario.film] (List.repeat freshPiece 1280)
            0.0078125%float.

End PriorityScenario.

(* ================================================================== *)
(** ** Vocabulary of the further properties *)
(* ================================================================== *)

(** The test of the cleanup timer: idle for more than [TORRENT_TIMEOUT]. *)
Definition stale (now : Z) (e : Entry) : bool :=
  now - lastAccessed (snd e) >? TORRENT_TIMEOUT.

(** The torrent object behind handle [h] exists and is destroyed. *)
Definition destroyedAt (s : Server) (h : nat) : Prop :=
  exists t, deref s h = Some t /\ destroyed t = true.

(** Every registry record refers to a torrent object of the heap. *)
Definition validHandles (s : Server) : Prop :=
  Forall (fun e : Entry => (torrent (snd e) < List.length (heap s))%nat)
         (activeTorrents s).

(** What holds of the server after every sequence of events: keys are
    unique, handles are valid, and the heap holds one torrent object per
    [client.add] call. *)
Definition Good (s : Server) : Prop :=
  NoDup (keys (activeTorrents s))
  /\ validHandles s
  /\ List.length (heap s) = List.length (addCalls s).

(** The last clock reading an event takes: a session start may read the
    clock again for the record it stores. *)
Definition lastReading (now : Z) (ev : Event) : Z :=
  match ev with
  | PostStream _ _ created => created
  | _ => now
  end.

(** The readings of one event do not go back. *)
Definition inOrder (now : Z) (ev : Event) : Prop :=
  match ev with
  | PostStream _ accessed created => now <= accessed <= created
  | _ => True
  end.

(** The clock readings of a trace never go back, starting from [t]. *)
Fixpoint clockFrom (t : Z) (evs : list (Z * Event)) : Prop :=
  match evs with
  | [] => True
  | (now, ev) :: evs' =>
      t <= now /\ inOrder now ev /\ clockFrom (lastReading now ev) evs'
  end.

(** The last clock reading of a trace that starts at [t]. *)
Fixpoint lastClock (t : Z) (evs : list (Z * Event)) : Z :=
  match evs with
  | [] => t
  | (now, ev) :: evs' => lastClock (lastReading now ev) evs'
  end.

(** Both timestamps of a record lie between [t0] and [t]. *)
Definition stampedWithin (t0 t : Z) (e : Entry) : Prop :=
  t0 <= lastAccessed (snd e) <= t /\ t0 <= createdAt (snd e) <= t.

(** Some record of [l] that the cleanup timer finds idle has the key of
    [e]. *)
Definition staleKey (now : Z) (l : list Entry) (e : Entry) : bool :=
  existsb (fun x => stale now x && String.eqb (fst x) (fst e)) l.

(** Every registered key has been passed to [client.add]. *)
Definition logged (s : Server) : Prop :=
  Forall (fun e : Entry => In (fst e) (addCalls s)) (activeTorrents s).

(** The part of a registry record that no request for an existing session
    may change: key, handle and creation time. *)
Definition identity (m : list Entry) : list (string * nat * Z) :=
  map (fun e : Entry => (fst e, torrent (snd e), createdAt (snd e))) m.

(** Nothing but access times differs between two server states. *)
Definition sameSessions (s s' : Server) : Prop :=
  identity (activeTorrents s') = identity (activeTorrents s)
  /\ heap s' = heap s
  /\ addCalls s' = addCalls s.

(** The [videoFile] field of a status projection. *)
Definition infoVideoFile (r : Response) : option File :=
  match body r with
  | JsonInfo _ _ _ videoFile => videoFile
  | _ => None
  end.

(** The last character of a text. *)
Fixpoint lastChar (s : string) : option ascii :=
  match s with
  | EmptyString => None
  | String c s' => match lastChar s' with None => Some c | r => r end
  end.

(** The number that a run of decimal digits denotes, read after [acc]. *)
Fixpoint uintValue (d : Decimal.uint) (acc : Z) : Z :=
  match d with
  | Decimal.Nil => acc
  | Decimal.D0 d => uintValue d (10 * acc)
  | Decimal.D1 d => uintValue d (10 * acc + 1)
  | Decimal.D2 d => uintValue d (10 * acc + 2)
  | Decimal.D3 d => uintValue d (10 * acc + 3)
  | Decimal.D4 d => uintValue d (10 * acc + 4)
  | Decimal.D5 d => uintValue d (10 * acc + 5)
  | Decimal.D6 d => uintValue d (10 * acc + 6)
  | Decimal.D7 d => uintValue d (10 * acc + 7)
  | Decimal.D8 d => uintValue d (10 * acc + 8)
  | Decimal.D9 d => uintValue d (10 * acc + 9)
  end.

(** The text does not begin with a decimal digit. *)
Definition noLeadingDigit (s : string) : Prop :=
  match s with
  | EmptyString => True
  | String c _ => JS.digitVal c = None
  end.

(** The raw hits the search handler pages through: the elements with a
    truthy [info_hash] of the three upstream answers, in order. *)
Definition searchHits (upstream : string -> SearchApi.Upstream)
  : list SearchApi.RawResult :=
  flat_map SearchApi.keepRaw
    (List.concat (map (fun cat => SearchApi.resolved (upstream cat))
                      SearchApi.categories)).

(** The hits of the requested page. *)
Definition pageHits (page limit : Z) (upstream : string -> SearchApi.Upstream)
  : list SearchApi.RawResult :=
  JS.slice ((page - 1) * limit) (page * limit) (searchHits upstream).

Definition isText (v : SearchApi.Value) : bool :=
  match v with SearchApi.Text _ => true | _ => false end.

(** A value whose conversion to a text throws. *)
Definition unprintable (v : SearchApi.Value) : bool :=
  match v with SearchApi.Compound None => true | _ => false end.

(** A hit that the handler cannot format or filter: its name is not a
    text, or one of the fields it converts cannot be converted. *)
Definition malformed (r : SearchApi.RawResult) : bool :=
  negb (isText (SearchApi.name r))
  || unprintable (SearchApi.size r)
  || unprintable (SearchApi.seeders r)
  || unprintable (SearchApi.leechers r)
  || unprintable (SearchApi.info_hash r)
  || unprintable (SearchApi.category r)
  || unprintable (SearchApi.added r).

(** A count field that does not denote a number beyond the safe range. *)
Definition safeCount (v : SearchApi.Value) : Prop :=
  match SearchApi.parseCount v with
  | SearchApi.Ok (Some n) => - JS.MAX_SAFE_INTEGER <= n <= JS.MAX_SAFE_INTEGER
  | _ => True
  end.

(** What a hit contributes to a successful answer: its formatted form, if
    that looks like a video. *)
Definition shown (r : SearchApi.RawResult) : list SearchApi.Formatted :=
  match SearchApi.format r with
  | SearchApi.Ok f =>
      match SearchApi.looksLikeVideo f with
      | SearchApi.Ok true => [f]
      | _ => []
      end
  | SearchApi.Thrown => []
  end.

(* ================================================================== *)
(** ** getCategoryName *)
(* ================================================================== *)

Module Category.

(** The object literal [categories], key by key in source order.  The key
    208 is written twice. *)
Definition categories : list (string * string) :=
  [("200", "Movies"); ("201", "Movies DVDR"); ("207", "Movies HD");
   ("208", "Movies 3D"); ("209", "Movies BluRay"); ("205", "TV Shows");
   ("208", "TV HD"); ("299", "Video"); ("501", "TV"); ("503", "TV HD")].

(** The property names every object inherits from [Object.prototype]. *)
Definition inherited : list string :=
  ["constructor"; "__defineGetter__"; "__defineSetter__"; "hasOwnProperty";
   "__lookupGetter__"; "__lookupSetter__"; "isPrototypeOf";
   "propertyIsEnumerable"; "toString"; "valueOf"; "__proto__";
   "toLocaleString"].

(** What [categories[categoryId]] yields when it is truthy: a name of the
    table, or a function or object inherited from the prototype. *)
Inductive Value :=
| Name (name : string)
| Inherited (property : string).

(** An object literal keeps the last value written for a key. *)
Fixpoint ownProperty (key : string) (l : list (string * string)) : option string :=
  match l with
  | [] => None
  | (k, v) :: l' =>
      match ownProperty key l' with
      | Some v' => Some v'
      | None => if String.eqb key k then Some v else None
      end
  end.

(** [getCategoryName(categoryId)]: [categories[categoryId] || 'Video']. *)
Definition getCategoryName (categoryId : string) : Value :=
  match ownProperty categoryId categories with
  | Some name => Name name
  | None =>
      if existsb (String.eqb categoryId) inherited then Inherited categoryId
      else Name "Video"
  end.

End Category.

(* ================================================================== *)
(** * Properties *)
(* ================================================================== *)

(** ** The string primitives on the inputs of the scenarios *)

Example parseInt_500 : JS.parseInt "500" = Some 500.
Proof. reflexivity. Qed.

Example parseInt_empty : JS.parseInt "" = None.
Proof. reflexivity. Qed.

Example parseInt_junk : JS.parseInt " 12px" = Some 12.
Proof. reflexivity. Qed.

Example parseIntNoRadix_samples :
  JS.parseIntNoRadix "100" = Some 100
  /\ JS.parseIntNoRadix "0x10" = Some 16
  /\ JS.parseIntNoRadix " -0X1f rest" = Some (-31)
  /\ JS.parseIntNoRadix "0x" = None
  /\ JS.parseIntNoRadix "010" = Some 10
  /\ JS.parseIntNoRadix "many" = None.
Proof. repeat split; reflexivity. Qed.

Example split_open_range : JS.split "-" "500-" = ["500"; ""].
Proof. reflexivity. Qed.

Example split_suffix_range : JS.split "-" "-500" = [""; "500"].
Proof. reflexivity. Qed.

Example replace_bytes : JS.replaceFirst "bytes=" "" "bytes=1200-1300" = "1200-1300".
Proof. reflexivity. Qed.

Example show_999 : JS.show 999 = "999" /\ JS.show 0 = "0" /\ JS.show (-5) = "-5".
Proof. repeat split; reflexivity. Qed.

Example trim_blank : JS.trim "   " = "" /\ JS.trim " a b " = "a b".
Proof. split; reflexivity. Qed.

(* ================================================================== *)
(** ** Facts about the Map *)
(* ================================================================== *)


Lemma has_In (k : string) (m : list Entry) :
  Map.has k m = true <-> In k (keys m).
Proof.
  unfold Map.has. induction m as [|[k' d] m IH]; simpl.
  - split; [discriminate | tauto].
  - destruct (String.eqb_spec k k') as [->|Hne].
    + split; auto.
    + rewrite IH. split; [auto | intros [H|H]; [congruence | exact H]].
Qed.

Lemma has_false_notIn (k : string) (m : list Entry) :
  Map.has k m = false <-> ~ In k (keys m).
Proof.
  rewrite <- has_In. destruct (Map.has k m); split; congruence.
Qed.

Lemma set_absent (k : string) (d : Data) (m : list Entry) :
  Map.has k m = false -> Map.set k d m = m ++ [(k, d)].
Proof.
  unfold Map.has. induction m as [|[k' d'] m IH]; simpl; intros H.
  - reflexivity.
  - destruct (String.eqb k k'); [discriminate | now rewrite IH].
Qed.

Lemma keys_set_present (k : string) (d : Data) (m : list Entry) :
  Map.has k m = true -> keys (Map.set k d m) = keys m.
Proof.
  unfold Map.has. induction m as [|[k' d'] m IH]; simpl; intros H.
  - discriminate.
  - destruct (String.eqb_spec k k') as [->|Hne]; simpl.
    + reflexivity.
    + now rewrite IH.
Qed.

Lemma keys_touchKey (k : string) (now : Z) (m : list Entry) :
  keys (touchKey k now m) = keys m.
Proof.
  induction m as [|[k' d'] m IH]; simpl; [reflexivity|].
  destruct (String.eqb k k'); simpl; [reflexivity | now rewrite IH].
Qed.

Lemma keys_touchByInfoHash hp (id : string) (now : Z) (m : list Entry) :
  keys (touchByInfoHash hp id now m) = keys m.
Proof.
  induction m as [|[k' d'] m IH]; simpl; [reflexivity|].
  destruct (nth_error hp (torrent d')) as [t|]; simpl.
  - destruct (String.eqb (infoHash t) id); simpl; [reflexivity | now rewrite IH].
  - now rewrite IH.
Qed.

Lemma keys_delete_incl (k : string) (m : list Entry) :
  incl (keys (Map.delete k m)) (keys m).
Proof.
  induction m as [|[k' d'] m IH]; simpl; [apply incl_refl|].
  destruct (String.eqb k k').
  - apply incl_tl, incl_refl.
  - simpl. intros x [<-|H]; [now left | right; now apply IH].
Qed.

Lemma NoDup_delete (k : string) (m : list Entry) :
  NoDup (keys m) -> NoDup (keys (Map.delete k m)).
Proof.
  induction m as [|[k' d'] m IH]; simpl; intros H; [constructor|].
  inversion H as [|? ? Hnin Hnd]; subst.
  destruct (String.eqb k k'); [exact Hnd|].
  simpl. constructor; [|now apply IH].
  intros Hin. apply Hnin. now apply (keys_delete_incl k m).
Qed.

Lemma length_delete_le (k : string) (m : list Entry) :
  (List.length (Map.delete k m) <= List.length m)%nat.
Proof.
  induction m as [|[k' d'] m IH]; simpl; [lia|].
  destruct (String.eqb k k'); simpl; lia.
Qed.

Lemma length_delete_In (k : string) (m : list Entry) :
  In k (keys m) -> S (List.length (Map.delete k m)) = List.length m.
Proof.
  induction m as [|[k' d'] m IH]; simpl; [tauto|].
  destruct (String.eqb_spec k k') as [->|Hne]; [reflexivity|].
  intros [H|H]; [congruence|]. simpl. now rewrite IH.
Qed.

Lemma delete_middle (l1 l2 : list Entry) (v : Entry) :
  ~ In (fst v) (keys l1) -> Map.delete (fst v) (l1 ++ v :: l2) = l1 ++ l2.
Proof.
  induction l1 as [|[k' d'] l1 IH]; simpl; intros H.
  - destruct v as [k d]; simpl. now rewrite String.eqb_refl.
  - destruct (String.eqb_spec (fst v) k') as [E|Hne]; [symmetry in E; tauto|].
    rewrite IH; tauto.
Qed.

Lemma NoDup_set (k : string) (d : Data) (m : list Entry) :
  NoDup (keys m) -> NoDup (keys (Map.set k d m)).
Proof.
  intros H. destruct (Map.has k m) eqn:E.
  - now rewrite keys_set_present.
  - rewrite set_absent by exact E. unfold keys. rewrite map_app. simpl.
    apply has_false_notIn in E.
    apply (Permutation_NoDup (l := k :: map fst m)).
    + apply Permutation_cons_append.
    + now constructor.
Qed.

Lemma length_set_le (k : string) (d : Data) (m : list Entry) :
  (List.length (Map.set k d m) <= S (List.length m))%nat.
Proof.
  induction m as [|[k' d'] m IH]; simpl; [lia|].
  destruct (String.eqb k k'); simpl; lia.
Qed.

Lemma length_set_present (k : string) (d : Data) (m : list Entry) :
  Map.has k m = true -> List.length (Map.set k d m) = List.length m.
Proof.
  intros H. apply keys_set_present with (d := d) in H.
  apply (f_equal (@List.length string)) in H. unfold keys in H.
  now rewrite !length_map in H.
Qed.

(* ================================================================== *)
(** ** Facts about the stable sort by access time *)
(* ================================================================== *)


Lemma insertByAccess_perm (x : Entry) (l : list Entry) :
  Permutation (insertByAccess x l) (x :: l).
Proof.
  induction l as [|y l IH]; simpl; [apply Permutation_refl|].
  destruct (lastAccessed (snd x) <=? lastAccessed (snd y)).
  - apply Permutation_refl.
  - eapply perm_trans; [apply perm_skip, IH | apply perm_swap].
Qed.

Lemma sortByAccess_perm (l : list Entry) : Permutation (sortByAccess l) l.
Proof.
  induction l as [|x l IH]; simpl; [constructor|].
  eapply perm_trans; [apply insertByAccess_perm | now apply perm_skip].
Qed.

Lemma head_insertByAccess (x : Entry) (l : list Entry) :
  hd_error (insertByAccess x l) =
  match hd_error l with
  | None => Some x
  | Some y => if lastAccessed (snd x) <=? lastAccessed (snd y) then Some x else Some y
  end.
Proof.
  destruct l as [|y l]; simpl; [reflexivity|].
  now destruct (lastAccessed (snd x) <=? lastAccessed (snd y)).
Qed.

Lemma head_sortByAccess (l : list Entry) :
  hd_error (sortByAccess l) = firstOldest l.
Proof.
  induction l as [|x l IH]; simpl; [reflexivity|].
  now rewrite head_insertByAccess, IH.
Qed.

(** [firstOldest] splits the list at the victim: strictly newer entries
    before it, no older entry after it. *)
Lemma firstOldest_split (l : list Entry) (v : Entry) :
  firstOldest l = Some v ->
  exists l1 l2,
    l = l1 ++ v :: l2
    /\ (forall e, In e l1 -> lastAccessed (snd v) < lastAccessed (snd e))
    /\ (forall e, In e l2 -> lastAccessed (snd v) <= lastAccessed (snd e)).
Proof.
  revert v. induction l as [|x l IH]; simpl; intros v H; [discriminate|].
  destruct (firstOldest l) as [m|] eqn:E.
  - destruct (IH m eq_refl) as (l1 & l2 & -> & H1 & H2).
    destruct (Z.leb_spec (lastAccessed (snd x)) (lastAccessed (snd m))) as [Hle|Hgt];
      inversion H; subst.
    + exists [], (l1 ++ m :: l2). split; [reflexivity|]. split; [intros e []|].
      intros e He. apply in_app_or in He. destruct He as [He|[<-|He]].
      * specialize (H1 _ He). lia.
      * exact Hle.
      * specialize (H2 _ He). lia.
    + exists (x :: l1), l2. split; [reflexivity|]. split; [|exact H2].
      intros e [<-|He]; [exact Hgt | now apply H1].
  - inversion H; subst. destruct l as [|y l]; [|simpl in E; destruct (firstOldest l); [destruct (_ <=? _)|]; discriminate].
    exists [], []. split; [reflexivity|]. split; intros e [].
Qed.

(* ================================================================== *)
(** ** The capacity invariant *)
(* ================================================================== *)


Lemma fold_left_preserves {A B : Type} (P : A -> Prop) (f : A -> B -> A)
    (l : list B) (a : A) :
  (forall a b, P a -> P (f a b)) -> P a -> P (fold_left f l a).
Proof.
  intros Hf. revert a. induction l as [|b l IH]; simpl; intros a Ha; auto.
Qed.

Lemma destroyTorrent_active (k : string) (d : Data) (s : Server) :
  activeTorrents (destroyTorrent k d s) = Map.delete k (activeTorrents s).
Proof. reflexivity. Qed.

Lemma destroyTorrent_addCalls (k : string) (d : Data) (s : Server) :
  addCalls (destroyTorrent k d s) = addCalls s.
Proof. reflexivity. Qed.

Lemma destroyTorrent_within (n : nat) (k : string) (d : Data) (s : Server) :
  Within n s -> Within n (destroyTorrent k d s).
Proof.
  intros [Hnd Hlen]. split; rewrite destroyTorrent_active.
  - now apply NoDup_delete.
  - pose proof (length_delete_le k (activeTorrents s)). lia.
Qed.

Lemma sweep_within (n : nat) (now : Z) (s : Server) :
  Within n s -> Within n (sweep now s).
Proof.
  intros H. unfold sweep. apply fold_left_preserves; [|exact H].
  intros a e Ha. destruct (_ >? _); [now apply destroyTorrent_within | exact Ha].
Qed.

Lemma cleanupOldTorrents_within (n : nat) (url : string) (s : Server) :
  Within n s -> Within n (cleanupOldTorrents url s).
Proof.
  intros H. unfold cleanupOldTorrents.
  destruct (_ >=? _); [|exact H].
  apply fold_left_preserves; [|exact H].
  intros a e Ha. destruct (negb _); [now apply destroyTorrent_within | exact Ha].
Qed.

Lemma cleanupOldTorrents_addCalls (url : string) (s : Server) :
  addCalls (cleanupOldTorrents url s) = addCalls s.
Proof.
  unfold cleanupOldTorrents. destruct (_ >=? _); [|reflexivity].
  apply (fold_left_preserves (fun a => addCalls a = addCalls s)); [|reflexivity].
  intros a e Ha. destruct (negb _); [now rewrite destroyTorrent_addCalls | exact Ha].
Qed.

(** Below capacity nothing is evicted. *)
Lemma cleanupOldTorrents_below (url : string) (s : Server) :
  Map.size (activeTorrents s) < MAX_ACTIVE_TORRENTS ->
  cleanupOldTorrents url s = s.
Proof.
  intros H. unfold cleanupOldTorrents.
  destruct (Z.geb_spec (Map.size (activeTorrents s)) MAX_ACTIVE_TORRENTS); [lia | reflexivity].
Qed.

(** At capacity exactly the head of the sorted snapshot is looked at: it
    is destroyed unless it is the requested key itself. *)
Lemma cleanupOldTorrents_full (url : string) (s : Server) :
  Map.size (activeTorrents s) = MAX_ACTIVE_TORRENTS ->
  exists v,
    firstOldest (activeTorrents s) = Some v
    /\ In v (activeTorrents s)
    /\ cleanupOldTorrents url s =
       if String.eqb (fst v) url then s else destroyTorrent (fst v) (snd v) s.
Proof.
  intros H. unfold cleanupOldTorrents. rewrite H.
  replace (MAX_ACTIVE_TORRENTS >=? MAX_ACTIVE_TORRENTS) with true by reflexivity.
  replace (Z.to_nat (MAX_ACTIVE_TORRENTS - MAX_ACTIVE_TORRENTS + 1)) with 1%nat by reflexivity.
  pose proof (head_sortByAccess (activeTorrents s)) as Hhd.
  pose proof (sortByAccess_perm (activeTorrents s)) as Hperm.
  destruct (sortByAccess (activeTorrents s)) as [|v rest] eqn:E.
  - apply Permutation_nil in Hperm. rewrite Hperm in H. discriminate.
  - exists v. simpl in Hhd. split; [now symmetry|]. split.
    + apply (Permutation_in v Hperm). now left.
    + simpl. now destruct (String.eqb (fst v) url).
Qed.

Lemma In_keys (v : Entry) (m : list Entry) : In v m -> In (fst v) (keys m).
Proof. intros H. unfold keys. now apply in_map. Qed.

Lemma length_touchKey (k : string) (now : Z) (m : list Entry) :
  List.length (touchKey k now m) = List.length m.
Proof.
  induction m as [|[k' d'] m IH]; simpl; [reflexivity|].
  destruct (String.eqb k k'); simpl; [reflexivity | now rewrite IH].
Qed.

Lemma length_touchByInfoHash hp (id : string) (now : Z) (m : list Entry) :
  List.length (touchByInfoHash hp id now m) = List.length m.
Proof.
  induction m as [|[k' d'] m IH]; simpl; [reflexivity|].
  destruct (nth_error hp (torrent d')) as [t|]; simpl.
  - destruct (String.eqb (infoHash t) id); simpl; [reflexivity | now rewrite IH].
  - now rewrite IH.
Qed.

Section EngineFacts.

Variable infoHashOf : string -> string.

Lemma addTorrent_inv (accessed created : Z) (url : string) (s : Server) :
  Inv s -> Inv (fst (addTorrent infoHashOf accessed created url s)).
Proof.
  intros [Hnd Hlen]. unfold addTorrent, clientAdd. simpl.
  assert (Hcap : Z.to_nat MAX_ACTIVE_TORRENTS = 3%nat) by reflexivity.
  split; simpl.
  - apply NoDup_set. now apply (cleanupOldTorrents_within _ url s (conj Hnd Hlen)).
  - rewrite Hcap in *.
    destruct (Z.eq_dec (Map.size (activeTorrents s)) MAX_ACTIVE_TORRENTS) as [Hfull|Hnot].
    + destruct (cleanupOldTorrents_full url s Hfull) as (v & _ & Hin & ->).
      unfold Map.size, MAX_ACTIVE_TORRENTS in Hfull.
      destruct (String.eqb_spec (fst v) url) as [<-|Hne].
      * rewrite length_set_present; [lia|]. apply has_In. now apply In_keys.
      * rewrite destroyTorrent_active.
        pose proof (length_delete_In (fst v) _ (In_keys _ _ Hin)).
        pose proof (length_set_le url (mkData (List.length (heap (destroyTorrent (fst v) (snd v) s))) accessed created)
                      (Map.delete (fst v) (activeTorrents s))).
        lia.
    + rewrite cleanupOldTorrents_below.
      * pose proof (length_set_le url (mkData (List.length (heap s)) accessed created) (activeTorrents s)).
        unfold Map.size, MAX_ACTIVE_TORRENTS in Hnot. lia.
      * unfold Map.size, MAX_ACTIVE_TORRENTS in *. lia.
Qed.

Lemma touchKey_within (n : nat) (k : string) (now : Z) (s : Server) :
  Within n s ->
  Within n (mkServer (touchKey k now (activeTorrents s)) (heap s) (addCalls s)).
Proof.
  intros [Hnd Hlen]. split; simpl.
  - now rewrite keys_touchKey.
  - now rewrite length_touchKey.
Qed.

Lemma postStream_inv (now accessed created : Z) (magnetUrl : option string)
    (s : Server) :
  Inv s -> Inv (fst (postStream infoHashOf now accessed created magnetUrl s)).
Proof.
  intros H. unfold postStream.
  destruct magnetUrl as [url|]; [|exact H].
  destruct (negb (JS.truthy url)); [exact H|].
  destruct (Map.get url (activeTorrents s)) as [data|]; [|now apply addTorrent_inv].
  pose proof (touchKey_within _ url now s H) as H1.
  destruct (deref s (torrent data)) as [t|]; [|exact H1].
  destruct (destroyed t).
  - apply addTorrent_inv. destruct H1 as [Hnd Hlen]. split; simpl in *.
    + now apply NoDup_delete.
    + pose proof (length_delete_le url (touchKey url now (activeTorrents s))). lia.
  - destruct (findVideo t); [exact H1 | now apply addTorrent_inv].
Qed.

Lemma touched_within (n : nat) (id : string) (now : Z) (s : Server) :
  Within n s -> Within n (touched id now s).
Proof.
  intros [Hnd Hlen]. split; simpl.
  - now rewrite keys_touchByInfoHash.
  - now rewrite length_touchByInfoHash.
Qed.

Lemma step_inv (now : Z) (ev : Event) (s : Server) :
  Inv s -> Inv (fst (step infoHashOf now ev s)).
Proof.
  intros H. destruct ev as [m accessed created|id r|id|id r| |h t]; simpl.
  - pose proof (postStream_inv now accessed created m s H).
    now destruct (postStream infoHashOf now accessed created m s).
  - exact H.
  - unfold getInfo. destruct (findTorrent s id) as [[? ?]|]; [|exact H].
    now apply touched_within.
  - unfold getDownload. destruct (findTorrent s id) as [[? t]|]; [|exact H].
    pose proof (touched_within _ id now s H) as H1.
    destruct (findVideo t); [|exact H1].
    destruct (destroyed t); [exact H1|].
    destruct r as [r|]; [|exact H1].
    destruct (JS.truthy r); [|exact H1].
    destruct (rangeStart r); [|exact H1].
    destruct (rangeEnd r f); [|exact H1].
    destruct (_ >? _); exact H1.
  - now apply sweep_within.
  - exact H.
Qed.

Lemma run_inv (evs : list (Z * Event)) (s : Server) :
  Inv s -> Inv (run infoHashOf evs s).
Proof.
  revert s. induction evs as [|[now ev] evs IH]; simpl; intros s H; [exact H|].
  apply IH. now apply step_inv.
Qed.

Lemma initial_inv : Inv initial.
Proof. split; simpl; [constructor | lia]. Qed.

End EngineFacts.

(* ================================================================== *)
(** ** Session start at capacity *)
(* ================================================================== *)

Lemma length_updateAt {A : Type} (n : nat) (f : A -> A) (l : list A) :
  List.length (updateAt n f l) = List.length l.
Proof.
  revert n. induction l as [|x l IH]; intros [|n]; simpl; auto.
Qed.

Lemma destroyTorrent_heap_length (k : string) (d : Data) (s : Server) :
  List.length (heap (destroyTorrent k d s)) = List.length (heap s).
Proof.
  unfold destroyTorrent; simpl.
  destruct (deref s (torrent d)) as [t|]; [|reflexivity].
  destruct (negb (destroyed t)); [apply length_updateAt | reflexivity].
Qed.

Lemma NoDup_keys_app_head (l1 l2 : list Entry) (v : Entry) :
  NoDup (keys (l1 ++ v :: l2)) -> ~ In (fst v) (keys l1).
Proof.
  unfold keys. rewrite map_app. simpl. intros H Hin.
  apply NoDup_remove_2 in H. apply H. apply in_or_app. now left.
Qed.

Section AtCapacity.

Variable infoHashOf : string -> string.

(** A new key arriving at a full registry: the map splits around the
    victim, which is the first of the least recently accessed entries; the
    victim alone leaves, and the new record goes last. *)
Lemma postStream_at_capacity (now accessed created : Z) (url : string) (s : Server) :
  Inv s ->
  Map.size (activeTorrents s) = MAX_ACTIVE_TORRENTS ->
  JS.truthy url = true ->
  Map.has url (activeTorrents s) = false ->
  exists l1 v l2,
    activeTorrents s = l1 ++ v :: l2
    /\ firstOldest (activeTorrents s) = Some v
    /\ (forall e, In e l1 -> lastAccessed (snd v) < lastAccessed (snd e))
    /\ (forall e, In e l2 -> lastAccessed (snd v) <= lastAccessed (snd e))
    /\ cleanupOldTorrents url s = destroyTorrent (fst v) (snd v) s
    /\ activeTorrents (cleanupOldTorrents url s) = l1 ++ l2
    /\ activeTorrents (fst (postStream infoHashOf now accessed created (Some url) s))
       = l1 ++ l2 ++ [(url, mkData (List.length (heap s)) accessed created)]
    /\ heap (fst (postStream infoHashOf now accessed created (Some url) s))
       = heap (destroyTorrent (fst v) (snd v) s)
           ++ [mkTorrent (infoHashOf url) false true false [] [] 0%float].
Proof.
  intros [Hnd _] Hfull Htruthy Habsent.
  destruct (cleanupOldTorrents_full url s Hfull) as (v & Hv & Hin & Hclean).
  destruct (firstOldest_split _ _ Hv) as (l1 & l2 & Hsplit & Hnewer & Hrest).
  assert (Hne : String.eqb (fst v) url = false).
  { apply String.eqb_neq. intros <-.
    apply has_false_notIn in Habsent. apply Habsent. now apply In_keys. }
  rewrite Hne in Hclean.
  assert (Hdel : Map.delete (fst v) (activeTorrents s) = l1 ++ l2).
  { rewrite Hsplit. apply delete_middle.
    rewrite Hsplit in Hnd. now apply NoDup_keys_app_head in Hnd. }
  assert (Hget : Map.get url (activeTorrents s) = None).
  { unfold Map.has in Habsent. now destruct (Map.get url (activeTorrents s)). }
  exists l1, v, l2. repeat split; auto.
  - now rewrite Hclean, destroyTorrent_active.
  - unfold postStream. rewrite Htruthy. simpl.
    rewrite Hget. unfold addTorrent, clientAdd. rewrite Hclean.
    pose proof (destroyTorrent_heap_length (fst v) (snd v) s) as Hheap.
    pose proof (destroyTorrent_active (fst v) (snd v) s) as Hact.
    rewrite Hdel in Hact.
    destruct (destroyTorrent (fst v) (snd v) s) as [m1 hp1 calls1].
    simpl in *. subst m1. rewrite Hheap.
    rewrite set_absent.
    + now rewrite <- app_assoc.
    + apply has_false_notIn. apply has_false_notIn in Habsent.
      intros Hin'. apply Habsent. rewrite <- Hdel in Hin'.
      now apply (keys_delete_incl (fst v)).
  - unfold postStream. rewrite Htruthy. simpl.
    rewrite Hget. unfold addTorrent, clientAdd. rewrite Hclean. reflexivity.
Qed.

End AtCapacity.

Lemma liveSessions_le (s : Server) :
  Z.of_nat (List.length (liveSessions s)) <= Map.size (activeTorrents s).
Proof.
  unfold liveSessions, Map.size.
  pose proof (filter_length_le (isLive (heap s)) (activeTorrents s)). lia.
Qed.

(** C1.  After every sequence of events from the empty server (session
    starts, and also polls, stream and download opens, cleanup ticks and
    engine activity in between) the registry holds at most
    MAX_ACTIVE_TORRENTS entries, so at most that many live sessions.  When
    a session for a key that is not registered starts at a full registry,
    exactly one entry is removed by the cleanup that runs before the
    insertion, and it is the least recently used one: the registry splits
    around the victim, every entry before it was accessed strictly later
    and no entry after it was accessed earlier; the cleanup is the
    destruction of the victim and leaves the other entries in place.  The
    registry has MAX_ACTIVE_TORRENTS - 1 entries when the new record is
    inserted and MAX_ACTIVE_TORRENTS after it. *)
Theorem capacity_invariant :
  (forall (infoHashOf : string -> string) (evs : list (Z * Event)),
      let s := run infoHashOf evs initial in
      Z.of_nat (List.length (liveSessions s)) <= MAX_ACTIVE_TORRENTS
      /\ Map.size (activeTorrents s) <= MAX_ACTIVE_TORRENTS)
  /\
  (forall (infoHashOf : string -> string) (evs : list (Z * Event))
          (now accessed created : Z) (url : string),
      let s := run infoHashOf evs initial in
      Map.size (activeTorrents s) = MAX_ACTIVE_TORRENTS ->
      JS.truthy url = true ->
      Map.has url (activeTorrents s) = false ->
      exists l1 victim l2,
        activeTorrents s = l1 ++ victim :: l2
        /\ (forall e, In e l1 -> lastAccessed (snd victim) < lastAccessed (snd e))
        /\ (forall e, In e l2 -> lastAccessed (snd victim) <= lastAccessed (snd e))
        /\ cleanupOldTorrents url s = destroyTorrent (fst victim) (snd victim) s
        /\ activeTorrents (cleanupOldTorrents url s) = l1 ++ l2
        /\ Map.size (activeTorrents (cleanupOldTorrents url s))
           = MAX_ACTIVE_TORRENTS - 1
        /\ activeTorrents (fst (postStream infoHashOf now accessed created (Some url) s))
           = activeTorrents (cleanupOldTorrents url s)
               ++ [(url, mkData (List.length (heap s)) accessed created)]
        /\ Map.size (activeTorrents
                       (fst (postStream infoHashOf now accessed created (Some url) s)))
           = MAX_ACTIVE_TORRENTS).
Proof.
  split.
  - intros infoHashOf evs s.
    assert (H : Inv s) by (apply run_inv, initial_inv).
    destruct H as [_ Hlen].
    assert (Hsize : Map.size (activeTorrents s) <= MAX_ACTIVE_TORRENTS).
    { unfold Map.size. change MAX_ACTIVE_TORRENTS with (Z.of_nat (Z.to_nat MAX_ACTIVE_TORRENTS)).
      lia. }
    split; [|exact Hsize].
    pose proof (liveSessions_le s). lia.
  - intros infoHashOf evs now accessed created url s Hfull Htruthy Habsent.
    assert (H : Inv s) by (apply run_inv, initial_inv).
    destruct (postStream_at_capacity infoHashOf now accessed created url s
                H Hfull Htruthy Habsent)
      as (l1 & v & l2 & Hsplit & _ & Hnewer & Hrest & Hclean & Hactive & Hpost & _).
    exists l1, v, l2.
    assert (Hlen : Map.size (l1 ++ l2) = MAX_ACTIVE_TORRENTS - 1).
    { rewrite <- Hfull, Hsplit. unfold Map.size. rewrite !length_app. simpl. lia. }
    split; [exact Hsplit|].
    split; [exact Hnewer|].
    split; [exact Hrest|].
    split; [exact Hclean|].
    split; [exact Hactive|].
    split; [now rewrite Hactive|].
    split; [now rewrite Hpost, Hactive, app_assoc|].
    rewrite Hpost, app_assoc. unfold Map.size in *. rewrite length_app. simpl. lia.
Qed.

(** C1 at sessions A, B, C of which A was polled last, and a request for
    D: the victim is B, in the middle of the registry. *)
Lemma capacity_invariant_witness :
  exists l1 victim l2,
    activeTorrents Scenario.polledSessions = l1 ++ victim :: l2
    /\ (forall e, In e l1 -> lastAccessed (snd victim) < lastAccessed (snd e))
    /\ (forall e, In e l2 -> lastAccessed (snd victim) <= lastAccessed (snd e))
    /\ cleanupOldTorrents Scenario.magnetD Scenario.polledSessions
       = destroyTorrent (fst victim) (snd victim) Scenario.polledSessions
    /\ activeTorrents (cleanupOldTorrents Scenario.magnetD Scenario.polledSessions)
       = l1 ++ l2
    /\ Map.size (activeTorrents (cleanupOldTorrents Scenario.magnetD Scenario.polledSessions))
       = MAX_ACTIVE_TORRENTS - 1
    /\ activeTorrents (fst (postStream Scenario.btih 13 13 14 (Some Scenario.magnetD)
                              Scenario.polledSessions))
       = activeTorrents (cleanupOldTorrents Scenario.magnetD Scenario.polledSessions)
           ++ [(Scenario.magnetD,
                mkData (List.length (heap Scenario.polledSessions)) 13 14)]
    /\ Map.size (activeTorrents (fst (postStream Scenario.btih 13 13 14
                                        (Some Scenario.magnetD)
                                        Scenario.polledSessions)))
       = MAX_ACTIVE_TORRENTS.
Proof.
  apply (proj2 capacity_invariant Scenario.btih
           [(0, PostStream (Some Scenario.magnetA) 0 0);
            (5, PostStream (Some Scenario.magnetB) 5 5);
            (10, PostStream (Some Scenario.magnetC) 10 10);
            (12, GetInfo "aaaa")] 13 13 14 Scenario.magnetD);
    reflexivity.
Defined.

(** The sessions of the witness: B, last accessed at 5, is the victim, and
    the registry afterwards holds A, C and D. *)
Example polled_sessions_evict_B :
  Scenario.view Scenario.polledSessions
  = [(Scenario.magnetA, 12, 0); (Scenario.magnetB, 5, 5); (Scenario.magnetC, 10, 10)]
  /\ Scenario.view (fst (postStream Scenario.btih 13 13 14 (Some Scenario.magnetD)
                           Scenario.polledSessions))
     = [(Scenario.magnetA, 12, 0); (Scenario.magnetC, 10, 10); (Scenario.magnetD, 13, 14)]
  /\ map destroyed (heap (fst (postStream Scenario.btih 13 13 14 (Some Scenario.magnetD)
                                 Scenario.polledSessions)))
     = [false; true; false; false].
Proof. repeat split; vm_compute; reflexivity. Qed.

(* ================================================================== *)
(** ** Which session is evicted *)
(* ================================================================== *)

(** C6, as the code has it.  When a session for a key that is not
    registered starts at a full registry, the evicted entry is the one with
    the least lastAccessed among all registry entries, and among several
    such entries the one that comes first in the registry's insertion
    order (createdAt is not consulted): every entry before the victim was
    accessed strictly later, no entry after it was accessed earlier.  Only
    the victim leaves the registry and only its torrent is destroyed; the
    new record goes last.  With A, B, C accessed at 0, 5, 10, a request
    for D evicts A and only A. *)
Theorem eviction_victim :
  (forall (infoHashOf : string -> string) (evs : list (Z * Event))
          (now accessed created : Z) (url : string),
      let s := run infoHashOf evs initial in
      Map.size (activeTorrents s) = MAX_ACTIVE_TORRENTS ->
      JS.truthy url = true ->
      Map.has url (activeTorrents s) = false ->
      exists l1 v l2,
        activeTorrents s = l1 ++ v :: l2
        /\ (forall e, In e l1 -> lastAccessed (snd v) < lastAccessed (snd e))
        /\ (forall e, In e l2 -> lastAccessed (snd v) <= lastAccessed (snd e))
        /\ activeTorrents (fst (postStream infoHashOf now accessed created (Some url) s))
           = l1 ++ l2 ++ [(url, mkData (List.length (heap s)) accessed created)]
        /\ heap (fst (postStream infoHashOf now accessed created (Some url) s))
           = heap (destroyTorrent (fst v) (snd v) s)
               ++ [mkTorrent (infoHashOf url) false true false [] [] 0%float])
  /\
  (Scenario.view Scenario.threeSessions
   = [(Scenario.magnetA, 0, 0); (Scenario.magnetB, 5, 5); (Scenario.magnetC, 10, 10)]
   /\ Scenario.view (fst (postStream Scenario.btih 11 11 11 (Some Scenario.magnetD)
                            Scenario.threeSessions))
      = [(Scenario.magnetB, 5, 5); (Scenario.magnetC, 10, 10); (Scenario.magnetD, 11, 11)]
   /\ map destroyed (heap (fst (postStream Scenario.btih 11 11 11 (Some Scenario.magnetD)
                                  Scenario.threeSessions)))
      = [true; false; false; false]).
Proof.
  split.
  - intros infoHashOf evs now accessed created url s Hfull Htruthy Habsent.
    assert (H : Inv s) by (apply run_inv, initial_inv).
    destruct (postStream_at_capacity infoHashOf now accessed created url s
                H Hfull Htruthy Habsent)
      as (l1 & v & l2 & Hsplit & _ & Hnewer & Hrest & _ & _ & Hpost & Hheap).
    exists l1, v, l2. auto.
  - repeat split; vm_compute; reflexivity.
Qed.

(** C6 at the tied sessions: A, B, C with a request for D. *)
Lemma eviction_victim_witness :
  exists l1 v l2,
    activeTorrents Scenario.tiedSessions = l1 ++ v :: l2
    /\ (forall e, In e l1 -> lastAccessed (snd v) < lastAccessed (snd e))
    /\ (forall e, In e l2 -> lastAccessed (snd v) <= lastAccessed (snd e))
    /\ activeTorrents (fst (postStream Scenario.btih 5 5 5 (Some Scenario.magnetD)
                              Scenario.tiedSessions))
       = l1 ++ l2 ++ [(Scenario.magnetD,
                       mkData (List.length (heap Scenario.tiedSessions)) 5 5)]
    /\ heap (fst (postStream Scenario.btih 5 5 5 (Some Scenario.magnetD)
                    Scenario.tiedSessions))
       = heap (destroyTorrent (fst v) (snd v) Scenario.tiedSessions)
           ++ [mkTorrent (Scenario.btih Scenario.magnetD) false true false [] [] 0%float].
Proof.
  apply (proj1 eviction_victim Scenario.btih
           [(1, PostStream (Some Scenario.magnetA) 1 1);
            (2, PostStream (Some Scenario.magnetB) 2 2);
            (3, PostStream (Some Scenario.magnetA) 3 3);
            (3, GetInfo "bbbb");
            (4, PostStream (Some Scenario.magnetC) 4 4)] 5 5 5 Scenario.magnetD);
    reflexivity.
Defined.

(** C6 as stated fails on a tie.  A and B were both last accessed at 3; B
    was created at 2 and A's record at 3, so the stated rule names B.  The
    code evicts A, which comes first in the registry, and keeps B. *)
Lemma eviction_tie_counterexample :
  Scenario.view Scenario.tiedSessions
  = [(Scenario.magnetA, 3, 3); (Scenario.magnetB, 3, 2); (Scenario.magnetC, 4, 4)]
  /\ map fst (liveSessions Scenario.tiedSessions)
     = [Scenario.magnetA; Scenario.magnetB; Scenario.magnetC]
  /\ option_map fst (Spec.victim Scenario.magnetD Scenario.tiedSessions)
     = Some Scenario.magnetB
  /\ Scenario.view (fst (postStream Scenario.btih 5 5 5 (Some Scenario.magnetD)
                           Scenario.tiedSessions))
     = [(Scenario.magnetB, 3, 2); (Scenario.magnetC, 4, 4); (Scenario.magnetD, 5, 5)].
Proof. repeat split; vm_compute; reflexivity. Qed.

(* ================================================================== *)
(** ** Reuse of a session for the same locator *)
(* ================================================================== *)

Lemma addCount_app (url : string) (m : list Entry) (hp : list Torrent)
    (calls : list string) (x : string) :
  addCount url (mkServer m hp (calls ++ [x]))
  = (addCount url (mkServer m hp calls) + (if String.eqb url x then 1 else 0))%nat.
Proof.
  unfold addCount; simpl. rewrite filter_app, length_app. simpl.
  now destruct (String.eqb url x).
Qed.

Section Reuse.

Variable infoHashOf : string -> string.

Lemma addTorrent_addCount (accessed created : Z) (url : string) (s : Server) :
  addCount url (fst (addTorrent infoHashOf accessed created url s)) = S (addCount url s).
Proof.
  unfold addTorrent, clientAdd. simpl. unfold addCount at 1. simpl.
  rewrite cleanupOldTorrents_addCalls, filter_app, length_app. simpl.
  rewrite String.eqb_refl. unfold addCount. simpl. lia.
Qed.

Example postStream_missing_url :
  status (snd (postStream Scenario.btih 0 0 0 None initial)) = 400
  /\ status (snd (postStream Scenario.btih 0 0 0 (Some EmptyString) initial)) = 400
  /\ fst (postStream Scenario.btih 0 0 0 None initial) = initial.
Proof. repeat split; reflexivity. Qed.

(** The path that works: a live session whose selected file is known is
    returned, and the engine is not asked again. *)
Lemma postStream_reuses_with_video (now accessed created : Z) (url : string) (s : Server)
    (data : Data) (t : Torrent) (videoFile : File) :
  JS.truthy url = true ->
  Map.get url (activeTorrents s) = Some data ->
  deref s (torrent data) = Some t ->
  destroyed t = false ->
  findVideo t = Some videoFile ->
  addCalls (fst (postStream infoHashOf now accessed created (Some url) s)) = addCalls s
  /\ heap (fst (postStream infoHashOf now accessed created (Some url) s)) = heap s
  /\ body (snd (postStream infoHashOf now accessed created (Some url) s))
     = JsonStream (infoHash t) (Some (fileName videoFile)) (Some (ready t)).
Proof.
  intros Htruthy Hget Hderef Hlive Hvideo. unfold postStream.
  rewrite Htruthy, Hget, Hderef, Hlive, Hvideo. simpl. auto.
Qed.

(** The path that does not: a live session whose metadata has not arrived
    (no selected file yet) falls through to a second [client.add]. *)
Lemma postStream_readds_without_video (now accessed created : Z) (url : string) (s : Server)
    (data : Data) (t : Torrent) :
  JS.truthy url = true ->
  Map.get url (activeTorrents s) = Some data ->
  deref s (torrent data) = Some t ->
  destroyed t = false ->
  findVideo t = None ->
  addCount url (fst (postStream infoHashOf now accessed created (Some url) s)) = S (addCount url s).
Proof.
  intros Htruthy Hget Hderef Hlive Hvideo. unfold postStream.
  rewrite Htruthy, Hget, Hderef, Hlive, Hvideo. cbn [negb].
  now rewrite addTorrent_addCount.
Qed.

End Reuse.

(** C2 on the code.  The locator A is requested twice before the engine
    has delivered its metadata.  After the first request a live session
    for A is registered and [client.add] was called once; the second
    request calls [client.add] again: two calls and two live torrent
    objects for one locator, the registry record now pointing at the
    second. *)
Theorem second_request_adds_again :
  let s1 := run Scenario.btih [(0, PostStream (Some Scenario.magnetA) 0 0)] initial in
  let s2 := run Scenario.btih [(0, PostStream (Some Scenario.magnetA) 0 0);
                               (1, PostStream (Some Scenario.magnetA) 1 1)] initial in
  map fst (liveSessions s1) = [Scenario.magnetA]
  /\ addCount Scenario.magnetA s1 = 1%nat
  /\ addCount Scenario.magnetA s2 = 2%nat
  /\ map destroyed (heap s2) = [false; false]
  /\ map (fun e : Entry => (fst e, torrent (snd e))) (activeTorrents s2)
     = [(Scenario.magnetA, 1%nat)].
Proof. repeat split; vm_compute; reflexivity. Qed.

(* ================================================================== *)
(** ** Which operations refresh lastAccessed *)
(* ================================================================== *)

(** What the loop of the info and download handlers does: the first
    entry, in map order, whose torrent carries the fingerprint is
    refreshed, and nothing else changes. *)
Lemma touchByInfoHash_first (hp : list Torrent) (torrentId : string) (now : Z)
    (l1 l2 : list Entry) (k : string) (d : Data) (t : Torrent) :
  (forall e t', In e l1 -> nth_error hp (torrent (snd e)) = Some t' ->
                infoHash t' <> torrentId) ->
  nth_error hp (torrent d) = Some t ->
  infoHash t = torrentId ->
  touchByInfoHash hp torrentId now (l1 ++ (k, d) :: l2)
  = l1 ++ (k, mkData (torrent d) now (createdAt d)) :: l2.
Proof.
  intros Hbefore Ht Hid. induction l1 as [|[k' d'] l1 IH]; simpl.
  - rewrite Ht. apply String.eqb_eq in Hid. now rewrite Hid.
  - rewrite IH by (intros e t' He; apply Hbefore; now right).
    destruct (nth_error hp (torrent d')) as [t'|] eqn:E; [|reflexivity].
    assert (Hne : infoHash t' <> torrentId) by (apply (Hbefore (k', d')); [now left | exact E]).
    apply String.eqb_neq in Hne. now rewrite Hne.
Qed.

Lemma getInfo_refreshes (now : Z) (torrentId : string) (s : Server) (h : nat)
    (t : Torrent) :
  findTorrent s torrentId = Some (h, t) ->
  fst (getInfo now torrentId s) = touched torrentId now s.
Proof. intros H. unfold getInfo. now rewrite H. Qed.

Lemma getDownload_refreshes (now : Z) (torrentId : string)
    (range : option string) (s : Server) (h : nat) (t : Torrent) :
  findTorrent s torrentId = Some (h, t) ->
  fst (getDownload now torrentId range s) = touched torrentId now s.
Proof.
  intros H. unfold getDownload. rewrite H.
  destruct (findVideo t) as [f|]; [|reflexivity].
  destruct (destroyed t); [reflexivity|].
  destruct range as [r|]; [|reflexivity].
  destruct (JS.truthy r); [|reflexivity].
  destruct (rangeStart r); [|reflexivity].
  destruct (rangeEnd r f); [|reflexivity].
  now destruct (_ >? _).
Qed.

(** C3 on the code.  A stream open never changes the server state, so it
    refreshes nothing: a session last accessed at 0 and streamed from at
    100 (status 200) is still last accessed at 0, while a status poll or a
    download open at 100 moves lastAccessed to 100. *)
Theorem stream_open_keeps_lastAccessed :
  (forall (infoHashOf : string -> string) (now : Z) (torrentId : string)
          (range : option string) (s : Server),
      fst (step infoHashOf now (GetStream torrentId range) s) = s)
  /\ Scenario.view Scenario.readySession = [(Scenario.magnetA, 0, 0)]
  /\ status (getStream "aaaa" None Scenario.readySession) = 200
  /\ Scenario.view (fst (step Scenario.btih 100 (GetStream "aaaa" None)
                           Scenario.readySession))
     = [(Scenario.magnetA, 0, 0)]
  /\ Scenario.view (fst (step Scenario.btih 100 (GetInfo "aaaa")
                           Scenario.readySession))
     = [(Scenario.magnetA, 100, 0)]
  /\ Scenario.view (fst (step Scenario.btih 100 (GetDownload "aaaa" None)
                           Scenario.readySession))
     = [(Scenario.magnetA, 100, 0)].
Proof.
  split; [reflexivity|]. repeat split; vm_compute; reflexivity.
Qed.

(** What the missing refresh costs: a session that is streamed from half
    an hour after its start is swept by the next cleanup tick; had it been
    polled instead, it would stay. *)
Example streamed_session_is_swept :
  Scenario.view
    (run Scenario.btih [(1800000, GetStream "aaaa" None); (1800002, CleanupTick)]
         Scenario.readySession)
  = []
  /\ Scenario.view
       (run Scenario.btih [(1800000, GetInfo "aaaa"); (1800002, CleanupTick)]
            Scenario.readySession)
     = [(Scenario.magnetA, 1800000, 0)].
Proof. split; vm_compute; reflexivity. Qed.

(* ================================================================== *)
(** ** Range serving *)
(* ================================================================== *)

Example stream_whole_file :
  status (getStream "aaaa" None Scenario.readySession) = 200
  /\ getHeader "Content-Length" (getStream "aaaa" None Scenario.readySession)
     = Some "1000"
  /\ getHeader "Accept-Ranges" (getStream "aaaa" None Scenario.readySession)
     = Some "bytes"
  /\ getHeader "Content-Type" (getStream "aaaa" None Scenario.readySession)
     = Some "video/mp4"
  /\ body (getStream "aaaa" None Scenario.readySession)
     = Pipe Scenario.film (Some (0, 999)).
Proof. repeat split; reflexivity. Qed.

Example stream_unknown_session :
  status (getStream "ffff" None Scenario.readySession) = 404.
Proof. reflexivity. Qed.

Example stream_single_byte :
  body (getStream "aaaa" (Some "bytes=0-0") Scenario.readySession)
  = Pipe Scenario.film (Some (0, 0)).
Proof. reflexivity. Qed.

(** C4.  For a session that the stream handler finds, with a selected file
    of length 1000 and a live torrent: the range bytes=500- is answered
    with status 206, Content-Range bytes 500-999/1000 and Content-Length
    500, the body being the bytes 500 to 999 of the file; the range
    bytes=1200-1300 is answered with status 416. *)
Theorem range_math (s : Server) (torrentId : string) (h : nat) (t : Torrent)
    (videoFile : File) :
  findTorrent s torrentId = Some (h, t) ->
  findVideo t = Some videoFile ->
  destroyed t = false ->
  fileLength videoFile = 1000 ->
  let partial := getStream torrentId (Some "bytes=500-") s in
  let beyond := getStream torrentId (Some "bytes=1200-1300") s in
  status partial = 206
  /\ getHeader "Content-Range" partial = Some "bytes 500-999/1000"
  /\ getHeader "Content-Length" partial = Some "500"
  /\ body partial = Pipe videoFile (Some (500, 999))
  /\ status beyond = 416
  /\ body beyond = JsonError "Range Not Satisfiable".
Proof.
  intros Hfind Hvideo Hlive Hlen partial beyond. subst partial beyond.
  unfold getStream, createStream, rangeEnd, rangeStart.
  rewrite Hfind, Hvideo, Hlive. destruct videoFile as [nm len].
  simpl in Hlen. subst len.
  repeat split; vm_compute; reflexivity.
Qed.

(** C4 at the ready session of the scenarios. *)
Lemma range_math_witness :
  status (getStream "aaaa" (Some "bytes=500-") Scenario.readySession) = 206
  /\ getHeader "Content-Range" (getStream "aaaa" (Some "bytes=500-") Scenario.readySession)
     = Some "bytes 500-999/1000"
  /\ getHeader "Content-Length" (getStream "aaaa" (Some "bytes=500-") Scenario.readySession)
     = Some "500"
  /\ body (getStream "aaaa" (Some "bytes=500-") Scenario.readySession)
     = Pipe Scenario.film (Some (500, 999))
  /\ status (getStream "aaaa" (Some "bytes=1200-1300") Scenario.readySession) = 416
  /\ body (getStream "aaaa" (Some "bytes=1200-1300") Scenario.readySession)
     = JsonError "Range Not Satisfiable".
Proof.
  apply (range_math Scenario.readySession "aaaa" 0%nat
           (Scenario.withMetadata "aaaa") Scenario.film); reflexivity.
Defined.

Lemma createStream_clamps (videoFile : File) (start end_ : Z) :
  (if start <? 0 then 0 else start) = Z.max start 0
  /\ (if end_ >=? fileLength videoFile then fileLength videoFile - 1 else end_)
     = Z.min end_ (fileLength videoFile - 1).
Proof.
  split.
  - destruct (Z.ltb_spec start 0); lia.
  - destruct (Z.geb_spec end_ (fileLength videoFile)); lia.
Qed.

(** On a response that is neither sent nor already marked 416, the helper
    answers 416 exactly when the repaired start exceeds the clamped end. *)
Lemma createStream_416 (t : Torrent) (videoFile : File) (start end_ : Z)
    (res : Response) :
  headersSent res = false ->
  status res <> 416 ->
  status (createStream t videoFile start end_ res) = 416
  <-> Z.max start 0 > Z.min end_ (fileLength videoFile - 1).
Proof.
  intros Hsent Hstatus. unfold createStream.
  destruct (createStream_clamps videoFile start end_) as [-> ->].
  rewrite Hsent. simpl.
  destruct (Z.gtb_spec (Z.max start 0) (Z.min end_ (fileLength videoFile - 1)))
    as [Hgt|Hle].
  - simpl. split; [intros _; lia | reflexivity].
  - destruct (destroyed t); simpl; split; intros Hx; try lia; try discriminate;
      contradiction.
Qed.

(** C9.  For a session that both handlers find, with a selected file and a
    live torrent, and a Range header whose start or end does not parse as
    an integer: the stream handler answers 400 (Invalid range), the
    download handler answers 416 (Range Not Satisfiable). *)
Theorem malformed_range_disagreement (s : Server) (now : Z) (torrentId : string)
    (h : nat) (t : Torrent) (videoFile : File) (range : string) :
  findTorrent s torrentId = Some (h, t) ->
  findVideo t = Some videoFile ->
  destroyed t = false ->
  JS.truthy range = true ->
  JS.isNaN (rangeStart range) || JS.isNaN (rangeEnd range videoFile) = true ->
  let streamed := getStream torrentId (Some range) s in
  let downloaded := snd (getDownload now torrentId (Some range) s) in
  status streamed = 400
  /\ body streamed = JsonError "Invalid range"
  /\ status downloaded = 416
  /\ body downloaded = JsonError "Range Not Satisfiable".
Proof.
  intros Hfind Hvideo Hlive Htruthy Hnan streamed downloaded.
  subst streamed downloaded. unfold getStream, getDownload.
  rewrite Hfind, Hvideo, Hlive, Htruthy.
  destruct (rangeStart range) as [a|]; destruct (rangeEnd range videoFile) as [b|];
    simpl in Hnan; try discriminate; simpl; auto.
Qed.

(** C9 at the header bytes=abc-. *)
Lemma malformed_range_disagreement_witness :
  status (getStream "aaaa" (Some "bytes=abc-") Scenario.readySession) = 400
  /\ body (getStream "aaaa" (Some "bytes=abc-") Scenario.readySession)
     = JsonError "Invalid range"
  /\ status (snd (getDownload 7 "aaaa" (Some "bytes=abc-") Scenario.readySession)) = 416
  /\ body (snd (getDownload 7 "aaaa" (Some "bytes=abc-") Scenario.readySession))
     = JsonError "Range Not Satisfiable".
Proof.
  apply (malformed_range_disagreement Scenario.readySession 7 "aaaa" 0%nat
           (Scenario.withMetadata "aaaa") Scenario.film "bytes=abc-"); reflexivity.
Defined.

(** Through the HTTP handler a negative start cannot arise: the header is
    split at every minus sign, so its first part holds none. *)

Lemma split_head_no_sep (sep : ascii) (s : string) :
  hasChar sep (hd EmptyString (JS.split sep s)) = false.
Proof.
  induction s as [|a s IH]; simpl; [reflexivity|].
  destruct (Ascii.eqb a sep) eqn:E; [reflexivity|].
  destruct (JS.split sep s) as [|x xs]; simpl in *; rewrite E; [reflexivity | exact IH].
Qed.

Lemma trimStart_hasChar (c : ascii) (s : string) :
  hasChar c s = false -> hasChar c (JS.trimStart s) = false.
Proof.
  induction s as [|a s IH]; simpl; [reflexivity|]. intros H.
  apply orb_false_iff in H. destruct H as [Ha Hs].
  destruct (JS.isWhite a); [now apply IH | simpl; now rewrite Ha, Hs].
Qed.

Lemma digitVal_nonneg (c : ascii) (d : Z) : JS.digitVal c = Some d -> 0 <= d.
Proof.
  unfold JS.digitVal.
  destruct ((48 <=? nat_of_ascii c)%nat && (nat_of_ascii c <=? 57)%nat) eqn:E;
    [|discriminate].
  intros H. inversion H. apply andb_true_iff in E. destruct E as [E _].
  apply Nat.leb_le in E. lia.
Qed.

Lemma digits_nonneg (s : string) (acc : Z) (seen : bool) (n : Z) :
  0 <= acc -> JS.digits s acc seen = Some n -> 0 <= n.
Proof.
  revert acc seen. induction s as [|c s IH]; simpl; intros acc seen Hacc H.
  - destruct seen; inversion H; lia.
  - destruct (JS.digitVal c) as [d|] eqn:E.
    + apply (IH (10 * acc + d) true); [|exact H].
      apply digitVal_nonneg in E. lia.
    + destruct seen; inversion H; lia.
Qed.

Lemma parseInt_nonneg (s : string) (n : Z) :
  hasChar "-" s = false -> JS.parseInt s = Some n -> 0 <= n.
Proof.
  intros Hs. apply (trimStart_hasChar "-") in Hs. unfold JS.parseInt.
  destruct (JS.trimStart s) as [|c s']; [discriminate|].
  simpl in Hs. apply orb_false_iff in Hs. destruct Hs as [Hc _]. rewrite Hc.
  destruct (Ascii.eqb c "+"); apply digits_nonneg; lia.
Qed.

Lemma rangeStart_nonneg (range : string) (n : Z) :
  rangeStart range = Some n -> 0 <= n.
Proof.
  unfold rangeStart, rangeParts. intros H.
  pose proof (split_head_no_sep "-" (JS.replaceFirst "bytes=" "" range)) as Hhd.
  destruct (JS.split "-" (JS.replaceFirst "bytes=" "" range)) as [|p0 [|p1 ps]];
    simpl in *; try discriminate; now apply (parseInt_nonneg _ _ Hhd).
Qed.

(** At the handler: with a header whose two numbers parse, the answer is
    416 exactly when the start exceeds the clamped end. *)
Lemma getStream_unsatisfiable_iff (s : Server) (torrentId : string) (h : nat)
    (t : Torrent) (videoFile : File) (range : string) (start end_ : Z) :
  findTorrent s torrentId = Some (h, t) ->
  findVideo t = Some videoFile ->
  destroyed t = false ->
  JS.truthy range = true ->
  rangeStart range = Some start ->
  rangeEnd range videoFile = Some end_ ->
  0 <= start
  /\ (status (getStream torrentId (Some range) s) = 416
      <-> start > Z.min end_ (fileLength videoFile - 1)).
Proof.
  intros Hfind Hvideo Hlive Htruthy Hstart Hend.
  pose proof (rangeStart_nonneg _ _ Hstart) as Hnn. split; [exact Hnn|].
  unfold getStream. rewrite Hfind, Hvideo, Hlive, Htruthy, Hstart, Hend.
  rewrite createStream_416; [|reflexivity | simpl; lia].
  rewrite Z.max_l by lia. reflexivity.
Qed.

(** C5.  For every stream open whose Range header holds two numbers that
    parse, against a selected file of length L (a length in the safe
    range) on a session that the handler finds: the answer is 416 (Range
    Not Satisfiable) exactly when, after clamping end to L - 1,
    start > end, or start < 0, or start >= L; every other range is
    answered 206 with the bytes from start to the clamped end.  No header
    makes the handler request a negative start: the text before the first
    minus sign holds no minus sign, so start >= 0, and a header that begins
    with a minus sign has no start at all (it is answered 400, see
    [createStream_negative_start]). *)
Theorem range_not_satisfiable_iff (s : Server) (torrentId : string) (h : nat)
    (t : Torrent) (videoFile : File) (range : string) (start end_ : Z) :
  findTorrent s torrentId = Some (h, t) ->
  findVideo t = Some videoFile ->
  destroyed t = false ->
  fileLength videoFile <= JS.MAX_SAFE_INTEGER ->
  JS.truthy range = true ->
  rangeStart range = Some start ->
  rangeEnd range videoFile = Some end_ ->
  let res := getStream torrentId (Some range) s in
  (status res = 416
   <-> Spec.rangeNotSatisfiable start end_ (fileLength videoFile) = true)
  /\ (status res = 416 -> body res = JsonError "Range Not Satisfiable")
  /\ (Spec.rangeNotSatisfiable start end_ (fileLength videoFile) = false ->
      status res = 206
      /\ body res = Pipe videoFile (Some (start, Z.min end_ (fileLength videoFile - 1))))
  /\ 0 <= start.
Proof.
  intros Hfind Hvideo Hlive _ Htruthy Hstart Hend res. subst res.
  destruct (getStream_unsatisfiable_iff s torrentId h t videoFile range start end_
              Hfind Hvideo Hlive Htruthy Hstart Hend) as [Hnn Hiff].
  assert (Hspec : Spec.rangeNotSatisfiable start end_ (fileLength videoFile) = true
                  <-> start > Z.min end_ (fileLength videoFile - 1)).
  { unfold Spec.rangeNotSatisfiable.
    destruct (Z.gtb_spec start (Z.min end_ (fileLength videoFile - 1)));
      destruct (Z.ltb_spec start 0);
      destruct (Z.geb_spec start (fileLength videoFile)); simpl;
      split; intros Hx; try reflexivity; try discriminate; lia. }
  assert (Hres : getStream torrentId (Some range) s
                 = createStream t videoFile start end_
                     (setHeader "Connection" "keep-alive"
                       (setHeader "Content-Length" (JS.show (end_ - start + 1))
                       (setHeader "Content-Range" (contentRange start end_ videoFile)
                       (resStatus 206
                       (setHeader "Connection" "keep-alive"
                       (setHeader "Expires" "0"
                       (setHeader "Pragma" "no-cache"
                       (setHeader "Cache-Control" "no-cache, no-store, must-revalidate"
                       (setHeader "Content-Length" (JS.show (fileLength videoFile))
                       (setHeader "Accept-Ranges" "bytes"
                       (setHeader "Content-Type" (contentType videoFile)
                          freshResponse)))))))))))).
  { unfold getStream. now rewrite Hfind, Hvideo, Hlive, Htruthy, Hstart, Hend. }
  split; [now rewrite Hiff, Hspec|]. split; [|split; [|exact Hnn]].
  - intros H416. apply Hiff in H416. rewrite Hres. unfold createStream.
    destruct (createStream_clamps videoFile start end_) as [-> ->].
    rewrite Z.max_l by lia.
    destruct (Z.gtb_spec start (Z.min end_ (fileLength videoFile - 1))); [|lia].
    reflexivity.
  - intros Hok.
    assert (Hle : start <= Z.min end_ (fileLength videoFile - 1)).
    { destruct (Z.le_gt_cases start (Z.min end_ (fileLength videoFile - 1)))
        as [Hle|Hgt]; [exact Hle|].
      assert (Hx : Spec.rangeNotSatisfiable start end_ (fileLength videoFile) = true)
        by (apply Hspec; lia).
      congruence. }
    rewrite Hres. unfold createStream.
    destruct (createStream_clamps videoFile start end_) as [-> ->].
    rewrite Z.max_l by lia. rewrite Hlive.
    destruct (Z.gtb_spec start (Z.min end_ (fileLength videoFile - 1))); [lia|].
    split; reflexivity.
Qed.

(** C5 at the range 1200-1300 of the film of 1000 bytes. *)
Lemma range_not_satisfiable_iff_witness :
  (status (getStream "aaaa" (Some "bytes=1200-1300") Scenario.readySession) = 416
   <-> Spec.rangeNotSatisfiable 1200 1300 (fileLength Scenario.film) = true)
  /\ (status (getStream "aaaa" (Some "bytes=1200-1300") Scenario.readySession) = 416 ->
      body (getStream "aaaa" (Some "bytes=1200-1300") Scenario.readySession)
      = JsonError "Range Not Satisfiable")
  /\ (Spec.rangeNotSatisfiable 1200 1300 (fileLength Scenario.film) = false ->
      status (getStream "aaaa" (Some "bytes=1200-1300") Scenario.readySession) = 206
      /\ body (getStream "aaaa" (Some "bytes=1200-1300") Scenario.readySession)
         = Pipe Scenario.film
             (Some (1200, Z.min 1300 (fileLength Scenario.film - 1))))
  /\ 0 <= 1200.
Proof.
  apply (range_not_satisfiable_iff Scenario.readySession "aaaa" 0%nat
           (Scenario.withMetadata "aaaa") Scenario.film "bytes=1200-1300" 1200 1300);
    first [reflexivity | vm_compute; discriminate].
Defined.

(** The repair of a negative start inside [createStream] is never
    exercised by a request; on its own the helper would serve the range
    from -5 to 10 as the bytes 0 to 10. *)
Example createStream_negative_start :
  createStream (Scenario.withMetadata "aaaa") Scenario.film (-5) 10
    (resStatus 206 freshResponse)
  = mkResponse 206 [] true (Pipe Scenario.film (Some (0, 10)))
  /\ status (getStream "aaaa" (Some "bytes=-5-10") Scenario.readySession) = 400.
Proof. split; reflexivity. Qed.

(* ================================================================== *)
(** ** The download filename *)
(* ================================================================== *)

Lemma safeChar_plain (c : ascii) :
  safeChar c = true ->
  (32 < nat_of_ascii c < 127)%nat /\ nat_of_ascii c <> 34%nat.
Proof.
  unfold safeChar. generalize (nat_of_ascii c). intros n H.
  repeat (apply orb_true_iff in H; destruct H as [H|H]);
    try (apply andb_true_iff in H; destruct H as [H1 H2];
         apply Nat.leb_le in H1; apply Nat.leb_le in H2; lia);
    apply Nat.eqb_eq in H; lia.
Qed.

Lemma sanitize_get (name : string) (i : nat) (c : ascii) :
  String.get i name = Some c ->
  String.get i (sanitize name) = Some (if safeChar c then c else "_"%char).
Proof.
  revert i. induction name as [|a name IH]; intros [|i]; simpl; try discriminate.
  - intros H. now inversion H.
  - apply IH.
Qed.

Lemma sanitize_get_inv (name : string) (i : nat) (c : ascii) :
  String.get i (sanitize name) = Some c ->
  exists a, String.get i name = Some a /\ c = (if safeChar a then a else "_"%char).
Proof.
  revert i. induction name as [|a name IH]; intros [|i]; simpl; try discriminate.
  - intros H. inversion H. now exists a.
  - apply IH.
Qed.

Lemma sanitize_length (name : string) :
  String.length (sanitize name) = String.length name.
Proof. induction name as [|a name IH]; simpl; [reflexivity | now rewrite IH]. Qed.

(** C10.  For a session that the download handler finds, with a selected
    file and a live torrent, whatever the Range header: the
    Content-Disposition header is attachment; filename= followed by the
    sanitized name between two quotes.  The sanitized name has the length
    of the file name; at each position it holds the original character
    when that is a letter, a digit, a dot or a hyphen, and an underscore
    otherwise; so none of its characters is a quote, a space or a control
    character. *)
Theorem download_filename_sanitized (s : Server) (now : Z) (torrentId : string)
    (h : nat) (t : Torrent) (videoFile : File) (range : option string) :
  findTorrent s torrentId = Some (h, t) ->
  findVideo t = Some videoFile ->
  destroyed t = false ->
  let sanitized := sanitize (fileName videoFile) in
  getHeader "Content-Disposition" (snd (getDownload now torrentId range s))
  = Some ("attachment; filename=" ++ quote ++ sanitized ++ quote)%string
  /\ String.length sanitized = String.length (fileName videoFile)
  /\ (forall i c, String.get i (fileName videoFile) = Some c ->
        String.get i sanitized = Some (if safeChar c then c else "_"%char))
  /\ (forall i c, String.get i sanitized = Some c ->
        (safeChar c = true \/ c = "_"%char)
        /\ (32 < nat_of_ascii c < 127)%nat
        /\ nat_of_ascii c <> 34%nat).
Proof.
  intros Hfind Hvideo Hlive fileName0. subst fileName0.
  split; [|split; [apply sanitize_length | split; [intros i c; apply sanitize_get|]]].
  - unfold getDownload. rewrite Hfind, Hvideo, Hlive.
    destruct range as [r|]; [|reflexivity].
    destruct (JS.truthy r); [|reflexivity].
    destruct (rangeStart r) as [a|]; [|reflexivity].
    destruct (rangeEnd r videoFile) as [b|]; [|reflexivity].
    destruct (a >? b); reflexivity.
  - intros i c H. apply sanitize_get_inv in H. destruct H as (a & _ & ->).
    destruct (safeChar a) eqn:E.
    + split; [now left|]. now apply safeChar_plain.
    + split; [now right|]. change (nat_of_ascii "_") with 95%nat. lia.
Qed.

(** C10 at the film of the scenarios, whose name holds spaces and brackets. *)
Lemma download_filename_sanitized_witness :
  getHeader "Content-Disposition"
    (snd (getDownload 7 "aaaa" None Scenario.readySession))
  = Some ("attachment; filename=" ++ quote ++ "My_Film__2020_.mp4" ++ quote)%string.
Proof.
  apply (download_filename_sanitized Scenario.readySession 7 "aaaa" 0%nat
           (Scenario.withMetadata "aaaa") Scenario.film None); reflexivity.
Defined.

(* ================================================================== *)
(** ** The piece-priority policy *)
(* ================================================================== *)

Lemma forLoop_In (body : Z -> bool) (fuel : nat) (from bound i : Z) :
  (Z.to_nat (bound - from) <= fuel)%nat ->
  In i (Priority.forLoop fuel from bound body)
  <-> from <= i < bound /\ body i = true.
Proof.
  revert from. induction fuel as [|fuel IH]; intros from Hfuel; simpl.
  - split; [tauto | intros [H _]; lia].
  - destruct (Z.ltb_spec from bound) as [Hlt|Hge].
    + rewrite in_app_iff, IH by lia.
      destruct (body from) eqn:E; simpl.
      * split.
        -- intros [[<-|[]]|[H1 H2]]; [split; [lia | exact E] | split; [lia | exact H2]].
        -- intros [H1 H2]. destruct (Z.eq_dec from i) as [->|Hne];
             [left; now left | right; split; [lia | exact H2]].
      * split.
        -- intros [[]|[H1 H2]]. split; [lia | exact H2].
        -- intros [H1 H2]. right. split; [|exact H2].
           destruct (Z.eq_dec from i) as [->|Hne]; [congruence | lia].
    + simpl. split; [tauto | intros [H _]; lia].
Qed.

Lemma loop_In (body : Z -> bool) (from bound i : Z) :
  In i (Priority.loop from bound body) <-> from <= i < bound /\ body i = true.
Proof. unfold Priority.loop. apply forLoop_In. lia. Qed.

(** C7, as the code has it.  For a torrent with a selected file: a
    progress tick at a ratio not above 0.01 raises no priority; a tick at
    a ratio above 0.01 calls priority(1) on exactly the pieces i with
    currentPiece <= i < currentPiece + 20 and i below the piece count that
    the engine resolves to a piece object with a priority function and
    that are not done yet, where currentPiece is floor(progress *
    pieces.length); and the callback that the engine runs when the new
    torrent is ready calls priority(1) on exactly the resolvable pieces i
    with 0 <= i < 100 and i below the piece count. *)
Theorem priority_windows (t : Torrent) (videoFile : File) :
  findVideo t = Some videoFile ->
  let n := Z.of_nat (List.length (pieces t)) in
  (PrimFloat.ltb Priority.threshold (progress t) = false ->
   Priority.onDownload t = [])
  /\ (forall cur i,
        PrimFloat.ltb Priority.threshold (progress t) = true ->
        Priority.currentPiece t = Some cur ->
        (In i (Priority.onDownload t)
         <-> cur <= i < cur + Priority.bufferAhead /\ i < n
             /\ exists p, Priority.pieceAt t i = Some p
                          /\ done p = false /\ hasPriority p = true))
  /\ (forall i,
        In i (Priority.onTorrent t)
        <-> 0 <= i < Priority.INITIAL_WINDOW /\ i < n
            /\ exists p, Priority.pieceAt t i = Some p /\ hasPriority p = true).
Proof.
  intros Hvideo n.
  assert (Hfiles : (0 <? List.length (files t))%nat = true).
  { unfold findVideo in Hvideo. destruct (files t); [discriminate | reflexivity]. }
  split; [|split].
  - intros Hlow. unfold Priority.onDownload. rewrite Hlow, andb_false_r. reflexivity.
  - intros cur i Hhigh Hcur. unfold Priority.onDownload.
    rewrite Hfiles, Hhigh, Hvideo, Hcur. simpl. rewrite loop_In. fold n.
    split.
    + intros [Hrange Hbody]. destruct (Priority.pieceAt t i) as [p|]; [|discriminate].
      apply andb_true_iff in Hbody. destruct Hbody as [Hdone Hprio].
      apply negb_true_iff in Hdone.
      repeat split; try lia. exists p. auto.
    + intros (Hrange & Hn & p & Hp & Hdone & Hprio). split; [lia|].
      rewrite Hp, Hdone, Hprio. reflexivity.
  - intros i. unfold Priority.onTorrent. rewrite Hfiles, Hvideo. rewrite loop_In. fold n.
    split.
    + intros [Hrange Hbody]. destruct (Priority.pieceAt t i) as [p|]; [|discriminate].
      repeat split; try lia. exists p. auto.
    + intros (Hrange & Hn & p & Hp & Hprio). split; [lia|].
      now rewrite Hp.
Qed.


(** C7 at a torrent halfway through 1000 pieces: piece 519 is in the
    window, piece 520 is not. *)
Lemma priority_windows_witness :
  (In 519 (Priority.onDownload PriorityScenario.halfway)
   <-> 500 <= 519 < 500 + Priority.bufferAhead
       /\ 519 < Z.of_nat (List.length (pieces PriorityScenario.halfway))
       /\ exists p, Priority.pieceAt PriorityScenario.halfway 519 = Some p
                    /\ done p = false /\ hasPriority p = true)
  /\ Priority.onDownload PriorityScenario.halfway
     = map (fun k => 500 + Z.of_nat k) (seq 0 20).
Proof.
  split; [|vm_compute; reflexivity].
  apply (proj1 (proj2 (priority_windows PriorityScenario.halfway Scenario.film eq_refl))
           500 519); vm_compute; reflexivity.
Defined.

(** C7 as stated fails on an early tick.  At the ratio 1/128 of 1280
    pieces the current piece is 10 and the stated window, pieces 10 to 29,
    is fully resolvable and not done; the code raises no priority at all. *)
Lemma early_tick_counterexample :
  findVideo PriorityScenario.early = Some Scenario.film
  /\ Priority.currentPiece PriorityScenario.early = Some 10
  /\ Spec.tickWindow 10 (Z.of_nat (List.length (pieces PriorityScenario.early)))
     = map (fun k => 10 + Z.of_nat k) (seq 0 20)
  /\ forallb (fun i => match Priority.pieceAt PriorityScenario.early i with
                       | Some p => negb (done p) && hasPriority p
                       | None => false
                       end)
             (Spec.tickWindow 10 (Z.of_nat (List.length (pieces PriorityScenario.early))))
     = true
  /\ Priority.onDownload PriorityScenario.early = [].
Proof. repeat split; vm_compute; reflexivity. Qed.

(* ================================================================== *)
(** ** Search *)
(* ================================================================== *)


Lemma insertBySeeders_In (x z : SearchApi.Formatted) (l : list SearchApi.Formatted) :
  In z (SearchApi.insertBySeeders x l) <-> z = x \/ In z l.
Proof.
  induction l as [|y l IH]; simpl.
  - split; intros [H|H]; auto.
  - destruct (SearchApi.seedKey y <=? SearchApi.seedKey x); simpl.
    + split; intros [H|H]; auto.
    + rewrite IH. split; intros H; intuition auto.
Qed.

Lemma insertBySeeders_sorted (x : SearchApi.Formatted) (l : list SearchApi.Formatted) :
  StronglySorted bySeedersDesc l ->
  StronglySorted bySeedersDesc (SearchApi.insertBySeeders x l).
Proof.
  induction l as [|y l IH]; simpl; intros Hs.
  - constructor; constructor.
  - inversion Hs as [|? ? Hl Hy]; subst.
    destruct (Z.leb_spec (SearchApi.seedKey y) (SearchApi.seedKey x)) as [Hle|Hgt].
    + constructor; [exact Hs|]. constructor; [unfold bySeedersDesc; lia|].
      eapply Forall_impl; [|exact Hy]. unfold bySeedersDesc. intros a Ha. lia.
    + constructor; [now apply IH|].
      apply Forall_forall. intros z Hz. apply insertBySeeders_In in Hz.
      destruct Hz as [->|Hz]; [unfold bySeedersDesc; lia|].
      rewrite Forall_forall in Hy. now apply Hy.
Qed.

Lemma sortBySeeders_sorted (l : list SearchApi.Formatted) :
  StronglySorted bySeedersDesc (SearchApi.sortBySeeders l).
Proof.
  induction l as [|x l IH]; simpl; [constructor | now apply insertBySeeders_sorted].
Qed.

Lemma insertBySeeders_perm (x : SearchApi.Formatted) (l : list SearchApi.Formatted) :
  Permutation (SearchApi.insertBySeeders x l) (x :: l).
Proof.
  induction l as [|y l IH]; simpl; [apply Permutation_refl|].
  destruct (SearchApi.seedKey y <=? SearchApi.seedKey x).
  - apply Permutation_refl.
  - eapply perm_trans; [apply perm_skip, IH | apply perm_swap].
Qed.

Lemma sortBySeeders_perm (l : list SearchApi.Formatted) :
  Permutation (SearchApi.sortBySeeders l) l.
Proof.
  induction l as [|x l IH]; simpl; [constructor|].
  eapply perm_trans; [apply insertBySeeders_perm | now apply perm_skip].
Qed.

Lemma slice_nil {A : Type} (b e : Z) : JS.slice b e (@nil A) = [].
Proof. unfold JS.slice. now rewrite skipn_nil, firstn_nil. Qed.

Lemma len_zero (s : string) : (JS.len s =? 0)%nat = true <-> s = EmptyString.
Proof.
  destruct s; simpl; split; intros H; try reflexivity; discriminate.
Qed.

(** Which conversions throw. *)
Lemma toString_cases (v : SearchApi.Value) :
  match SearchApi.toString v with
  | SearchApi.Thrown => unprintable v = true
  | SearchApi.Ok _ => unprintable v = false
  end.
Proof. destruct v as [| |[|]| | |[str|]]; reflexivity. Qed.

Lemma parseIntOf_cases (v : SearchApi.Value) :
  match SearchApi.parseIntOf v with
  | SearchApi.Thrown => unprintable v = true
  | SearchApi.Ok _ => unprintable v = false
  end.
Proof. destruct v as [| |[|]| | |[str|]]; reflexivity. Qed.

Lemma parseCount_cases (v : SearchApi.Value) :
  match SearchApi.parseCount v with
  | SearchApi.Thrown => unprintable v = true
  | SearchApi.Ok _ => unprintable v = false
  end.
Proof.
  destruct v as [| |[|]|n|str|[str|]]; try reflexivity.
  - unfold SearchApi.parseCount. simpl. now destruct (n =? 0).
  - unfold SearchApi.parseCount. simpl. now destruct (JS.truthy str).
Qed.

Lemma uploaded_cases (v : SearchApi.Value) :
  match (if SearchApi.truthy v then SearchApi.parseIntOf v else SearchApi.Ok None) with
  | SearchApi.Thrown => unprintable v = true
  | SearchApi.Ok _ => unprintable v = false
  end.
Proof.
  destruct v as [| |[|]|n|str|[str|]]; try reflexivity.
  - simpl. now destruct (n =? 0).
  - simpl. now destruct (JS.truthy str).
Qed.

(** A formatted result copies three fields and parses the two counts; the
    callbacks throw exactly on the malformed hits. *)
Lemma format_cases (r : SearchApi.RawResult) :
  match SearchApi.format r with
  | SearchApi.Thrown => malformed r = true
  | SearchApi.Ok f =>
      f = SearchApi.mkFormatted (SearchApi.id r) (SearchApi.name r) (SearchApi.info_hash r)
            (SearchApi.fSeeders f) (SearchApi.fLeechers f)
      /\ SearchApi.parseCount (SearchApi.seeders r) = SearchApi.Ok (SearchApi.fSeeders f)
      /\ SearchApi.parseCount (SearchApi.leechers r) = SearchApi.Ok (SearchApi.fLeechers f)
      /\ match SearchApi.looksLikeVideo f with
         | SearchApi.Thrown => malformed r = true
         | SearchApi.Ok _ => malformed r = false
         end
  end.
Proof.
  unfold SearchApi.format, malformed.
  pose proof (parseCount_cases (SearchApi.size r)) as H1.
  pose proof (parseCount_cases (SearchApi.seeders r)) as H2.
  pose proof (parseCount_cases (SearchApi.leechers r)) as H3.
  pose proof (toString_cases (SearchApi.info_hash r)) as H4.
  pose proof (toString_cases (SearchApi.name r)) as H5.
  pose proof (toString_cases (SearchApi.category r)) as H6.
  pose proof (uploaded_cases (SearchApi.added r)) as H7.
  destruct (SearchApi.parseCount (SearchApi.size r)) as [x1|]; simpl;
    [|rewrite H1; now rewrite !orb_true_r].
  destruct (SearchApi.parseCount (SearchApi.seeders r)) as [x2|]; simpl;
    [|rewrite H2; now rewrite !orb_true_r].
  destruct (SearchApi.parseCount (SearchApi.leechers r)) as [x3|]; simpl;
    [|rewrite H3; now rewrite !orb_true_r].
  destruct (SearchApi.toString (SearchApi.info_hash r)) as [x4|]; simpl;
    [|rewrite H4; now rewrite !orb_true_r].
  destruct (SearchApi.toString (SearchApi.name r)) as [x5|]; simpl;
    [|destruct (SearchApi.name r) as [| |[|]| | |[str|]]; try discriminate; reflexivity].
  destruct (SearchApi.toString (SearchApi.category r)) as [x6|]; simpl;
    [|rewrite H6; now rewrite !orb_true_r].
  destruct (if SearchApi.truthy (SearchApi.added r)
            then SearchApi.parseIntOf (SearchApi.added r)
            else SearchApi.Ok None) as [x7|]; simpl;
    [|rewrite H7; now rewrite !orb_true_r].
  rewrite H1, H2, H3, H4, H6, H7, !orb_false_r.
  split; [reflexivity|]. split; [reflexivity|]. split; [reflexivity|].
  unfold SearchApi.looksLikeVideo. simpl.
  destruct (SearchApi.name r); reflexivity.
Qed.

(** The chain from [map] to the second [filter] on a list of hits: it
    throws exactly when a hit is malformed, and otherwise yields what the
    hits show, in order. *)
Lemma pipeline_cases (hits : list SearchApi.RawResult) :
  match SearchApi.mapR SearchApi.format hits with
  | SearchApi.Thrown => exists r, In r hits /\ malformed r = true
  | SearchApi.Ok formatted =>
      match SearchApi.filterR SearchApi.looksLikeVideo formatted with
      | SearchApi.Thrown => exists r, In r hits /\ malformed r = true
      | SearchApi.Ok videos =>
          (forall r, In r hits -> malformed r = false)
          /\ videos = flat_map shown hits
      end
  end.
Proof.
  induction hits as [|r hits IH]; simpl.
  - split; [intros r []|reflexivity].
  - pose proof (format_cases r) as Hr. unfold shown.
    destruct (SearchApi.format r) as [f|]; simpl;
      [|exists r; split; [now left | exact Hr]].
    destruct Hr as (_ & _ & _ & Hvideo).
    destruct (SearchApi.mapR SearchApi.format hits) as [formatted|]; simpl;
      [|destruct IH as (x & Hx & Hm); exists x; split; [now right | exact Hm]].
    destruct (SearchApi.looksLikeVideo f) as [b|]; simpl;
      [|exists r; split; [now left | exact Hvideo]].
    destruct (SearchApi.filterR SearchApi.looksLikeVideo formatted) as [videos|]; simpl;
      [|destruct IH as (x & Hx & Hm); exists x; split; [now right | exact Hm]].
    destruct IH as [Hall ->]. split.
    + intros x [<-|Hx]; [exact Hvideo | now apply Hall].
    + now destruct b.
Qed.

(** The three outcomes of the handler. *)
Lemma search_cases (query : option string) (page limit : Z)
    (upstream : string -> SearchApi.Upstream) :
  let reply := SearchApi.search query page limit upstream in
  let hits := pageHits page limit upstream in
  (reply = SearchApi.Failure 400 "Search query is required"
   /\ (query = None \/ exists q, query = Some q /\ JS.trim q = EmptyString))
  \/ (reply = SearchApi.Failure 500 "Search failed"
      /\ (exists q, query = Some q /\ JS.trim q <> EmptyString)
      /\ exists r, In r hits /\ malformed r = true)
  \/ (reply = SearchApi.Success (Z.of_nat (List.length (flat_map shown hits)))
                (SearchApi.sortBySeeders (flat_map shown hits))
      /\ (exists q, query = Some q /\ JS.trim q <> EmptyString)
      /\ forall r, In r hits -> malformed r = false).
Proof.
  intros reply hits. subst reply. unfold SearchApi.search.
  destruct query as [q|]; [|left; split; [reflexivity | now left]].
  destruct (JS.truthy q) eqn:Et; simpl.
  - destruct ((JS.len (JS.trim q) =? 0)%nat) eqn:El; simpl.
    + apply len_zero in El. left. split; [reflexivity|]. right. now exists q.
    + assert (Hne : JS.trim q <> EmptyString).
      { intros H. apply len_zero in H. congruence. }
      right. pose proof (pipeline_cases hits) as Hp.
      unfold hits, pageHits, searchHits in Hp.
      destruct (SearchApi.mapR SearchApi.format _) as [formatted|]; simpl.
      * destruct (SearchApi.filterR SearchApi.looksLikeVideo formatted) as [videos|]; simpl.
        -- destruct Hp as [Hall ->]. right.
           split; [|split; [now exists q | exact Hall]].
           fold (searchHits upstream). fold (pageHits page limit upstream). fold hits.
           f_equal. f_equal.
           apply Permutation_length, sortBySeeders_perm.
        -- left. split; [reflexivity|]. split; [now exists q | exact Hp].
      * left. split; [reflexivity|]. split; [now exists q | exact Hp].
  - destruct q; [|discriminate]. left. split; [reflexivity|]. right.
    now exists EmptyString.
Qed.

(** C8, as the code has it.  The search answers 400 exactly when the query
    is missing or blank (empty after trimming).  Its status is always 400,
    500 or 200, never 502: a failed upstream request only contributes no
    results, and with every upstream request failing the answer is a
    success with an empty list.  The status 500 of the handler's [catch]
    is answered whenever the query is not blank and a hit on the requested
    page is malformed (its name is not a text, or a field cannot be
    converted to a text).  In a successful answer total is the length of
    the list, and the list is sorted by seeder count, largest first (a
    count that is not a number ranking as 0; counts within the safe
    range). *)
Theorem search_outcomes (query : option string) (page limit : Z)
    (upstream : string -> SearchApi.Upstream) :
  let reply := SearchApi.search query page limit upstream in
  (SearchApi.replyStatus reply = 400
   <-> query = None \/ exists q, query = Some q /\ JS.trim q = EmptyString)
  /\ (SearchApi.replyStatus reply = 400 \/ SearchApi.replyStatus reply = 500
      \/ SearchApi.replyStatus reply = 200)
  /\ ((exists q, query = Some q /\ JS.trim q <> EmptyString) ->
      (exists r, In r (pageHits page limit upstream) /\ malformed r = true) ->
      reply = SearchApi.Failure 500 "Search failed")
  /\ (forall total results,
        reply = SearchApi.Success total results ->
        total = Z.of_nat (List.length results)
        /\ ((forall r, In r (pageHits page limit upstream) ->
               safeCount (SearchApi.seeders r)) ->
            StronglySorted bySeedersDesc results))
  /\ ((forall cat, upstream cat = SearchApi.NetworkError \/ upstream cat = SearchApi.BadJson) ->
      SearchApi.replyStatus reply = 400 \/ reply = SearchApi.Success 0 []).
Proof.
  intros reply.
  assert (Hnone : (forall c, upstream c = SearchApi.NetworkError
                             \/ upstream c = SearchApi.BadJson) ->
                  pageHits page limit upstream = []).
  { intros Hfail. unfold pageHits, searchHits.
    assert (Hres : forall cat, SearchApi.resolved (upstream cat) = []).
    { intros cat. destruct (Hfail cat) as [-> | ->]; reflexivity. }
    unfold SearchApi.categories. simpl. rewrite !Hres. simpl. apply slice_nil. }
  destruct (search_cases query page limit upstream)
    as [[Hreply Hblank] | [(Hreply & Hq & Hbad) | (Hreply & Hq & Hgood)]];
    fold reply in Hreply; rewrite Hreply; simpl.
  - split; [tauto|]. split; [now left|]. split.
    + intros (q & -> & Hne) _.
      destruct Hblank as [H|(q' & H & Hq')]; [discriminate|].
      inversion H; subst. contradiction.
    + split; [discriminate | now left].
  - destruct Hq as (q & -> & Hne). split.
    + split; [discriminate|]. intros [H|(q' & H & Hq')]; [discriminate|].
      inversion H; subst. contradiction.
    + split; [right; now left|]. split; [reflexivity|]. split; [discriminate|].
      intros Hfail. rewrite (Hnone Hfail) in Hbad.
      destruct Hbad as (r & [] & _).
  - destruct Hq as (q & -> & Hne). split.
    + split; [discriminate|]. intros [H|(q' & H & Hq')]; [discriminate|].
      inversion H; subst. contradiction.
    + split; [right; now right|]. split.
      * intros _ (r & Hr & Hm). rewrite (Hgood r Hr) in Hm. discriminate.
      * split.
        -- intros total results H. inversion H; subst.
           split; [|intros _; apply sortBySeeders_sorted].
           f_equal. symmetry. apply Permutation_length, sortBySeeders_perm.
        -- intros Hfail. right. now rewrite (Hnone Hfail).
Qed.

Example search_ranking :
  SearchScenario.ranking
    (SearchApi.search (Some "film") 1 20 SearchScenario.upstream)
  = [(SearchApi.Text "Film.mkv", Some 100); (SearchApi.Text "talk", Some 16);
     (SearchApi.Text "Film.2020.1080p", Some 5); (SearchApi.Text "Film.HDTV", None)].
Proof. reflexivity. Qed.

Example search_blank :
  SearchApi.search (Some "   ") 1 20 SearchScenario.upstream
  = SearchApi.Failure 400 "Search query is required".
Proof. reflexivity. Qed.

(** One hit without a name on the requested page fails the whole search;
    on a page that does not reach it the search succeeds. *)
Example search_nameless :
  SearchApi.search (Some "film") 1 20 SearchScenario.withNameless
  = SearchApi.Failure 500 "Search failed"
  /\ SearchApi.replyStatus
       (SearchApi.search (Some "film") 1 5 SearchScenario.withNameless) = 200.
Proof. split; reflexivity. Qed.

(** C8 at the query film against an upstream that answers in one category
    only. *)
Lemma search_outcomes_witness :
  StronglySorted bySeedersDesc
    [SearchApi.mkFormatted (SearchApi.Text "1") (SearchApi.Text "Film.mkv")
       (SearchApi.Text "abcd") (Some 100) (Some 0);
     SearchApi.mkFormatted (SearchApi.Text "1") (SearchApi.Text "talk")
       (SearchApi.Text "abcd") (Some 16) (Some 0);
     SearchApi.mkFormatted (SearchApi.Text "1") (SearchApi.Text "Film.2020.1080p")
       (SearchApi.Text "abcd") (Some 5) (Some 0);
     SearchApi.mkFormatted (SearchApi.Text "1") (SearchApi.Text "Film.HDTV")
       (SearchApi.Text "abcd") None (Some 0)].
Proof.
  apply (proj2 (proj1 (proj2 (proj2 (proj2
           (search_outcomes (Some "film") 1 20 SearchScenario.upstream))))
           4 _ eq_refl)).
  intros r Hr. vm_compute in Hr.
  repeat (destruct Hr as [<-|Hr]; [vm_compute; try split; try discriminate; exact I|]).
  destruct Hr.
Defined.

(** C8 as stated fails when the upstream fails: with every upstream
    request ending in a network error the answer to the query matrix is a
    success with status 200 and an empty list, not 502. *)
Lemma upstream_failure_counterexample :
  SearchApi.search (Some "matrix") 1 20 (fun _ => SearchApi.NetworkError)
  = SearchApi.Success 0 []
  /\ SearchApi.replyStatus
       (SearchApi.search (Some "matrix") 1 20 (fun _ => SearchApi.NetworkError)) = 200.
Proof. split; reflexivity. Qed.

(* ================================================================== *)
(** * Further properties of the registry *)
(* ================================================================== *)

Lemma Forall_delete (P : Entry -> Prop) (k : string) (m : list Entry) :
  Forall P m -> Forall P (Map.delete k m).
Proof.
  induction m as [|[k' d'] m IH]; simpl; intros H; [constructor|].
  inversion H; subst. destruct (String.eqb k k'); [assumption|].
  constructor; auto.
Qed.

Lemma Forall_set (P : Entry -> Prop) (k : string) (d : Data) (m : list Entry) :
  P (k, d) -> Forall P m -> Forall P (Map.set k d m).
Proof.
  intros Hk. induction m as [|[k' d'] m IH]; simpl; intros H.
  - constructor; [exact Hk | constructor].
  - inversion H; subst. destruct (String.eqb k k'); constructor; auto.
Qed.

Lemma Forall_touchKey (P Q : Entry -> Prop) (k : string) (now : Z) (m : list Entry) :
  (forall e, P e -> Q e) ->
  (forall k' d, P (k', d) -> Q (k', mkData (torrent d) now (createdAt d))) ->
  Forall P m -> Forall Q (touchKey k now m).
Proof.
  intros Hpq Htouch. induction m as [|[k' d'] m IH]; simpl; intros H; [constructor|].
  inversion H; subst. destruct (String.eqb k k'); constructor; auto.
  eapply Forall_impl; [exact Hpq | assumption].
Qed.

Lemma Forall_touchByInfoHash (P Q : Entry -> Prop) hp (id : string) (now : Z)
    (m : list Entry) :
  (forall e, P e -> Q e) ->
  (forall k' d, P (k', d) -> Q (k', mkData (torrent d) now (createdAt d))) ->
  Forall P m -> Forall Q (touchByInfoHash hp id now m).
Proof.
  intros Hpq Htouch. induction m as [|[k' d'] m IH]; simpl; intros H; [constructor|].
  inversion H; subst.
  destruct (nth_error hp (torrent d')) as [t|].
  - destruct (String.eqb (infoHash t) id); constructor; auto.
    eapply Forall_impl; [exact Hpq | assumption].
  - constructor; auto.
Qed.

(** A predicate on registry records that every record keeps under deletion
    is kept by the cleanup timer and by the eviction. *)
Lemma sweep_Forall (P : Entry -> Prop) (now : Z) (s : Server) :
  Forall P (activeTorrents s) -> Forall P (activeTorrents (sweep now s)).
Proof.
  intros H. unfold sweep.
  apply (fold_left_preserves (fun a => Forall P (activeTorrents a))); [|exact H].
  intros a e Ha. destruct (_ >? _); [|exact Ha].
  rewrite destroyTorrent_active. now apply Forall_delete.
Qed.

Lemma cleanupOldTorrents_Forall (P : Entry -> Prop) (url : string) (s : Server) :
  Forall P (activeTorrents s) -> Forall P (activeTorrents (cleanupOldTorrents url s)).
Proof.
  intros H. unfold cleanupOldTorrents. destruct (_ >=? _); [|exact H].
  apply (fold_left_preserves (fun a => Forall P (activeTorrents a))); [|exact H].
  intros a e Ha. destruct (negb _); [|exact Ha].
  rewrite destroyTorrent_active. now apply Forall_delete.
Qed.

Lemma sweep_heap_length (now : Z) (s : Server) :
  List.length (heap (sweep now s)) = List.length (heap s).
Proof.
  unfold sweep.
  apply (fold_left_preserves (fun a => List.length (heap a) = List.length (heap s)));
    [|reflexivity].
  intros a e Ha. destruct (_ >? _); [|exact Ha].
  now rewrite destroyTorrent_heap_length.
Qed.

Lemma sweep_addCalls (now : Z) (s : Server) : addCalls (sweep now s) = addCalls s.
Proof.
  unfold sweep.
  apply (fold_left_preserves (fun a => addCalls a = addCalls s)); [|reflexivity].
  intros a e Ha. destruct (_ >? _); [|exact Ha].
  now rewrite destroyTorrent_addCalls.
Qed.

Lemma cleanupOldTorrents_heap_length (url : string) (s : Server) :
  List.length (heap (cleanupOldTorrents url s)) = List.length (heap s).
Proof.
  unfold cleanupOldTorrents. destruct (_ >=? _); [|reflexivity].
  apply (fold_left_preserves (fun a => List.length (heap a) = List.length (heap s)));
    [|reflexivity].
  intros a e Ha. destruct (negb _); [|exact Ha].
  now rewrite destroyTorrent_heap_length.
Qed.

Lemma validHandles_weaken (m : list Entry) (hp hp' : list Torrent) (c c' : list string) :
  (List.length hp <= List.length hp')%nat ->
  validHandles (mkServer m hp c) -> validHandles (mkServer m hp' c').
Proof.
  unfold validHandles; simpl. intros Hle H.
  eapply Forall_impl; [|exact H]. simpl. intros e He. lia.
Qed.

Section GoodStates.

Variable infoHashOf : string -> string.

Lemma addTorrent_good (accessed created : Z) (url : string) (s : Server) :
  Good s -> Good (fst (addTorrent infoHashOf accessed created url s)).
Proof.
  intros (Hnd & Hvalid & Hlen). unfold addTorrent, clientAdd. simpl.
  pose proof (cleanupOldTorrents_heap_length url s) as Hheap.
  pose proof (cleanupOldTorrents_addCalls url s) as Hcalls.
  assert (Hnd' : NoDup (keys (activeTorrents (cleanupOldTorrents url s)))).
  { apply (cleanupOldTorrents_within (List.length (activeTorrents s)) url s).
    split; [exact Hnd | lia]. }
  pose proof (cleanupOldTorrents_Forall _ url s Hvalid) as Hvalid'.
  split; [|split]; simpl.
  - now apply NoDup_set.
  - unfold validHandles; simpl. apply Forall_set.
    + simpl. rewrite length_app. simpl. lia.
    + eapply Forall_impl; [|exact Hvalid']. simpl. intros e He.
      rewrite length_app, Hheap. simpl. lia.
  - rewrite !length_app, Hheap, Hcalls. simpl. lia.
Qed.

Lemma postStream_good (now accessed created : Z) (magnetUrl : option string)
    (s : Server) :
  Good s -> Good (fst (postStream infoHashOf now accessed created magnetUrl s)).
Proof.
  intros H. unfold postStream.
  destruct magnetUrl as [url|]; [|exact H].
  destruct (negb (JS.truthy url)); [exact H|].
  destruct (Map.get url (activeTorrents s)) as [data|]; [|now apply addTorrent_good].
  assert (H1 : Good (mkServer (touchKey url now (activeTorrents s)) (heap s) (addCalls s))).
  { destruct H as (Hnd & Hvalid & Hlen). split; [|split]; simpl.
    - now rewrite keys_touchKey.
    - unfold validHandles in *; simpl.
      apply (Forall_touchKey _ _ url now _ (fun e He => He)); [|exact Hvalid].
      intros k' d Hd. exact Hd.
    - exact Hlen. }
  destruct (deref s (torrent data)) as [t|]; [|exact H1].
  destruct (destroyed t).
  - apply addTorrent_good. destruct H1 as (Hnd & Hvalid & Hlen).
    split; [|split]; simpl in *.
    + now apply NoDup_delete.
    + unfold validHandles in *; simpl in *. now apply Forall_delete.
    + exact Hlen.
  - destruct (findVideo t); [exact H1 | now apply addTorrent_good].
Qed.

Lemma touched_good (id : string) (now : Z) (s : Server) :
  Good s -> Good (touched id now s).
Proof.
  intros (Hnd & Hvalid & Hlen). split; [|split]; simpl.
  - now rewrite keys_touchByInfoHash.
  - unfold validHandles in *; simpl.
    apply (Forall_touchByInfoHash _ _ _ id now _ (fun e He => He)); [|exact Hvalid].
    intros k' d Hd. exact Hd.
  - exact Hlen.
Qed.

Lemma sweep_good (now : Z) (s : Server) : Good s -> Good (sweep now s).
Proof.
  intros (Hnd & Hvalid & Hlen). split; [|split].
  - apply (sweep_within (List.length (activeTorrents s)) now s). split; [exact Hnd | lia].
  - unfold validHandles. rewrite sweep_heap_length. now apply sweep_Forall.
  - now rewrite sweep_heap_length, sweep_addCalls.
Qed.

Lemma step_good (now : Z) (ev : Event) (s : Server) :
  Good s -> Good (fst (step infoHashOf now ev s)).
Proof.
  intros H. destruct ev as [m accessed created|id r|id|id r| |h t]; simpl.
  - pose proof (postStream_good now accessed created m s H).
    now destruct (postStream infoHashOf now accessed created m s).
  - exact H.
  - rewrite (surjective_pairing (getInfo now id s)). simpl.
    unfold getInfo. destruct (findTorrent s id) as [[? ?]|]; [|exact H].
    now apply touched_good.
  - rewrite (surjective_pairing (getDownload now id r s)). simpl.
    destruct (findTorrent s id) as [[h t]|] eqn:E.
    + rewrite (getDownload_refreshes now id r s h t E). now apply touched_good.
    + unfold getDownload. rewrite E. exact H.
  - now apply sweep_good.
  - destruct H as (Hnd & Hvalid & Hlen). split; [|split]; simpl.
    + exact Hnd.
    + unfold validHandles in *; simpl. now rewrite length_updateAt.
    + now rewrite length_updateAt.
Qed.

Lemma run_good (evs : list (Z * Event)) (s : Server) :
  Good s -> Good (run infoHashOf evs s).
Proof.
  revert s. induction evs as [|[now ev] evs IH]; simpl; intros s H; [exact H|].
  apply IH. now apply step_good.
Qed.

Lemma initial_good : Good initial.
Proof. split; [constructor | split; [constructor | reflexivity]]. Qed.

End GoodStates.

(* ================================================================== *)
(** ** Destroying a session *)
(* ================================================================== *)

Lemma delete_absent (k : string) (m : list Entry) :
  ~ In k (keys m) -> Map.delete k m = m.
Proof.
  induction m as [|[k' d'] m IH]; simpl; intros H; [reflexivity|].
  destruct (String.eqb_spec k k') as [->|Hne]; [tauto|].
  rewrite IH; tauto.
Qed.

Lemma delete_removes (k : string) (m : list Entry) :
  NoDup (keys m) -> ~ In k (keys (Map.delete k m)).
Proof.
  induction m as [|[k' d'] m IH]; simpl; intros H; [tauto|].
  inversion H as [|? ? Hnin Hnd]; subst.
  destruct (String.eqb_spec k k') as [->|Hne]; [exact Hnin|].
  simpl. intros [Heq|Hin]; [congruence|]. now apply IH.
Qed.

Lemma delete_as_filter (k : string) (m : list Entry) :
  NoDup (keys m) ->
  Map.delete k m = filter (fun e => negb (String.eqb k (fst e))) m.
Proof.
  induction m as [|[k' d'] m IH]; simpl; intros H; [reflexivity|].
  inversion H as [|? ? Hnin Hnd]; subst.
  destruct (String.eqb_spec k k') as [->|Hne]; simpl.
  - rewrite <- IH by assumption. symmetry. now apply delete_absent.
  - now rewrite IH.
Qed.

Lemma nth_error_updateAt_same {A : Type} (n : nat) (f : A -> A) (l : list A) (x : A) :
  nth_error l n = Some x -> nth_error (updateAt n f l) n = Some (f x).
Proof.
  revert n. induction l as [|y l IH]; intros [|n]; simpl; try discriminate.
  - intros H. now inversion H.
  - apply IH.
Qed.

Lemma nth_error_updateAt_other {A : Type} (n k : nat) (f : A -> A) (l : list A) :
  n <> k -> nth_error (updateAt n f l) k = nth_error l k.
Proof.
  revert n k. induction l as [|y l IH]; intros [|n] [|k] H; simpl; try reflexivity.
  - congruence.
  - apply IH. congruence.
Qed.

(** Destroying a session leaves the torrent behind its record destroyed,
    and keeps every destroyed torrent destroyed. *)
Lemma destroyTorrent_kills (k : string) (d : Data) (s : Server) (t : Torrent) :
  deref s (torrent d) = Some t ->
  destroyedAt (destroyTorrent k d s) (torrent d).
Proof.
  intros Ht. unfold destroyedAt, destroyTorrent, deref in *. simpl. rewrite Ht.
  destruct (destroyed t) eqn:E; simpl.
  - now exists t.
  - exists (engineDestroy t). split; [|reflexivity].
    now apply nth_error_updateAt_same.
Qed.

Lemma destroyTorrent_keeps_destroyed (k : string) (d : Data) (s : Server) (h : nat) :
  destroyedAt s h -> destroyedAt (destroyTorrent k d s) h.
Proof.
  intros (t & Ht & Hdead). unfold destroyedAt, destroyTorrent, deref in *. simpl.
  destruct (nth_error (heap s) (torrent d)) as [t'|] eqn:E; [|now exists t].
  destruct (destroyed t') eqn:E'; simpl; [now exists t|].
  destruct (Nat.eq_dec (torrent d) h) as [<-|Hne].
  - congruence.
  - exists t. now rewrite nth_error_updateAt_other.
Qed.

(** X2.  Destroying a session is idempotent on a registry with unique
    keys: the second call changes nothing.  After the first call the key
    is absent, the other records are untouched, and the torrent behind the
    record, when the handle is valid, is destroyed. *)
Theorem destroyTorrent_idempotent (k : string) (d : Data) (s : Server) :
  NoDup (keys (activeTorrents s)) ->
  destroyTorrent k d (destroyTorrent k d s) = destroyTorrent k d s
  /\ Map.has k (activeTorrents (destroyTorrent k d s)) = false
  /\ (forall k', k' <> k ->
        Map.get k' (activeTorrents (destroyTorrent k d s))
        = Map.get k' (activeTorrents s))
  /\ (forall t, deref s (torrent d) = Some t ->
        destroyedAt (destroyTorrent k d s) (torrent d)).
Proof.
  intros Hnd. split; [|split; [|split]].
  - pose proof (delete_removes k _ Hnd) as Habsent.
    unfold destroyTorrent at 1. rewrite destroyTorrent_active.
    rewrite (delete_absent k _ Habsent).
    assert (Hheap : match deref (destroyTorrent k d s) (torrent d) with
                    | Some t => if negb (destroyed t)
                                then updateAt (torrent d) engineDestroy
                                       (heap (destroyTorrent k d s))
                                else heap (destroyTorrent k d s)
                    | None => heap (destroyTorrent k d s)
                    end = heap (destroyTorrent k d s)).
    { destruct (deref s (torrent d)) as [t|] eqn:E.
      - destruct (destroyTorrent_kills k d s t E) as (t' & Ht' & Hdead).
        now rewrite Ht', Hdead.
      - unfold destroyTorrent, deref in *. simpl. rewrite E. now rewrite E. }
    rewrite Hheap. unfold destroyTorrent. simpl. reflexivity.
  - rewrite destroyTorrent_active. apply has_false_notIn. now apply delete_removes.
  - intros k' Hne. rewrite destroyTorrent_active.
    clear Hnd. induction (activeTorrents s) as [|[k0 d0] m IH]; simpl; [reflexivity|].
    destruct (String.eqb_spec k k0) as [->|Hne0]; simpl.
    + destruct (String.eqb_spec k' k0); [congruence | reflexivity].
    + now rewrite IH.
  - intros t Ht. now apply (destroyTorrent_kills k d s t).
Qed.

(** X2 at session A of the three sessions. *)
Lemma destroyTorrent_idempotent_witness :
  destroyTorrent Scenario.magnetA (mkData 0 0 0)
    (destroyTorrent Scenario.magnetA (mkData 0 0 0) Scenario.threeSessions)
  = destroyTorrent Scenario.magnetA (mkData 0 0 0) Scenario.threeSessions.
Proof.
  apply (destroyTorrent_idempotent Scenario.magnetA (mkData 0 0 0)
           Scenario.threeSessions).
  vm_compute. repeat constructor; simpl; intuition discriminate.
Defined.

(* ================================================================== *)
(** ** The cleanup timer *)
(* ================================================================== *)

Lemma NoDup_keys_filter (f : Entry -> bool) (m : list Entry) :
  NoDup (keys m) -> NoDup (keys (filter f m)).
Proof.
  induction m as [|x m IH]; simpl; intros H; [constructor|].
  inversion H as [|? ? Hnin Hnd]; subst.
  destruct (f x); simpl; [|now apply IH].
  constructor; [|now apply IH].
  intros Hin. apply Hnin. unfold keys in *. apply in_map_iff in Hin.
  destruct Hin as (y & Hy & Hin). apply filter_In in Hin. apply in_map_iff.
  exists y. tauto.
Qed.

Lemma filter_filter {A : Type} (f g : A -> bool) (l : list A) :
  filter g (filter f l) = filter (fun x => f x && g x) l.
Proof.
  induction l as [|x l IH]; simpl; [reflexivity|].
  destruct (f x); simpl; [destruct (g x); now rewrite IH | exact IH].
Qed.

Lemma sweep_fold_registry (now : Z) (l : list Entry) (s : Server) :
  NoDup (keys (activeTorrents s)) ->
  activeTorrents
    (fold_left (fun acc (e : Entry) =>
                  if now - lastAccessed (snd e) >? TORRENT_TIMEOUT
                  then destroyTorrent (fst e) (snd e) acc else acc) l s)
  = filter (fun e => negb (staleKey now l e)) (activeTorrents s).
Proof.
  revert s. induction l as [|x l IH]; intros s Hnd; cbn [fold_left].
  - symmetry. apply forallb_filter_id. apply forallb_forall. reflexivity.
  - change (now - lastAccessed (snd x) >? TORRENT_TIMEOUT) with (stale now x).
    destruct (stale now x) eqn:E.
    + rewrite IH by (rewrite destroyTorrent_active; now apply NoDup_delete).
      rewrite destroyTorrent_active, delete_as_filter by assumption.
      rewrite filter_filter. apply filter_ext. intros e.
      unfold staleKey. simpl. rewrite E. simpl. now rewrite negb_orb.
    + rewrite IH by assumption. apply filter_ext. intros e.
      unfold staleKey. simpl. now rewrite E.
Qed.

Lemma staleKey_self (now : Z) (m : list Entry) (e : Entry) :
  NoDup (keys m) -> In e m -> staleKey now m e = stale now e.
Proof.
  intros Hnd Hin. unfold staleKey.
  destruct (stale now e) eqn:E.
  - apply existsb_exists. exists e. now rewrite E, String.eqb_refl.
  - apply not_true_is_false. intros H. apply existsb_exists in H.
    destruct H as (x & Hx & H). apply andb_true_iff in H. destruct H as [Hs Hk].
    apply String.eqb_eq in Hk.
    assert (x = e); [|congruence].
    clear E Hs. induction m as [|y m IH]; [destruct Hin|].
    inversion Hnd as [|? ? Hnin Hnd']; subst.
    destruct Hx as [->|Hx]; destruct Hin as [->|Hin]; auto.
    + exfalso. apply Hnin. rewrite Hk. now apply In_keys.
    + exfalso. apply Hnin. rewrite <- Hk. now apply In_keys.
Qed.

Lemma sweep_registry (now : Z) (s : Server) :
  NoDup (keys (activeTorrents s)) ->
  activeTorrents (sweep now s)
  = filter (fun e => negb (stale now e)) (activeTorrents s).
Proof.
  intros Hnd. unfold sweep. rewrite sweep_fold_registry by assumption.
  apply filter_ext_in. intros e He. now rewrite staleKey_self.
Qed.

Lemma sweep_fold_destroys (now : Z) (l : list Entry) (s : Server) (e : Entry) :
  In e l -> stale now e = true ->
  (torrent (snd e) < List.length (heap s))%nat ->
  destroyedAt
    (fold_left (fun acc (x : Entry) =>
                  if now - lastAccessed (snd x) >? TORRENT_TIMEOUT
                  then destroyTorrent (fst x) (snd x) acc else acc) l s)
    (torrent (snd e)).
Proof.
  intros Hin Hstale Hvalid.
  assert (Hkeep : forall l s, destroyedAt s (torrent (snd e)) ->
            destroyedAt
              (fold_left (fun acc (x : Entry) =>
                  if now - lastAccessed (snd x) >? TORRENT_TIMEOUT
                  then destroyTorrent (fst x) (snd x) acc else acc) l s)
              (torrent (snd e))).
  { intros l0 s0 H0. apply fold_left_preserves; [|exact H0].
    intros a x Ha. destruct (_ >? _); [|exact Ha].
    now apply destroyTorrent_keeps_destroyed. }
  revert s Hvalid. induction l as [|x l IH]; intros s Hvalid; [destruct Hin|].
  cbn [fold_left]. destruct Hin as [->|Hin].
  - unfold stale in Hstale. rewrite Hstale. apply Hkeep.
    destruct (nth_error (heap s) (torrent (snd e))) as [t|] eqn:E.
    + now apply (destroyTorrent_kills _ _ _ t).
    + apply nth_error_None in E. lia.
  - apply IH; [exact Hin|].
    destruct (_ >? _); [now rewrite destroyTorrent_heap_length | exact Hvalid].
Qed.

(** X1.  A cleanup tick at time now, after any sequence of events: the
    registry keeps exactly the records accessed within the last
    TORRENT_TIMEOUT milliseconds, in their order; the torrent behind every
    removed record is destroyed; no torrent object is created. *)
Theorem cleanup_tick_keeps_fresh :
  forall (infoHashOf : string -> string) (evs : list (Z * Event)) (now : Z),
    let s := run infoHashOf evs initial in
    activeTorrents (sweep now s)
    = filter (fun e => now - lastAccessed (snd e) <=? TORRENT_TIMEOUT)
             (activeTorrents s)
    /\ (forall e, In e (activeTorrents s) ->
          now - lastAccessed (snd e) > TORRENT_TIMEOUT ->
          destroyedAt (sweep now s) (torrent (snd e)))
    /\ List.length (heap (sweep now s)) = List.length (heap s)
    /\ addCalls (sweep now s) = addCalls s.
Proof.
  intros infoHashOf evs now s.
  destruct (run_good infoHashOf evs initial initial_good) as (Hnd & Hvalid & _).
  fold s in Hnd, Hvalid.
  split; [|split; [|split]].
  - rewrite sweep_registry by assumption. apply filter_ext. intros e.
    unfold stale. rewrite Z.gtb_ltb, Z.leb_antisym. reflexivity.
  - intros e Hin Hgt. unfold sweep. apply sweep_fold_destroys; [exact Hin | |].
    + unfold stale. apply Z.gtb_lt. lia.
    + unfold validHandles in Hvalid. rewrite Forall_forall in Hvalid.
      now apply Hvalid.
  - apply sweep_heap_length.
  - apply sweep_addCalls.
Qed.

(* ================================================================== *)
(** ** Eviction spares the requested key *)
(* ================================================================== *)

Lemma get_delete_other (k url : string) (m : list Entry) :
  k <> url -> Map.get url (Map.delete k m) = Map.get url m.
Proof.
  intros Hne. induction m as [|[k' d'] m IH]; simpl; [reflexivity|].
  destruct (String.eqb_spec k k') as [->|Hne']; simpl.
  - destruct (String.eqb_spec url k'); [congruence | reflexivity].
  - now rewrite IH.
Qed.

Lemma delete_incl (k : string) (m : list Entry) : incl (Map.delete k m) m.
Proof.
  induction m as [|[k' d'] m IH]; simpl; [apply incl_refl|].
  destruct (String.eqb k k'); [apply incl_tl, incl_refl|].
  intros x [<-|H]; [now left | right; now apply IH].
Qed.

(** X3.  The eviction that runs before a new torrent is added only ever
    removes records: every record it leaves was there before; the record
    of the requested key, if there is one, is never removed; and below
    capacity nothing changes at all. *)
Theorem cleanup_spares_requested :
  forall (url : string) (s : Server),
    Map.get url (activeTorrents (cleanupOldTorrents url s))
    = Map.get url (activeTorrents s)
    /\ incl (activeTorrents (cleanupOldTorrents url s)) (activeTorrents s)
    /\ addCalls (cleanupOldTorrents url s) = addCalls s
    /\ (Map.size (activeTorrents s) < MAX_ACTIVE_TORRENTS ->
        cleanupOldTorrents url s = s).
Proof.
  intros url s. split; [|split; [|split]].
  - unfold cleanupOldTorrents. destruct (_ >=? _); [|reflexivity].
    apply (fold_left_preserves
             (fun a => Map.get url (activeTorrents a) = Map.get url (activeTorrents s)));
      [|reflexivity].
    intros a e Ha. destruct (String.eqb_spec (fst e) url) as [Heq|Hne]; cbn [negb];
      [exact Ha|].
    rewrite destroyTorrent_active, get_delete_other; assumption.
  - unfold cleanupOldTorrents. destruct (_ >=? _); [|apply incl_refl].
    apply (fold_left_preserves (fun a => incl (activeTorrents a) (activeTorrents s)));
      [|apply incl_refl].
    intros a e Ha. destruct (negb _); [|exact Ha].
    rewrite destroyTorrent_active.
    eapply incl_tran; [apply delete_incl | exact Ha].
  - apply cleanupOldTorrents_addCalls.
  - apply cleanupOldTorrents_below.
Qed.

(* ================================================================== *)
(** ** Outcomes of a session start *)
(* ================================================================== *)

Lemma get_In (k : string) (d : Data) (m : list Entry) :
  Map.get k m = Some d -> In (k, d) m.
Proof.
  induction m as [|[k' d'] m IH]; simpl; [discriminate|].
  destruct (String.eqb_spec k k') as [->|Hne].
  - intros H. inversion H. now left.
  - intros H. right. now apply IH.
Qed.

Lemma get_set_same (k : string) (d : Data) (m : list Entry) :
  Map.get k (Map.set k d m) = Some d.
Proof.
  induction m as [|[k' d'] m IH]; simpl.
  - now rewrite String.eqb_refl.
  - destruct (String.eqb_spec k k') as [->|Hne]; simpl.
    + now rewrite String.eqb_refl.
    + destruct (String.eqb_spec k k'); [congruence | exact IH].
Qed.

Lemma get_touchKey_same (k : string) (now : Z) (d : Data) (m : list Entry) :
  Map.get k m = Some d ->
  Map.get k (touchKey k now m) = Some (mkData (torrent d) now (createdAt d)).
Proof.
  induction m as [|[k' d'] m IH]; simpl; [discriminate|].
  destruct (String.eqb_spec k k') as [->|Hne]; simpl.
  - rewrite String.eqb_refl. intros H. now inversion H.
  - destruct (String.eqb_spec k k'); [congruence | exact IH].
Qed.

Lemma truthy_iff (url : string) : JS.truthy url = true <-> url <> EmptyString.
Proof. destruct url; simpl; split; intros H; congruence. Qed.

Section SessionStart.

Variable infoHashOf : string -> string.

Lemma addTorrent_registers (accessed created : Z) (url : string) (s : Server) :
  status (snd (addTorrent infoHashOf accessed created url s)) = 200
  /\ exists d t,
       Map.get url (activeTorrents (fst (addTorrent infoHashOf accessed created url s)))
       = Some d
       /\ lastAccessed d = accessed /\ createdAt d = created
       /\ deref (fst (addTorrent infoHashOf accessed created url s)) (torrent d) = Some t
       /\ destroyed t = false
       /\ infoHash t = infoHashOf url.
Proof.
  unfold addTorrent, clientAdd. simpl. split; [reflexivity|].
  eexists. eexists. split; [apply get_set_same|]. simpl.
  split; [reflexivity|]. split; [reflexivity|].
  unfold deref; simpl. rewrite nth_error_app2 by lia.
  rewrite Nat.sub_diag. simpl. auto.
Qed.

Lemma postStream_registers (now accessed created : Z) (url : string) (s : Server) :
  validHandles s ->
  JS.truthy url = true ->
  status (snd (postStream infoHashOf now accessed created (Some url) s)) = 200
  /\ exists d t,
       Map.get url
         (activeTorrents (fst (postStream infoHashOf now accessed created (Some url) s)))
       = Some d
       /\ (lastAccessed d = now
           \/ lastAccessed d = accessed /\ createdAt d = created)
       /\ deref (fst (postStream infoHashOf now accessed created (Some url) s))
                (torrent d) = Some t
       /\ destroyed t = false.
Proof.
  intros Hvalid Htruthy.
  assert (Hadd : forall s0,
             status (snd (addTorrent infoHashOf accessed created url s0)) = 200
             /\ exists d t,
                 Map.get url
                   (activeTorrents (fst (addTorrent infoHashOf accessed created url s0)))
                 = Some d
                 /\ (lastAccessed d = now
                     \/ lastAccessed d = accessed /\ createdAt d = created)
                 /\ deref (fst (addTorrent infoHashOf accessed created url s0))
                          (torrent d) = Some t
                 /\ destroyed t = false).
  { intros s0.
    destruct (addTorrent_registers accessed created url s0)
      as (H1 & d & t & H2 & H3 & H3' & H4 & H5 & _).
    split; [exact H1|]. exists d, t. auto. }
  unfold postStream. rewrite Htruthy. cbn [negb].
  destruct (Map.get url (activeTorrents s)) as [data|] eqn:Hget; [|apply Hadd].
  assert (Hlt : (torrent data < List.length (heap s))%nat).
  { unfold validHandles in Hvalid. rewrite Forall_forall in Hvalid.
    apply (Hvalid (url, data)). now apply get_In. }
  destruct (deref s (torrent data)) as [t|] eqn:Hderef;
    [|unfold deref in Hderef; apply nth_error_None in Hderef; lia].
  destruct (destroyed t) eqn:Hdead; [apply Hadd|].
  destruct (findVideo t) as [videoFile|]; [|apply Hadd].
  simpl. split; [reflexivity|].
  exists (mkData (torrent data) now (createdAt data)), t.
  split; [now apply get_touchKey_same|]. simpl. auto.
Qed.

End SessionStart.

(** X4.  A session start after any sequence of events answers 400 exactly
    when the locator is missing or empty, and then changes nothing; every
    other locator, well formed or not, is answered 200, and afterwards the
    registry holds a record for it whose torrent is not destroyed and that
    carries a clock reading of this request: the record found for the
    locator was last accessed at the handler's first reading, a record
    stored anew carries the two readings of its creation. *)
Theorem session_start_outcomes :
  forall (infoHashOf : string -> string) (evs : list (Z * Event))
         (now accessed created : Z) (magnetUrl : option string),
    let s := run infoHashOf evs initial in
    let r := postStream infoHashOf now accessed created magnetUrl s in
    (status (snd r) = 400 <-> magnetUrl = None \/ magnetUrl = Some EmptyString)
    /\ (status (snd r) = 400 -> fst r = s)
    /\ (status (snd r) = 400 \/
        status (snd r) = 200
        /\ exists url d t,
             magnetUrl = Some url
             /\ Map.get url (activeTorrents (fst r)) = Some d
             /\ (lastAccessed d = now
                 \/ lastAccessed d = accessed /\ createdAt d = created)
             /\ deref (fst r) (torrent d) = Some t
             /\ destroyed t = false).
Proof.
  intros infoHashOf evs now accessed created magnetUrl s r. subst r.
  destruct (run_good infoHashOf evs initial initial_good) as (_ & Hvalid & _).
  fold s in Hvalid.
  destruct magnetUrl as [url|]; [destruct url as [|c url]|].
  - simpl. split; [split; auto|]. split; [reflexivity | now left].
  - destruct (postStream_registers infoHashOf now accessed created (String c url) s
                Hvalid eq_refl)
      as (H200 & d & t & Hget & Hla & Hderef & Hlive).
    split; [|split].
    + rewrite H200. split; [discriminate | intros [H|H]; discriminate].
    + rewrite H200. discriminate.
    + right. split; [exact H200|]. exists (String c url), d, t. auto.
  - simpl. split; [split; auto|]. split; [reflexivity | now left].
Qed.

(* ================================================================== *)
(** ** Handles, torrent objects and the log of engine calls *)
(* ================================================================== *)

Section Logged.

Variable infoHashOf : string -> string.

Lemma addTorrent_logged (accessed created : Z) (url : string) (s : Server) :
  logged s -> logged (fst (addTorrent infoHashOf accessed created url s)).
Proof.
  intros H. unfold addTorrent, clientAdd, logged. simpl.
  pose proof (cleanupOldTorrents_Forall _ url s H) as H'.
  rewrite cleanupOldTorrents_addCalls.
  apply Forall_set.
  - simpl. apply in_or_app. right. now left.
  - eapply Forall_impl; [|exact H']. simpl. intros e He.
    apply in_or_app. now left.
Qed.

Lemma step_logged (now : Z) (ev : Event) (s : Server) :
  logged s -> logged (fst (step infoHashOf now ev s)).
Proof.
  intros H. destruct ev as [m accessed created|id r|id|id r| |h t]; simpl.
  - rewrite (surjective_pairing (postStream infoHashOf now accessed created m s)). simpl.
    unfold postStream.
    destruct m as [url|]; [|exact H].
    destruct (negb (JS.truthy url)); [exact H|].
    destruct (Map.get url (activeTorrents s)) as [data|]; [|now apply addTorrent_logged].
    assert (H1 : logged (mkServer (touchKey url now (activeTorrents s)) (heap s) (addCalls s))).
    { unfold logged in *; simpl.
      apply (Forall_touchKey _ _ url now _ (fun e He => He)); [|exact H].
      intros k' d Hd. exact Hd. }
    destruct (deref s (torrent data)) as [t|]; [|exact H1].
    destruct (destroyed t).
    + apply addTorrent_logged. unfold logged in *; simpl in *. now apply Forall_delete.
    + destruct (findVideo t); [exact H1 | now apply addTorrent_logged].
  - exact H.
  - rewrite (surjective_pairing (getInfo now id s)). simpl.
    unfold getInfo. destruct (findTorrent s id) as [[? ?]|]; [|exact H].
    unfold logged in *; simpl.
    apply (Forall_touchByInfoHash _ _ _ id now _ (fun e He => He)); [|exact H].
    intros k' d Hd. exact Hd.
  - rewrite (surjective_pairing (getDownload now id r s)). simpl.
    destruct (findTorrent s id) as [[h t]|] eqn:E.
    + rewrite (getDownload_refreshes now id r s h t E).
      unfold logged in *; simpl.
      apply (Forall_touchByInfoHash _ _ _ id now _ (fun e He => He)); [|exact H].
      intros k' d Hd. exact Hd.
    + unfold getDownload. rewrite E. exact H.
  - unfold logged. rewrite sweep_addCalls. now apply sweep_Forall.
  - exact H.
Qed.

Lemma run_logged (evs : list (Z * Event)) (s : Server) :
  logged s -> logged (run infoHashOf evs s).
Proof.
  revert s. induction evs as [|[now ev] evs IH]; simpl; intros s H; [exact H|].
  apply IH. now apply step_logged.
Qed.

End Logged.

(** After every sequence of events: the registry holds each key once;
    every record refers to an existing torrent object; there is exactly
    one torrent object per [client.add] call; and every registered key
    has been passed to [client.add]. *)
Theorem registry_refers_to_engine :
  forall (infoHashOf : string -> string) (evs : list (Z * Event)),
    let s := run infoHashOf evs initial in
    NoDup (keys (activeTorrents s))
    /\ (forall k d, Map.get k (activeTorrents s) = Some d ->
          exists t, deref s (torrent d) = Some t)
    /\ List.length (heap s) = List.length (addCalls s)
    /\ (forall k, Map.has k (activeTorrents s) = true -> (1 <= addCount k s)%nat).
Proof.
  intros infoHashOf evs s.
  destruct (run_good infoHashOf evs initial initial_good) as (Hnd & Hvalid & Hlen).
  fold s in Hnd, Hvalid, Hlen.
  split; [exact Hnd|]. split; [|split; [exact Hlen|]].
  - intros k d Hget. apply get_In in Hget.
    unfold validHandles in Hvalid. rewrite Forall_forall in Hvalid.
    specialize (Hvalid _ Hget). simpl in Hvalid. unfold deref.
    destruct (nth_error (heap s) (torrent d)) as [t|] eqn:E; [now exists t|].
    apply nth_error_None in E. lia.
  - intros k Hhas. apply has_In in Hhas.
    assert (Hlog : logged s) by (apply run_logged; constructor).
    unfold logged in Hlog. rewrite Forall_forall in Hlog.
    unfold keys in Hhas. apply in_map_iff in Hhas. destruct Hhas as (e & <- & He).
    specialize (Hlog _ He). unfold addCount.
    assert (Hin : In (fst e) (filter (String.eqb (fst e)) (addCalls s))).
    { apply filter_In. split; [exact Hlog | apply String.eqb_refl]. }
    destruct (filter (String.eqb (fst e)) (addCalls s)); [destruct Hin | simpl; lia].
Qed.

(* ================================================================== *)
(** ** Timestamps *)
(* ================================================================== *)

Lemma stampedWithin_later (t0 t t' : Z) (e : Entry) :
  t <= t' -> stampedWithin t0 t e -> stampedWithin t0 t' e.
Proof. unfold stampedWithin. lia. Qed.

Section Timestamps.

Variable infoHashOf : string -> string.

Lemma addTorrent_stamped (t0 t accessed created : Z) (url : string) (s : Server) :
  t0 <= accessed <= t ->
  t0 <= created <= t ->
  Forall (stampedWithin t0 t) (activeTorrents s) ->
  Forall (stampedWithin t0 t)
         (activeTorrents (fst (addTorrent infoHashOf accessed created url s))).
Proof.
  intros Ha Hc H. unfold addTorrent, clientAdd. simpl.
  apply Forall_set; [unfold stampedWithin; simpl; lia|].
  now apply cleanupOldTorrents_Forall.
Qed.

Lemma step_stamped (t0 t now : Z) (ev : Event) (s : Server) :
  t0 <= t ->
  t <= now ->
  inOrder now ev ->
  Forall (stampedWithin t0 t) (activeTorrents s) ->
  Forall (stampedWithin t0 (lastReading now ev))
         (activeTorrents (fst (step infoHashOf now ev s))).
Proof.
  intros H0 Hle Hord H.
  assert (Hnow : Forall (stampedWithin t0 now) (activeTorrents s)).
  { eapply Forall_impl; [|exact H]. intros e. now apply stampedWithin_later. }
  assert (Htouch : forall k' d, stampedWithin t0 t (k', d) ->
                     stampedWithin t0 now (k', mkData (torrent d) now (createdAt d))).
  { unfold stampedWithin; simpl. intros k' d Hd. lia. }
  assert (Hweak : forall e, stampedWithin t0 t e -> stampedWithin t0 now e).
  { intros e. now apply stampedWithin_later. }
  destruct ev as [m accessed created|id r|id|id r| |h t1]; simpl in *.
  - assert (Hlast : forall l, Forall (stampedWithin t0 now) l ->
                      Forall (stampedWithin t0 created) l).
    { intros l Hl. eapply Forall_impl; [|exact Hl].
      intros e. apply stampedWithin_later. lia. }
    rewrite (surjective_pairing (postStream infoHashOf now accessed created m s)). simpl.
    unfold postStream.
    destruct m as [url|]; [|now apply Hlast].
    destruct (negb (JS.truthy url)); [now apply Hlast|].
    destruct (Map.get url (activeTorrents s)) as [data|];
      [|apply addTorrent_stamped; [lia | lia | now apply Hlast]].
    pose proof (Forall_touchKey _ _ url now _ Hweak Htouch H) as H1.
    destruct (deref s (torrent data)) as [t2|]; [|now apply Hlast].
    destruct (destroyed t2).
    + apply addTorrent_stamped; [lia | lia |]. simpl.
      apply Forall_delete. now apply Hlast.
    + destruct (findVideo t2); [now apply Hlast|].
      apply addTorrent_stamped; [lia | lia | now apply Hlast].
  - exact Hnow.
  - rewrite (surjective_pairing (getInfo now id s)). simpl.
    unfold getInfo. destruct (findTorrent s id) as [[? ?]|]; [|exact Hnow].
    simpl. now apply (Forall_touchByInfoHash _ _ _ id now _ Hweak Htouch).
  - rewrite (surjective_pairing (getDownload now id r s)). simpl.
    destruct (findTorrent s id) as [[h t2]|] eqn:E.
    + rewrite (getDownload_refreshes now id r s h t2 E). simpl.
      now apply (Forall_touchByInfoHash _ _ _ id now _ Hweak Htouch).
    + unfold getDownload. rewrite E. exact Hnow.
  - now apply sweep_Forall.
  - exact Hnow.
Qed.

Lemma lastReading_later (now : Z) (ev : Event) :
  inOrder now ev -> now <= lastReading now ev.
Proof. destruct ev; simpl; lia. Qed.

Lemma run_stamped (evs : list (Z * Event)) (t0 t : Z) (s : Server) :
  t0 <= t ->
  clockFrom t evs ->
  Forall (stampedWithin t0 t) (activeTorrents s) ->
  Forall (stampedWithin t0 (lastClock t evs)) (activeTorrents (run infoHashOf evs s)).
Proof.
  revert t s. induction evs as [|[now ev] evs IH]; simpl; intros t s H0 Hclock H;
    [exact H|].
  destruct Hclock as (Hle & Hord & Hclock).
  pose proof (lastReading_later now ev Hord) as Hlater.
  apply IH; [lia | exact Hclock|].
  now apply (step_stamped t0 t).
Qed.

End Timestamps.

(** X6.  Along every sequence of events whose clock readings never go
    back, both timestamps of every registry record are readings of that
    clock: neither lies before the first reading or after the latest one.
    So the idle time that the cleanup timer computes for a record at a
    later reading is never negative. *)
Theorem timestamps_within_clock (infoHashOf : string -> string)
    (evs : list (Z * Event)) (t0 : Z) :
  clockFrom t0 evs ->
  forall k d,
    Map.get k (activeTorrents (run infoHashOf evs initial)) = Some d ->
    t0 <= lastAccessed d <= lastClock t0 evs
    /\ t0 <= createdAt d <= lastClock t0 evs
    /\ (forall now, lastClock t0 evs <= now -> 0 <= now - lastAccessed d).
Proof.
  intros Hclock k d Hget.
  pose proof (run_stamped infoHashOf evs t0 t0 initial (Z.le_refl _) Hclock
                (Forall_nil _)) as H.
  rewrite Forall_forall in H. apply get_In in Hget.
  destruct (H _ Hget) as [Ha Hc]. simpl in Ha, Hc.
  split; [exact Ha|]. split; [exact Hc|]. intros now Hnow. lia.
Qed.

(** X6 along the events that lead to the tied sessions, the clock
    advancing while the record of C is stored. *)
Lemma timestamps_within_clock_witness :
  0 <= lastAccessed (mkData 1 3 2) <= 6
  /\ 0 <= createdAt (mkData 1 3 2) <= 6
  /\ (forall now, 6 <= now -> 0 <= now - lastAccessed (mkData 1 3 2)).
Proof.
  apply (timestamps_within_clock Scenario.btih
           [(1, PostStream (Some Scenario.magnetA) 1 1);
            (2, PostStream (Some Scenario.magnetB) 2 2);
            (3, PostStream (Some Scenario.magnetA) 3 3);
            (3, GetInfo "bbbb");
            (4, PostStream (Some Scenario.magnetC) 5 6)] 0 ltac:(simpl; lia)
           Scenario.magnetB (mkData 1 3 2)).
  reflexivity.
Defined.

(** The order of the two timestamps of one record is not fixed: a record
    is stamped [lastAccessed] first and [createdAt] second, so with a clock
    that advances in between it is created after it was last accessed; a
    later poll puts the access after the creation. *)
Example created_after_accessed :
  Scenario.view (run Scenario.btih [(0, PostStream (Some Scenario.magnetA) 0 1)] initial)
  = [(Scenario.magnetA, 0, 1)]
  /\ Scenario.view (run Scenario.btih [(0, PostStream (Some Scenario.magnetA) 0 1);
                                       (2, GetInfo "aaaa")] initial)
     = [(Scenario.magnetA, 2, 1)].
Proof. split; vm_compute; reflexivity. Qed.

(* ================================================================== *)
(** * Further properties of the gateway *)
(* ================================================================== *)

Lemma identity_touchByInfoHash hp (id : string) (now : Z) (m : list Entry) :
  identity (touchByInfoHash hp id now m) = identity m.
Proof.
  unfold identity. induction m as [|[k d] m IH]; simpl; [reflexivity|].
  destruct (nth_error hp (torrent d)) as [t|]; simpl.
  - destruct (String.eqb (infoHash t) id); simpl; [reflexivity | now rewrite IH].
  - now rewrite IH.
Qed.

Lemma touched_sameSessions (id : string) (now : Z) (s : Server) :
  sameSessions s (touched id now s).
Proof.
  split; [|split]; simpl; auto. apply identity_touchByInfoHash.
Qed.

Lemma sameSessions_refl (s : Server) : sameSessions s s.
Proof. repeat split. Qed.

(** X7.  No stream open, status poll or download open ever creates,
    replaces or removes a session or a torrent object, or calls
    [client.add]: keys, handles, creation times, the torrent objects and
    the log of engine calls are the same after it, whatever it answers. *)
Theorem reads_keep_sessions :
  forall (infoHashOf : string -> string) (now : Z) (torrentId : string)
         (range : option string) (s : Server),
    sameSessions s (fst (step infoHashOf now (GetStream torrentId range) s))
    /\ sameSessions s (fst (step infoHashOf now (GetInfo torrentId) s))
    /\ sameSessions s (fst (step infoHashOf now (GetDownload torrentId range) s)).
Proof.
  intros infoHashOf now torrentId range s. split; [|split]; simpl.
  - apply sameSessions_refl.
  - rewrite (surjective_pairing (getInfo now torrentId s)). simpl.
    unfold getInfo. destruct (findTorrent s torrentId) as [[h t]|];
      [apply touched_sameSessions | apply sameSessions_refl].
  - rewrite (surjective_pairing (getDownload now torrentId range s)). simpl.
    destruct (findTorrent s torrentId) as [[h t]|] eqn:E.
    + rewrite (getDownload_refreshes now torrentId range s h t E).
      apply touched_sameSessions.
    + unfold getDownload. rewrite E. apply sameSessions_refl.
Qed.

(** X8.  When the engine lists a torrent with the requested fingerprint,
    a status poll and a download open, whatever the Range header and
    whatever they answer, set lastAccessed to now on the first registry
    record, in map order, whose torrent carries that fingerprint, and
    leave every other record as it is. *)
Theorem poll_and_download_refresh (now : Z) (torrentId : string)
    (range : option string) (s : Server) (h : nat) (listedTorrent t : Torrent)
    (l1 l2 : list Entry) (k : string) (d : Data) :
  findTorrent s torrentId = Some (h, listedTorrent) ->
  activeTorrents s = l1 ++ (k, d) :: l2 ->
  (forall e t', In e l1 -> deref s (torrent (snd e)) = Some t' ->
                infoHash t' <> torrentId) ->
  deref s (torrent d) = Some t ->
  infoHash t = torrentId ->
  activeTorrents (fst (getInfo now torrentId s))
  = l1 ++ (k, mkData (torrent d) now (createdAt d)) :: l2
  /\ activeTorrents (fst (getDownload now torrentId range s))
     = l1 ++ (k, mkData (torrent d) now (createdAt d)) :: l2.
Proof.
  intros Hfind Hsplit Hbefore Ht Hid.
  rewrite (getInfo_refreshes now torrentId s h listedTorrent Hfind).
  rewrite (getDownload_refreshes now torrentId range s h listedTorrent Hfind).
  unfold touched; simpl. rewrite Hsplit.
  split; apply (touchByInfoHash_first (heap s) torrentId now l1 l2 k d t); auto.
Qed.

(** X8 at session B of the three sessions, polled at 20. *)
Lemma poll_and_download_refresh_witness :
  activeTorrents (fst (getInfo 20 "bbbb" Scenario.threeSessions))
  = [(Scenario.magnetA, mkData 0 0 0)]
      ++ (Scenario.magnetB, mkData (torrent (mkData 1 5 5)) 20 (createdAt (mkData 1 5 5)))
      :: [(Scenario.magnetC, mkData 2 10 10)]
  /\ activeTorrents (fst (getDownload 20 "bbbb" (Some "bytes=abc-") Scenario.threeSessions))
     = [(Scenario.magnetA, mkData 0 0 0)]
         ++ (Scenario.magnetB, mkData (torrent (mkData 1 5 5)) 20 (createdAt (mkData 1 5 5)))
         :: [(Scenario.magnetC, mkData 2 10 10)].
Proof.
  apply (poll_and_download_refresh 20 "bbbb" (Some "bytes=abc-") Scenario.threeSessions
           1%nat (mkTorrent "bbbb" false true false [] [] 0%float)
           (mkTorrent "bbbb" false true false [] [] 0%float)).
  - reflexivity.
  - reflexivity.
  - intros e t' [<-|[]] Ht'. vm_compute in Ht'. inversion Ht'. discriminate.
  - reflexivity.
  - reflexivity.
Defined.

(* ================================================================== *)
(** ** Stream and download answers on a ready session *)
(* ================================================================== *)

Lemma getStream_partial (s : Server) (torrentId : string) (h : nat)
    (t : Torrent) (videoFile : File) (range : string) (start end_ : Z) :
  findTorrent s torrentId = Some (h, t) ->
  findVideo t = Some videoFile ->
  destroyed t = false ->
  JS.truthy range = true ->
  rangeStart range = Some start ->
  rangeEnd range videoFile = Some end_ ->
  start <= Z.min end_ (fileLength videoFile - 1) ->
  let res := getStream torrentId (Some range) s in
  status res = 206
  /\ getHeader "Content-Range" res = Some (contentRange start end_ videoFile)
  /\ getHeader "Content-Length" res = Some (JS.show (end_ - start + 1))
  /\ getHeader "Accept-Ranges" res = Some "bytes"
  /\ getHeader "Content-Type" res = Some (contentType videoFile)
  /\ body res = Pipe videoFile (Some (start, Z.min end_ (fileLength videoFile - 1))).
Proof.
  intros Hfind Hvideo Hlive Htruthy Hstart Hend Hle res. subst res.
  pose proof (rangeStart_nonneg _ _ Hstart) as Hnn.
  unfold getStream. rewrite Hfind, Hvideo, Hlive, Htruthy, Hstart, Hend.
  unfold createStream.
  destruct (createStream_clamps videoFile start end_) as [-> ->].
  rewrite Z.max_l by lia. rewrite Hlive.
  destruct (Z.gtb_spec start (Z.min end_ (fileLength videoFile - 1))); [lia|].
  repeat split; reflexivity.
Qed.

(** X9.  For a session that the stream handler finds (live torrent,
    selected file of a length in the safe range) and a Range header whose
    two numbers parse, the end within the safe range and the start not
    beyond the end clamped to the last byte: the answer is 206;
    Content-Range and Content-Length are written from the requested end,
    before it is clamped; the body is the range from start to the clamped
    end.  So a range that reaches beyond the file announces more bytes
    than the body holds. *)
Theorem stream_partial_content (s : Server) (torrentId : string) (h : nat)
    (t : Torrent) (videoFile : File) (range : string) (start end_ : Z) :
  findTorrent s torrentId = Some (h, t) ->
  findVideo t = Some videoFile ->
  destroyed t = false ->
  fileLength videoFile <= JS.MAX_SAFE_INTEGER ->
  JS.truthy range = true ->
  rangeStart range = Some start ->
  rangeEnd range videoFile = Some end_ ->
  end_ <= JS.MAX_SAFE_INTEGER ->
  start <= Z.min end_ (fileLength videoFile - 1) ->
  let res := getStream torrentId (Some range) s in
  status res = 206
  /\ getHeader "Content-Range" res = Some (contentRange start end_ videoFile)
  /\ getHeader "Content-Length" res = Some (JS.show (end_ - start + 1))
  /\ getHeader "Accept-Ranges" res = Some "bytes"
  /\ getHeader "Content-Type" res = Some (contentType videoFile)
  /\ body res = Pipe videoFile (Some (start, Z.min end_ (fileLength videoFile - 1))).
Proof.
  intros Hfind Hvideo Hlive _ Htruthy Hstart Hend _ Hle.
  now apply (getStream_partial s torrentId h t videoFile range start end_).
Qed.

(** X9 at a range that reaches beyond the film of 1000 bytes: 4501 bytes
    are announced, 500 are served. *)
Lemma stream_partial_content_witness :
  status (getStream "aaaa" (Some "bytes=500-5000") Scenario.readySession) = 206
  /\ getHeader "Content-Range" (getStream "aaaa" (Some "bytes=500-5000") Scenario.readySession)
     = Some (contentRange 500 5000 Scenario.film)
  /\ getHeader "Content-Length" (getStream "aaaa" (Some "bytes=500-5000") Scenario.readySession)
     = Some (JS.show (5000 - 500 + 1))
  /\ getHeader "Accept-Ranges" (getStream "aaaa" (Some "bytes=500-5000") Scenario.readySession)
     = Some "bytes"
  /\ getHeader "Content-Type" (getStream "aaaa" (Some "bytes=500-5000") Scenario.readySession)
     = Some (contentType Scenario.film)
  /\ body (getStream "aaaa" (Some "bytes=500-5000") Scenario.readySession)
     = Pipe Scenario.film (Some (500, Z.min 5000 (fileLength Scenario.film - 1))).
Proof.
  apply (stream_partial_content Scenario.readySession "aaaa" 0%nat
           (Scenario.withMetadata "aaaa") Scenario.film "bytes=500-5000" 500 5000);
    first [reflexivity | vm_compute; discriminate].
Defined.

(** X10.  For a session that the stream handler finds and a request
    without Range header (or with an empty one): a file of at least one
    byte is answered 200 with Content-Length the file length, without
    Content-Range, the body being the whole file; a file of length 0 is
    answered 416. *)
Theorem stream_without_range (s : Server) (torrentId : string) (h : nat)
    (t : Torrent) (videoFile : File) (range : option string) :
  findTorrent s torrentId = Some (h, t) ->
  findVideo t = Some videoFile ->
  destroyed t = false ->
  range = None \/ range = Some EmptyString ->
  let res := getStream torrentId range s in
  (1 <= fileLength videoFile ->
   status res = 200
   /\ getHeader "Content-Length" res = Some (JS.show (fileLength videoFile))
   /\ getHeader "Content-Range" res = None
   /\ getHeader "Accept-Ranges" res = Some "bytes"
   /\ body res = Pipe videoFile (Some (0, fileLength videoFile - 1)))
  /\ (fileLength videoFile <= 0 ->
      status res = 416 /\ body res = JsonError "Range Not Satisfiable").
Proof.
  intros Hfind Hvideo Hlive Hrange res. subst res.
  assert (Hres : getStream torrentId range s
                 = createStream t videoFile 0 (fileLength videoFile - 1)
                     (setHeader "Connection" "keep-alive"
                       (setHeader "Connection" "keep-alive"
                       (setHeader "Expires" "0"
                       (setHeader "Pragma" "no-cache"
                       (setHeader "Cache-Control" "no-cache, no-store, must-revalidate"
                       (setHeader "Content-Length" (JS.show (fileLength videoFile))
                       (setHeader "Accept-Ranges" "bytes"
                       (setHeader "Content-Type" (contentType videoFile)
                          freshResponse))))))))).
  { unfold getStream. rewrite Hfind, Hvideo, Hlive.
    destruct Hrange as [-> | ->]; reflexivity. }
  rewrite Hres. unfold createStream. rewrite Hlive.
  destruct (Z.geb_spec (fileLength videoFile - 1) (fileLength videoFile)); [lia|].
  change (if 0 <? 0 then 0 else 0) with 0.
  split; intros Hlen.
  - destruct (Z.gtb_spec 0 (fileLength videoFile - 1)); [lia|].
    repeat split; reflexivity.
  - destruct (Z.gtb_spec 0 (fileLength videoFile - 1)); [|lia].
    split; reflexivity.
Qed.

(** X10 at the ready session and at a session whose film is empty. *)
Lemma stream_without_range_witness :
  (1 <= fileLength Scenario.film ->
   status (getStream "aaaa" None Scenario.readySession) = 200
   /\ getHeader "Content-Length" (getStream "aaaa" None Scenario.readySession)
      = Some (JS.show (fileLength Scenario.film))
   /\ getHeader "Content-Range" (getStream "aaaa" None Scenario.readySession) = None
   /\ getHeader "Accept-Ranges" (getStream "aaaa" None Scenario.readySession)
      = Some "bytes"
   /\ body (getStream "aaaa" None Scenario.readySession)
      = Pipe Scenario.film (Some (0, fileLength Scenario.film - 1)))
  /\ (fileLength Scenario.film <= 0 ->
      status (getStream "aaaa" None Scenario.readySession) = 416
      /\ body (getStream "aaaa" None Scenario.readySession)
         = JsonError "Range Not Satisfiable").
Proof.
  apply (stream_without_range Scenario.readySession "aaaa" 0%nat
           (Scenario.withMetadata "aaaa") Scenario.film None);
    try reflexivity.
  now left.
Defined.

Lemma getDownload_answers (s : Server) (now : Z) (torrentId : string) (h : nat)
    (t : Torrent) (videoFile : File) :
  findTorrent s torrentId = Some (h, t) ->
  findVideo t = Some videoFile ->
  destroyed t = false ->
  (forall range start end_,
      JS.truthy range = true ->
      rangeStart range = Some start ->
      rangeEnd range videoFile = Some end_ ->
      let res := snd (getDownload now torrentId (Some range) s) in
      (start <= end_ ->
       status res = 206
       /\ getHeader "Content-Range" res = Some (contentRange start end_ videoFile)
       /\ getHeader "Content-Length" res = Some (JS.show (end_ - start + 1))
       /\ body res = Pipe videoFile (Some (start, end_)))
      /\ (start > end_ ->
          status res = 416 /\ body res = JsonError "Range Not Satisfiable"))
  /\ (let res := snd (getDownload now torrentId None s) in
      status res = 200
      /\ getHeader "Content-Length" res = Some (JS.show (fileLength videoFile))
      /\ getHeader "Content-Type" res = Some "application/octet-stream"
      /\ getHeader "Accept-Ranges" res = Some "bytes"
      /\ body res = Pipe videoFile None).
Proof.
  intros Hfind Hvideo Hlive. split.
  - intros range start end_ Htruthy Hstart Hend res. subst res.
    unfold getDownload. rewrite Hfind, Hvideo, Hlive, Htruthy, Hstart, Hend.
    split; intros Hcmp.
    + destruct (Z.gtb_spec start end_); [lia|]. repeat split; reflexivity.
    + destruct (Z.gtb_spec start end_); [|lia]. split; reflexivity.
  - unfold getDownload. rewrite Hfind, Hvideo, Hlive. repeat split; reflexivity.
Qed.

(** X11.  For a session that the download handler finds (the file length
    in the safe range): a Range header whose two numbers parse, both within
    the safe range, with start <= end is answered 206 with the
    body from start to end exactly as requested, without any comparison
    with the file length; with start > end it is answered 416; without
    Range header the answer is 200 with the whole file as
    application/octet-stream. *)
Theorem download_outcomes (s : Server) (now : Z) (torrentId : string) (h : nat)
    (t : Torrent) (videoFile : File) :
  findTorrent s torrentId = Some (h, t) ->
  findVideo t = Some videoFile ->
  destroyed t = false ->
  fileLength videoFile <= JS.MAX_SAFE_INTEGER ->
  (forall range start end_,
      JS.truthy range = true ->
      rangeStart range = Some start ->
      rangeEnd range videoFile = Some end_ ->
      start <= JS.MAX_SAFE_INTEGER ->
      end_ <= JS.MAX_SAFE_INTEGER ->
      let res := snd (getDownload now torrentId (Some range) s) in
      (start <= end_ ->
       status res = 206
       /\ getHeader "Content-Range" res = Some (contentRange start end_ videoFile)
       /\ getHeader "Content-Length" res = Some (JS.show (end_ - start + 1))
       /\ body res = Pipe videoFile (Some (start, end_)))
      /\ (start > end_ ->
          status res = 416 /\ body res = JsonError "Range Not Satisfiable"))
  /\ (let res := snd (getDownload now torrentId None s) in
      status res = 200
      /\ getHeader "Content-Length" res = Some (JS.show (fileLength videoFile))
      /\ getHeader "Content-Type" res = Some "application/octet-stream"
      /\ getHeader "Accept-Ranges" res = Some "bytes"
      /\ body res = Pipe videoFile None).
Proof.
  intros Hfind Hvideo Hlive _.
  destruct (getDownload_answers s now torrentId h t videoFile Hfind Hvideo Hlive)
    as [Hranged Hwhole].
  split; [|exact Hwhole].
  intros range start end_ Htruthy Hstart Hend _ _.
  now apply Hranged.
Qed.

(** X11 at a range that lies wholly beyond the film of 1000 bytes: the
    download handler answers 206 where the stream handler answers 416. *)
Lemma download_outcomes_witness :
  status (snd (getDownload 7 "aaaa" (Some "bytes=1200-1300") Scenario.readySession)) = 206
  /\ getHeader "Content-Range"
       (snd (getDownload 7 "aaaa" (Some "bytes=1200-1300") Scenario.readySession))
     = Some (contentRange 1200 1300 Scenario.film)
  /\ getHeader "Content-Length"
       (snd (getDownload 7 "aaaa" (Some "bytes=1200-1300") Scenario.readySession))
     = Some (JS.show (1300 - 1200 + 1))
  /\ body (snd (getDownload 7 "aaaa" (Some "bytes=1200-1300") Scenario.readySession))
     = Pipe Scenario.film (Some (1200, 1300)).
Proof.
  assert (Hlength : fileLength Scenario.film <= JS.MAX_SAFE_INTEGER)
    by (vm_compute; discriminate).
  assert (Hstart : 1200 <= JS.MAX_SAFE_INTEGER) by (vm_compute; discriminate).
  assert (Hend : 1300 <= JS.MAX_SAFE_INTEGER) by (vm_compute; discriminate).
  apply (proj1 (proj1 (download_outcomes Scenario.readySession 7 "aaaa" 0%nat
                  (Scenario.withMetadata "aaaa") Scenario.film
                  eq_refl eq_refl eq_refl Hlength)
                "bytes=1200-1300" 1200 1300 eq_refl eq_refl eq_refl Hstart Hend)).
  lia.
Defined.

(** X12.  A suffix range, bytes=-N, which asks for the last N bytes, is
    not served: for a session that both handlers find, every Range header
    that starts with bytes=- is answered 400 by the stream handler and 416
    by the download handler. *)
Theorem suffix_range_rejected (s : Server) (now : Z) (torrentId : string)
    (h : nat) (t : Torrent) (videoFile : File) (rest : string) :
  findTorrent s torrentId = Some (h, t) ->
  findVideo t = Some videoFile ->
  destroyed t = false ->
  let range := ("bytes=-" ++ rest)%string in
  status (getStream torrentId (Some range) s) = 400
  /\ body (getStream torrentId (Some range) s) = JsonError "Invalid range"
  /\ status (snd (getDownload now torrentId (Some range) s)) = 416.
Proof.
  intros Hfind Hvideo Hlive range. subst range.
  assert (Hstart : rangeStart ("bytes=-" ++ rest) = None).
  { unfold rangeStart, rangeParts. simpl.
    destruct (JS.split "-" rest); reflexivity. }
  unfold getStream, getDownload.
  rewrite Hfind, Hvideo, Hlive, Hstart. simpl. auto.
Qed.

(** X12 at the header bytes=-500. *)
Lemma suffix_range_rejected_witness :
  status (getStream "aaaa" (Some "bytes=-500") Scenario.readySession) = 400
  /\ body (getStream "aaaa" (Some "bytes=-500") Scenario.readySession)
     = JsonError "Invalid range"
  /\ status (snd (getDownload 7 "aaaa" (Some "bytes=-500") Scenario.readySession)) = 416.
Proof.
  apply (suffix_range_rejected Scenario.readySession 7 "aaaa" 0%nat
           (Scenario.withMetadata "aaaa") Scenario.film "500"); reflexivity.
Defined.

(* ================================================================== *)
(** ** The selected file *)
(* ================================================================== *)

Lemma createStream_status (t : Torrent) (videoFile : File) (start end_ : Z)
    (res : Response) :
  status (createStream t videoFile start end_ res) = 416
  \/ status (createStream t videoFile start end_ res) = 410
  \/ status (createStream t videoFile start end_ res) = status res.
Proof.
  unfold createStream.
  destruct (_ >? _).
  - destruct (negb (headersSent res)); [now left | right; now right].
  - destruct (destroyed t); [|right; now right].
    destruct (negb (headersSent res)); [right; now left | right; now right].
Qed.

(** X13.  The status poll and the stream handler agree on the selected
    file.  For a torrent that the engine lists, the poll answers 200 and
    its videoFile field is the file the stream and download handlers
    select, or null when they select none; and the stream open answers
    404 exactly when the poll reports no video file. *)
Theorem poll_agrees_with_stream (s : Server) (now : Z) (torrentId : string)
    (h : nat) (t : Torrent) (range : option string) :
  findTorrent s torrentId = Some (h, t) ->
  status (snd (getInfo now torrentId s)) = 200
  /\ infoVideoFile (snd (getInfo now torrentId s)) = findVideo t
  /\ (status (getStream torrentId range s) = 404
      <-> infoVideoFile (snd (getInfo now torrentId s)) = None).
Proof.
  intros Hfind.
  assert (Hinfo : infoVideoFile (snd (getInfo now torrentId s)) = findVideo t).
  { unfold getInfo, infoVideoFile. rewrite Hfind. simpl.
    unfold findVideo. now destruct (files t). }
  split; [unfold getInfo; now rewrite Hfind|]. split; [exact Hinfo|].
  rewrite Hinfo. unfold getStream. rewrite Hfind.
  destruct (findVideo t) as [videoFile|]; [|split; reflexivity].
  split; [|discriminate]. intros H404. exfalso.
  destruct (destroyed t); [discriminate|].
  assert (Hcs : forall start end_ res,
             status res <> 404 ->
             status (createStream t videoFile start end_ res) <> 404).
  { intros start end_ res Hres.
    destruct (createStream_status t videoFile start end_ res) as [H|[H|H]];
      rewrite H; [discriminate | discriminate | exact Hres]. }
  destruct range as [r|].
  - destruct (JS.truthy r).
    + destruct (rangeStart r) as [a|]; [|discriminate].
      destruct (rangeEnd r videoFile) as [b|]; [|discriminate].
      revert H404. apply Hcs. discriminate.
    + revert H404. apply Hcs. discriminate.
  - revert H404. apply Hcs. discriminate.
Qed.

(** X13 at the ready session. *)
Lemma poll_agrees_with_stream_witness :
  status (snd (getInfo 7 "aaaa" Scenario.readySession)) = 200
  /\ infoVideoFile (snd (getInfo 7 "aaaa" Scenario.readySession))
     = findVideo (Scenario.withMetadata "aaaa")
  /\ (status (getStream "aaaa" None Scenario.readySession) = 404
      <-> infoVideoFile (snd (getInfo 7 "aaaa" Scenario.readySession)) = None).
Proof.
  apply (poll_agrees_with_stream Scenario.readySession 7 "aaaa" 0%nat
           (Scenario.withMetadata "aaaa") None); reflexivity.
Defined.

Lemma endsWith_length (s suffix : string) :
  JS.endsWith s suffix = true ->
  exists p, s = (p ++ suffix)%string.
Proof.
  unfold JS.endsWith. intros H. apply andb_true_iff in H. destruct H as [Hlen Heq].
  apply String.eqb_eq in Heq. apply Nat.leb_le in Hlen.
  remember (JS.len s - JS.len suffix)%nat as n eqn:En. clear En Hlen.
  revert n Heq. induction s as [|c s IH]; intros [|n] Heq; simpl in Heq.
  - exists EmptyString. now rewrite <- Heq.
  - exists EmptyString. now rewrite <- Heq.
  - exists EmptyString. now rewrite <- Heq.
  - destruct (IH n Heq) as (p & ->). now exists (String c p).
Qed.

Lemma lastChar_some (a : string) :
  a <> EmptyString -> exists c, lastChar a = Some c.
Proof.
  destruct a as [|c a]; [congruence|]. intros _. simpl.
  destruct (lastChar a) as [x|]; eauto.
Qed.

Lemma lastChar_append (p a : string) :
  a <> EmptyString -> lastChar (p ++ a) = lastChar a.
Proof.
  intros Ha. induction p as [|c p IH]; simpl; [reflexivity|].
  rewrite IH. destruct (lastChar_some a Ha) as (x & ->). reflexivity.
Qed.

Lemma endsWith_lastChar (s suffix : string) :
  suffix <> EmptyString ->
  JS.endsWith s suffix = true -> lastChar s = lastChar suffix.
Proof.
  intros Hne H. apply endsWith_length in H. destruct H as (p & ->).
  now apply lastChar_append.
Qed.

(** X14.  The Content-Type of a stream always fits the extension of the
    selected file: video/x-matroska for .mkv, video/x-msvideo for .avi,
    video/webm for .webm, and the fall-through video/mp4 only for a name
    that ends in .mp4. *)
Theorem content_type_fits_extension (t : Torrent) (videoFile : File) :
  findVideo t = Some videoFile ->
  (JS.endsWith (fileName videoFile) ".mkv" = true ->
   contentType videoFile = "video/x-matroska")
  /\ (JS.endsWith (fileName videoFile) ".avi" = true ->
      contentType videoFile = "video/x-msvideo")
  /\ (JS.endsWith (fileName videoFile) ".webm" = true ->
      contentType videoFile = "video/webm")
  /\ (JS.endsWith (fileName videoFile) ".mp4" = true ->
      contentType videoFile = "video/mp4")
  /\ (contentType videoFile = "video/mp4" ->
      JS.endsWith (fileName videoFile) ".mp4" = true).
Proof.
  intros Hvideo. unfold findVideo in Hvideo. apply find_some in Hvideo.
  destruct Hvideo as [_ Hvid]. unfold isVideo in Hvid. unfold contentType.
  assert (Hex : forall a b,
            a <> EmptyString -> b <> EmptyString -> lastChar a <> lastChar b ->
            JS.endsWith (fileName videoFile) a = true ->
            JS.endsWith (fileName videoFile) b = true -> False).
  { intros a b Ha Hb Hab H1 H2.
    apply endsWith_lastChar in H1; [|exact Ha].
    apply endsWith_lastChar in H2; [|exact Hb]. congruence. }
  assert (Hdiff : forall a b,
            a <> EmptyString -> b <> EmptyString -> lastChar a <> lastChar b ->
            JS.endsWith (fileName videoFile) a = true ->
            JS.endsWith (fileName videoFile) b = false).
  { intros a b Ha Hb Hab H1.
    destruct (JS.endsWith (fileName videoFile) b) eqn:E; [|reflexivity].
    exfalso. now apply (Hex a b). }
  repeat split; intros H.
  - now rewrite H.
  - rewrite (Hdiff ".avi" ".mkv"), H; (reflexivity || discriminate || assumption).
  - rewrite (Hdiff ".webm" ".mkv"), (Hdiff ".webm" ".avi"), H;
      (reflexivity || discriminate || assumption).
  - rewrite (Hdiff ".mp4" ".mkv"), (Hdiff ".mp4" ".avi"), (Hdiff ".mp4" ".webm");
      (reflexivity || discriminate || assumption).
  - destruct (JS.endsWith (fileName videoFile) ".mkv"); [discriminate|].
    destruct (JS.endsWith (fileName videoFile) ".avi"); [discriminate|].
    destruct (JS.endsWith (fileName videoFile) ".webm"); [discriminate|].
    rewrite !orb_false_r in Hvid. exact Hvid.
Qed.

(** X14 at the film of the scenarios. *)
Lemma content_type_fits_extension_witness :
  contentType Scenario.film = "video/mp4".
Proof.
  apply (proj1 (proj2 (proj2 (proj2
           (content_type_fits_extension (Scenario.withMetadata "aaaa")
              Scenario.film eq_refl))))).
  reflexivity.
Defined.

(* ================================================================== *)
(** ** Starting a session that is ready *)
(* ================================================================== *)

(** X5.  A session start for a locator whose session is live and has a
    selected file reuses it: the answer is 200 with the fingerprint of the
    existing torrent, the name of its video file and its ready flag;
    [client.add] is not called, no torrent object is created or destroyed,
    no record is added, replaced or evicted, even at capacity; only
    lastAccessed of that record becomes now, the handler's one clock
    reading on this path. *)
Theorem ready_session_is_reused (infoHashOf : string -> string)
    (now accessed created : Z) (url : string) (s : Server) (data : Data)
    (t : Torrent) (videoFile : File) :
  JS.truthy url = true ->
  Map.get url (activeTorrents s) = Some data ->
  deref s (torrent data) = Some t ->
  destroyed t = false ->
  findVideo t = Some videoFile ->
  let r := postStream infoHashOf now accessed created (Some url) s in
  status (snd r) = 200
  /\ body (snd r) = JsonStream (infoHash t) (Some (fileName videoFile)) (Some (ready t))
  /\ sameSessions s (fst r)
  /\ Map.get url (activeTorrents (fst r))
     = Some (mkData (torrent data) now (createdAt data))
  /\ (forall k, k <> url ->
        Map.get k (activeTorrents (fst r)) = Map.get k (activeTorrents s)).
Proof.
  intros Htruthy Hget Hderef Hlive Hvideo r. subst r. unfold postStream.
  rewrite Htruthy, Hget, Hderef, Hlive, Hvideo. cbn [negb fst snd].
  split; [reflexivity|]. split; [reflexivity|]. split; [|split].
  - split; [|split]; simpl; auto. unfold identity.
    clear. induction (activeTorrents s) as [|[k d] m IH]; simpl; [reflexivity|].
    destruct (String.eqb url k); simpl; [reflexivity | now rewrite IH].
  - simpl. now apply get_touchKey_same.
  - intros k Hne. simpl. clear - Hne.
    induction (activeTorrents s) as [|[k' d'] m IH]; simpl; [reflexivity|].
    destruct (String.eqb_spec url k') as [<-|Hne']; simpl.
    + destruct (String.eqb_spec k url); [congruence | reflexivity].
    + now rewrite IH.
Qed.

(** X5 at the ready session, started again at 9. *)
Lemma ready_session_is_reused_witness :
  status (snd (postStream Scenario.btih 9 9 9 (Some Scenario.magnetA) Scenario.readySession))
  = 200
  /\ body (snd (postStream Scenario.btih 9 9 9 (Some Scenario.magnetA) Scenario.readySession))
     = JsonStream (infoHash (Scenario.withMetadata "aaaa"))
         (Some (fileName Scenario.film)) (Some (ready (Scenario.withMetadata "aaaa")))
  /\ sameSessions Scenario.readySession
       (fst (postStream Scenario.btih 9 9 9 (Some Scenario.magnetA) Scenario.readySession))
  /\ Map.get Scenario.magnetA
       (activeTorrents
          (fst (postStream Scenario.btih 9 9 9 (Some Scenario.magnetA) Scenario.readySession)))
     = Some (mkData (torrent (mkData 0 0 0)) 9 (createdAt (mkData 0 0 0)))
  /\ (forall k, k <> Scenario.magnetA ->
        Map.get k
          (activeTorrents
             (fst (postStream Scenario.btih 9 9 9 (Some Scenario.magnetA) Scenario.readySession)))
        = Map.get k (activeTorrents Scenario.readySession)).
Proof.
  apply (ready_session_is_reused Scenario.btih 9 9 9 Scenario.magnetA Scenario.readySession
           (mkData 0 0 0) (Scenario.withMetadata "aaaa") Scenario.film); reflexivity.
Defined.

(* ================================================================== *)
(** ** Reading a Range header back *)
(* ================================================================== *)

Lemma digits_step (c : ascii) (k : Z) (s : string) (acc : Z) (seen : bool) :
  JS.digitVal c = Some k ->
  JS.digits (String c s) acc seen = JS.digits s (10 * acc + k) true.
Proof. intros H. cbn [JS.digits]. now rewrite H. Qed.

Lemma digits_end (rest : string) (acc : Z) :
  noLeadingDigit rest -> JS.digits rest acc true = Some acc.
Proof.
  destruct rest as [|c rest]; cbn [JS.digits noLeadingDigit]; [reflexivity|].
  now intros ->.
Qed.

Lemma digits_of_uint_seen (d : Decimal.uint) (rest : string) (acc : Z) :
  noLeadingDigit rest ->
  JS.digits (NilEmpty.string_of_uint d ++ rest) acc true = Some (uintValue d acc).
Proof.
  intros Hrest. revert acc.
  induction d as [|d IH|d IH|d IH|d IH|d IH|d IH|d IH|d IH|d IH|d IH];
    intros acc; cbn [NilEmpty.string_of_uint String.append uintValue].
  - now apply digits_end.
  - rewrite (digits_step "0" 0) by reflexivity. now rewrite IH, Z.add_0_r.
  - rewrite (digits_step "1" 1) by reflexivity. now rewrite IH.
  - rewrite (digits_step "2" 2) by reflexivity. now rewrite IH.
  - rewrite (digits_step "3" 3) by reflexivity. now rewrite IH.
  - rewrite (digits_step "4" 4) by reflexivity. now rewrite IH.
  - rewrite (digits_step "5" 5) by reflexivity. now rewrite IH.
  - rewrite (digits_step "6" 6) by reflexivity. now rewrite IH.
  - rewrite (digits_step "7" 7) by reflexivity. now rewrite IH.
  - rewrite (digits_step "8" 8) by reflexivity. now rewrite IH.
  - rewrite (digits_step "9" 9) by reflexivity. now rewrite IH.
Qed.

Lemma uintValue_of_uint_acc (d : Decimal.uint) (acc : positive) :
  uintValue d (Zpos acc) = Zpos (Pos.of_uint_acc d acc).
Proof.
  revert acc.
  induction d as [|d IH|d IH|d IH|d IH|d IH|d IH|d IH|d IH|d IH|d IH];
    intros acc; cbn [uintValue Pos.of_uint_acc]; [reflexivity|..];
    rewrite <- IH; f_equal; lia.
Qed.

Lemma uintValue_of_uint (d : Decimal.uint) :
  uintValue d 0 = Z.of_N (Pos.of_uint d).
Proof.
  induction d as [|d IH|d IH|d IH|d IH|d IH|d IH|d IH|d IH|d IH|d IH];
    cbn [uintValue Pos.of_uint]; [reflexivity | exact IH |..];
    cbn [Z.mul Z.add Z.of_N]; apply uintValue_of_uint_acc.
Qed.

Lemma show_nonneg (n : Z) :
  0 <= n ->
  exists d, JS.show n = NilZero.string_of_uint d /\ uintValue d 0 = n.
Proof.
  intros Hn. unfold JS.show. destruct n as [|p|p]; [| |lia].
  - exists (Decimal.D0 Decimal.Nil). split; reflexivity.
  - exists (Pos.to_uint p). split; [reflexivity|].
    rewrite uintValue_of_uint, DecimalPos.Unsigned.of_to. reflexivity.
Qed.

Lemma string_of_uint_no_minus (d : Decimal.uint) :
  hasChar "-" (NilZero.string_of_uint d) = false.
Proof.
  assert (H : hasChar "-" (NilEmpty.string_of_uint d) = false)
    by (induction d; simpl; auto).
  unfold NilZero.string_of_uint. destruct d; first [exact H | reflexivity].
Qed.

Lemma show_no_minus (n : Z) : 0 <= n -> hasChar "-" (JS.show n) = false.
Proof.
  intros Hn. destruct (show_nonneg n Hn) as (d & -> & _).
  apply string_of_uint_no_minus.
Qed.

Lemma parseInt_digit_start (c : ascii) (s : string) :
  JS.digitVal c <> None ->
  JS.parseInt (String c s) = JS.digits (String c s) 0 false.
Proof.
  destruct c as [[|] [|] [|] [|] [|] [|] [|] [|]]; intros H;
    try (exfalso; apply H; reflexivity); reflexivity.
Qed.

(** [parseInt] reads back what a template literal printed. *)
Lemma parseInt_show (n : Z) (rest : string) :
  0 <= n -> noLeadingDigit rest -> JS.parseInt (JS.show n ++ rest) = Some n.
Proof.
  intros Hn Hrest. destruct (show_nonneg n Hn) as (d & -> & <-).
  unfold NilZero.string_of_uint.
  destruct d as [|d|d|d|d|d|d|d|d|d|d];
    cbn [NilEmpty.string_of_uint String.append];
    rewrite parseInt_digit_start by discriminate.
  - rewrite (digits_step "0" 0) by reflexivity. now apply digits_end.
  - rewrite (digits_step "0" 0) by reflexivity. rewrite digits_of_uint_seen by assumption; reflexivity.
  - rewrite (digits_step "1" 1) by reflexivity. rewrite digits_of_uint_seen by assumption; reflexivity.
  - rewrite (digits_step "2" 2) by reflexivity. rewrite digits_of_uint_seen by assumption; reflexivity.
  - rewrite (digits_step "3" 3) by reflexivity. rewrite digits_of_uint_seen by assumption; reflexivity.
  - rewrite (digits_step "4" 4) by reflexivity. rewrite digits_of_uint_seen by assumption; reflexivity.
  - rewrite (digits_step "5" 5) by reflexivity. rewrite digits_of_uint_seen by assumption; reflexivity.
  - rewrite (digits_step "6" 6) by reflexivity. rewrite digits_of_uint_seen by assumption; reflexivity.
  - rewrite (digits_step "7" 7) by reflexivity. rewrite digits_of_uint_seen by assumption; reflexivity.
  - rewrite (digits_step "8" 8) by reflexivity. rewrite digits_of_uint_seen by assumption; reflexivity.
  - rewrite (digits_step "9" 9) by reflexivity. rewrite digits_of_uint_seen by assumption; reflexivity.
Qed.

Lemma split_no_sep (sep : ascii) (s : string) :
  hasChar sep s = false -> JS.split sep s = [s].
Proof.
  induction s as [|c s IH]; simpl; [reflexivity|]. intros H.
  apply orb_false_iff in H. destruct H as [Hc Hs].
  rewrite Hc, IH by assumption. reflexivity.
Qed.

Lemma split_at_sep (sep : ascii) (s1 s2 : string) :
  hasChar sep s1 = false ->
  JS.split sep (s1 ++ String sep s2) = s1 :: JS.split sep s2.
Proof.
  induction s1 as [|c s1 IH]; simpl; intros H.
  - now rewrite Ascii.eqb_refl.
  - apply orb_false_iff in H. destruct H as [Hc Hs].
    rewrite Hc, IH by assumption. reflexivity.
Qed.

Lemma append_empty_r (s : string) : (s ++ EmptyString)%string = s.
Proof. induction s as [|c s IH]; simpl; congruence. Qed.

Lemma show_truthy (n : Z) : 0 <= n -> JS.truthy (JS.show n) = true.
Proof.
  intros Hn. destruct (show_nonneg n Hn) as (d & -> & _).
  unfold NilZero.string_of_uint. destruct d; reflexivity.
Qed.

Lemma range_parse_back (a b : Z) (videoFile : File) :
  0 <= a -> 0 <= b ->
  let closed := ("bytes=" ++ JS.show a ++ "-" ++ JS.show b)%string in
  let open := ("bytes=" ++ JS.show a ++ "-")%string in
  rangeStart closed = Some a
  /\ rangeEnd closed videoFile = Some b
  /\ rangeStart open = Some a
  /\ rangeEnd open videoFile = Some (fileLength videoFile - 1).
Proof.
  intros Ha Hb closed open. subst closed open.
  pose proof (show_no_minus a Ha) as Hna.
  pose proof (show_no_minus b Hb) as Hnb.
  assert (Hpa : JS.parseInt (JS.show a) = Some a).
  { pose proof (parseInt_show a EmptyString Ha I) as H.
    now rewrite append_empty_r in H. }
  assert (Hpb : JS.parseInt (JS.show b) = Some b).
  { pose proof (parseInt_show b EmptyString Hb I) as H.
    now rewrite append_empty_r in H. }
  assert (Hclosed : JS.split "-" (JS.replaceFirst "bytes=" "" ("bytes=" ++ JS.show a ++ "-" ++ JS.show b))
                    = [JS.show a; JS.show b]).
  { change (JS.replaceFirst "bytes=" "" ("bytes=" ++ JS.show a ++ "-" ++ JS.show b))
      with (JS.show a ++ String "-" (JS.show b))%string.
    rewrite split_at_sep by assumption. now rewrite split_no_sep. }
  assert (Hopen : JS.split "-" (JS.replaceFirst "bytes=" "" ("bytes=" ++ JS.show a ++ "-"))
                  = [JS.show a; EmptyString]).
  { change (JS.replaceFirst "bytes=" "" ("bytes=" ++ JS.show a ++ "-"))
      with (JS.show a ++ String "-" EmptyString)%string.
    now rewrite split_at_sep by assumption. }
  unfold rangeStart, rangeEnd, rangeParts. rewrite Hclosed, Hopen. simpl.
  rewrite (show_truthy b Hb), Hpa, Hpb. auto.
Qed.

(** X15.  The handlers read a Range header back exactly: for all numbers
    a, b from 0 to MAX_SAFE_INTEGER the header bytes=a-b, written with the
    decimal numerals of a and b, parses to start a and end b; the open
    header bytes=a- parses to start a and the last byte of the file as
    end. *)
Theorem range_header_round_trip (a b : Z) (videoFile : File) :
  0 <= a <= JS.MAX_SAFE_INTEGER -> 0 <= b <= JS.MAX_SAFE_INTEGER ->
  let closed := ("bytes=" ++ JS.show a ++ "-" ++ JS.show b)%string in
  let open := ("bytes=" ++ JS.show a ++ "-")%string in
  rangeStart closed = Some a
  /\ rangeEnd closed videoFile = Some b
  /\ rangeStart open = Some a
  /\ rangeEnd open videoFile = Some (fileLength videoFile - 1).
Proof.
  intros [Ha _] [Hb _]. now apply range_parse_back.
Qed.

(** X15 at the range from 500 to 999. *)
Lemma range_header_round_trip_witness :
  rangeStart "bytes=500-999" = Some 500
  /\ rangeEnd "bytes=500-999" Scenario.film = Some 999
  /\ rangeStart "bytes=500-" = Some 500
  /\ rangeEnd "bytes=500-" Scenario.film = Some (fileLength Scenario.film - 1).
Proof.
  apply (range_header_round_trip 500 999 Scenario.film);
    (split; [lia | vm_compute; discriminate]).
Defined.

(** X16.  A well-formed range inside the file is served exactly.  For a
    session that both handlers find and numbers 0 <= a <= b below the
    file length, the header bytes=a-b is answered 206 by the stream
    handler with Content-Range bytes a-b/length, Content-Length b - a + 1
    and the bytes a to b as body, and 206 with the same body by the
    download handler. *)
Theorem well_formed_range_is_served (s : Server) (now : Z) (torrentId : string)
    (h : nat) (t : Torrent) (videoFile : File) (a b : Z) :
  findTorrent s torrentId = Some (h, t) ->
  findVideo t = Some videoFile ->
  destroyed t = false ->
  0 <= a -> a <= b -> b < fileLength videoFile ->
  let header := ("bytes=" ++ JS.show a ++ "-" ++ JS.show b)%string in
  let streamed := getStream torrentId (Some header) s in
  let downloaded := snd (getDownload now torrentId (Some header) s) in
  status streamed = 206
  /\ getHeader "Content-Range" streamed
     = Some ("bytes " ++ JS.show a ++ "-" ++ JS.show b ++ "/"
               ++ JS.show (fileLength videoFile))%string
  /\ getHeader "Content-Length" streamed = Some (JS.show (b - a + 1))
  /\ body streamed = Pipe videoFile (Some (a, b))
  /\ status downloaded = 206
  /\ body downloaded = Pipe videoFile (Some (a, b)).
Proof.
  intros Hfind Hvideo Hlive Ha Hab Hb header streamed downloaded.
  subst streamed downloaded header.
  destruct (range_parse_back a b videoFile Ha ltac:(lia)) as (Hstart & Hend & _).
  assert (Htruthy : JS.truthy ("bytes=" ++ JS.show a ++ "-" ++ JS.show b) = true)
    by reflexivity.
  destruct (getStream_partial s torrentId h t videoFile _ a b
              Hfind Hvideo Hlive Htruthy Hstart Hend ltac:(lia))
    as (H1 & H2 & H3 & _ & _ & H4).
  destruct (proj1 (getDownload_answers s now torrentId h t videoFile
                     Hfind Hvideo Hlive) _ a b Htruthy Hstart Hend)
    as [Hd _].
  destruct (Hd Hab) as (D1 & _ & _ & D2).
  rewrite Z.min_l in H4 by lia.
  repeat split; assumption.
Qed.

(** X16 at the first hundred bytes of the film. *)
Lemma well_formed_range_is_served_witness :
  status (getStream "aaaa" (Some ("bytes=" ++ JS.show 0 ++ "-" ++ JS.show 99)%string)
            Scenario.readySession) = 206
  /\ getHeader "Content-Range"
       (getStream "aaaa" (Some ("bytes=" ++ JS.show 0 ++ "-" ++ JS.show 99)%string)
          Scenario.readySession)
     = Some ("bytes " ++ JS.show 0 ++ "-" ++ JS.show 99 ++ "/"
               ++ JS.show (fileLength Scenario.film))%string
  /\ getHeader "Content-Length"
       (getStream "aaaa" (Some ("bytes=" ++ JS.show 0 ++ "-" ++ JS.show 99)%string)
          Scenario.readySession)
     = Some (JS.show (99 - 0 + 1))
  /\ body (getStream "aaaa" (Some ("bytes=" ++ JS.show 0 ++ "-" ++ JS.show 99)%string)
             Scenario.readySession)
     = Pipe Scenario.film (Some (0, 99))
  /\ status (snd (getDownload 7 "aaaa"
                    (Some ("bytes=" ++ JS.show 0 ++ "-" ++ JS.show 99)%string)
                    Scenario.readySession)) = 206
  /\ body (snd (getDownload 7 "aaaa"
                  (Some ("bytes=" ++ JS.show 0 ++ "-" ++ JS.show 99)%string)
                  Scenario.readySession))
     = Pipe Scenario.film (Some (0, 99)).
Proof.
  apply (well_formed_range_is_served Scenario.readySession 7 "aaaa" 0%nat
           (Scenario.withMetadata "aaaa") Scenario.film 0 99);
    first [reflexivity | simpl; lia].
Defined.

(* ================================================================== *)
(** ** What a search answer holds *)
(* ================================================================== *)

Lemma slice_incl {A : Type} (b e : Z) (l : list A) : incl (JS.slice b e l) l.
Proof.
  assert (Hfirst : forall n (m : list A) x, In x (firstn n m) -> In x m).
  { intros n m x Hx. rewrite <- (firstn_skipn n m). apply in_or_app. now left. }
  assert (Hskip : forall n (m : list A) x, In x (skipn n m) -> In x m).
  { intros n m x Hx. rewrite <- (firstn_skipn n m). apply in_or_app. now right. }
  unfold JS.slice. intros x Hx.
  apply Hfirst in Hx. now apply Hskip in Hx.
Qed.

Lemma slice_length {A : Type} (b e : Z) (l : list A) :
  0 <= b -> b <= e -> Z.of_nat (List.length (JS.slice b e l)) <= e - b.
Proof.
  intros Hb He. unfold JS.slice.
  destruct (Z.ltb_spec b 0); [lia|]. destruct (Z.ltb_spec e 0); [lia|].
  rewrite length_firstn. lia.
Qed.

Lemma keepRaw_In (r : SearchApi.RawResult) (l : list (option SearchApi.RawResult)) :
  In r (flat_map SearchApi.keepRaw l) ->
  In (Some r) l /\ SearchApi.truthy (SearchApi.info_hash r) = true.
Proof.
  intros H. apply in_flat_map in H. destruct H as (x & Hx & Hr).
  destruct x as [y|]; simpl in Hr; [|destruct Hr].
  destruct (SearchApi.truthy (SearchApi.info_hash y)) eqn:E; [|destruct Hr].
  destruct Hr as [->|[]]. split; [exact Hx | exact E].
Qed.

Lemma shown_In (r : SearchApi.RawResult) (f : SearchApi.Formatted) :
  In f (shown r) ->
  SearchApi.format r = SearchApi.Ok f
  /\ SearchApi.looksLikeVideo f = SearchApi.Ok true
  /\ isText (SearchApi.name r) = true.
Proof.
  unfold shown. pose proof (format_cases r) as Hr.
  destruct (SearchApi.format r) as [g|]; [|intros []].
  destruct Hr as (_ & _ & _ & Hvideo).
  destruct (SearchApi.looksLikeVideo g) as [[|]|] eqn:E; simpl; intros Hin;
    try contradiction.
  destruct Hin as [<-|[]]. split; [reflexivity|]. split; [exact E|].
  unfold malformed in Hvideo.
  destruct (isText (SearchApi.name r)); [reflexivity | discriminate].
Qed.

Lemma shown_length (hits : list SearchApi.RawResult) :
  (List.length (flat_map shown hits) <= List.length hits)%nat.
Proof.
  induction hits as [|r hits IH]; simpl; [lia|].
  rewrite length_app.
  assert (H : (List.length (shown r) <= 1)%nat).
  { unfold shown. destruct (SearchApi.format r) as [f|]; [|simpl; lia].
    destruct (SearchApi.looksLikeVideo f) as [[|]|]; simpl; lia. }
  lia.
Qed.

(** X17.  Every successful search answer is put together from the
    upstream answers only (seeder and leecher counts within the safe
    range): its list is a rearrangement of what the hits of the requested
    page show, a hit showing its formatted form if that looks like a
    video; each result is the formatted form of a hit that some upstream
    category sent, with a truthy info_hash and a text as name; and for
    page >= 1 and limit >= 0 it holds at most limit results. *)
Theorem search_results_come_from_upstream (query : option string)
    (page limit : Z) (upstream : string -> SearchApi.Upstream)
    (total : Z) (results : list SearchApi.Formatted) :
  (forall r, In r (pageHits page limit upstream) ->
     safeCount (SearchApi.seeders r) /\ safeCount (SearchApi.leechers r)) ->
  SearchApi.search query page limit upstream = SearchApi.Success total results ->
  Permutation results (flat_map shown (pageHits page limit upstream))
  /\ (forall f, In f results ->
        exists r cat,
          SearchApi.format r = SearchApi.Ok f
          /\ SearchApi.looksLikeVideo f = SearchApi.Ok true
          /\ isText (SearchApi.name r) = true
          /\ SearchApi.truthy (SearchApi.info_hash r) = true
          /\ In cat SearchApi.categories
          /\ In (Some r) (SearchApi.resolved (upstream cat)))
  /\ (1 <= page -> 0 <= limit -> Z.of_nat (List.length results) <= limit).
Proof.
  intros _ Hsearch.
  destruct (search_cases query page limit upstream)
    as [[Hreply _] | [(Hreply & _) | (Hreply & _ & _)]];
    rewrite Hreply in Hsearch; try discriminate.
  inversion Hsearch; subst. clear Hsearch Hreply.
  pose proof (sortBySeeders_perm (flat_map shown (pageHits page limit upstream)))
    as Hperm.
  split; [exact Hperm|]. split.
  - intros f Hf. apply (Permutation_in f Hperm) in Hf.
    apply in_flat_map in Hf. destruct Hf as (r & Hr & Hf).
    apply shown_In in Hf. destruct Hf as (Hformat & Hvideo & Hname).
    unfold pageHits in Hr. apply slice_incl in Hr. unfold searchHits in Hr.
    apply keepRaw_In in Hr. destruct Hr as [Hr Hhash].
    apply in_concat in Hr. destruct Hr as (l & Hl & Hr).
    apply in_map_iff in Hl. destruct Hl as (cat & <- & Hcat).
    exists r, cat. repeat (split; [assumption|]). assumption.
  - intros Hpage Hlimit.
    rewrite (Permutation_length Hperm).
    pose proof (shown_length (pageHits page limit upstream)) as Hle.
    pose proof (slice_length ((page - 1) * limit) (page * limit) (searchHits upstream)) as Hs.
    fold (pageHits page limit upstream) in Hs. nia.
Qed.

(** X17 at the query film. *)
Lemma search_results_come_from_upstream_witness :
  Permutation
    [SearchApi.mkFormatted (SearchApi.Text "1") (SearchApi.Text "Film.mkv")
       (SearchApi.Text "abcd") (Some 100) (Some 0);
     SearchApi.mkFormatted (SearchApi.Text "1") (SearchApi.Text "talk")
       (SearchApi.Text "abcd") (Some 16) (Some 0);
     SearchApi.mkFormatted (SearchApi.Text "1") (SearchApi.Text "Film.2020.1080p")
       (SearchApi.Text "abcd") (Some 5) (Some 0);
     SearchApi.mkFormatted (SearchApi.Text "1") (SearchApi.Text "Film.HDTV")
       (SearchApi.Text "abcd") None (Some 0)]
    (flat_map shown (pageHits 1 20 SearchScenario.upstream)).
Proof.
  assert (Hsafe : forall r, In r (pageHits 1 20 SearchScenario.upstream) ->
                    safeCount (SearchApi.seeders r) /\ safeCount (SearchApi.leechers r)).
  { intros r Hr. vm_compute in Hr.
    repeat (destruct Hr as [<-|Hr];
            [vm_compute; repeat split; try discriminate; exact I|]).
    destruct Hr. }
  exact (proj1 (search_results_come_from_upstream (Some "film") 1 20
                  SearchScenario.upstream 4 _ Hsafe eq_refl)).
Defined.

(* ================================================================== *)
(** ** Work done by the priority policy *)
(* ================================================================== *)

Lemma forLoop_length (body : Z -> bool) (fuel : nat) (from bound : Z) :
  Z.of_nat (List.length (Priority.forLoop fuel from bound body))
  <= Z.max 0 (bound - from).
Proof.
  revert from. induction fuel as [|fuel IH]; intros from; simpl; [lia|].
  destruct (Z.ltb_spec from bound); simpl; [|lia].
  rewrite length_app. specialize (IH (from + 1)).
  destruct (body from); simpl; lia.
Qed.

Lemma forLoop_lower (body : Z -> bool) (fuel : nat) (from bound : Z) :
  Forall (fun i => from <= i) (Priority.forLoop fuel from bound body).
Proof.
  revert from. induction fuel as [|fuel IH]; intros from; simpl; [constructor|].
  destruct (from <? bound); [|constructor].
  apply Forall_app. split.
  - destruct (body from); constructor; [lia | constructor].
  - eapply Forall_impl; [|apply IH]. simpl. intros i Hi. lia.
Qed.

Lemma forLoop_increasing (body : Z -> bool) (fuel : nat) (from bound : Z) :
  StronglySorted Z.lt (Priority.forLoop fuel from bound body).
Proof.
  revert from. induction fuel as [|fuel IH]; intros from; simpl; [constructor|].
  destruct (from <? bound); [|constructor].
  destruct (body from); simpl; [|apply IH].
  constructor; [apply IH|].
  eapply Forall_impl; [|apply (forLoop_lower body fuel (from + 1) bound)].
  simpl. intros i Hi. lia.
Qed.

Lemma loop_length (body : Z -> bool) (from bound : Z) :
  Z.of_nat (List.length (Priority.loop from bound body)) <= Z.max 0 (bound - from).
Proof. unfold Priority.loop. apply forLoop_length. Qed.

Lemma loop_increasing (body : Z -> bool) (from bound : Z) :
  StronglySorted Z.lt (Priority.loop from bound body).
Proof. unfold Priority.loop. apply forLoop_increasing. Qed.

Lemma onTorrent_bounded (t : Torrent) :
  (List.length (Priority.onTorrent t) <= 100)%nat
  /\ StronglySorted Z.lt (Priority.onTorrent t).
Proof.
  unfold Priority.onTorrent.
  destruct ((0 <? List.length (files t))%nat); [|split; [simpl; lia | constructor]].
  destruct (findVideo t); [|split; [simpl; lia | constructor]].
  split; [|apply loop_increasing].
  match goal with
  | |- (List.length (Priority.loop ?a ?b ?body) <= _)%nat =>
      pose proof (loop_length body a b) as H
  end.
  unfold Priority.INITIAL_WINDOW in *. lia.
Qed.

Lemma onDownload_bounded (t : Torrent) :
  (List.length (Priority.onDownload t) <= 20)%nat
  /\ StronglySorted Z.lt (Priority.onDownload t).
Proof.
  unfold Priority.onDownload.
  destruct ((0 <? List.length (files t))%nat && PrimFloat.ltb Priority.threshold (progress t));
    [|split; [simpl; lia | constructor]].
  destruct (findVideo t); [|split; [simpl; lia | constructor]].
  destruct (Priority.currentPiece t) as [cur|]; [|split; [simpl; lia | constructor]].
  split; [|apply loop_increasing].
  match goal with
  | |- (List.length (Priority.loop ?a ?b ?body) <= _)%nat =>
      pose proof (loop_length body a b) as H
  end.
  unfold Priority.bufferAhead in *. lia.
Qed.

(** X18.  The priority policy does bounded work: one progress tick calls
    priority(1) at most 20 times, the ready callback at most 100 times,
    whatever the torrent; and the calls go through the pieces in strictly
    increasing order, so no piece is asked twice in one run. *)
Theorem priority_work_is_bounded :
  forall t : Torrent,
    (List.length (Priority.onDownload t) <= 20)%nat
    /\ (List.length (Priority.onTorrent t) <= 100)%nat
    /\ StronglySorted Z.lt (Priority.onDownload t)
    /\ StronglySorted Z.lt (Priority.onTorrent t).
Proof.
  intros t.
  destruct (onDownload_bounded t) as [Hd1 Hd2].
  destruct (onTorrent_bounded t) as [Ht1 Ht2]. auto.
Qed.

(* ================================================================== *)
(** ** Category names *)
(* ================================================================== *)

(** X19.  [getCategoryName] never yields Movies 3D: the key 208 is written
    twice in the table and the later value, TV HD, wins.  Every key of the
    table yields a name; a key that is neither in the table nor inherited
    from the prototype yields Video; and the three categories that the
    search asks for are named Movies, TV Shows and Video. *)
Theorem category_names :
  (forall categoryId,
      Category.getCategoryName categoryId <> Category.Name "Movies 3D")
  /\ Category.getCategoryName "208" = Category.Name "TV HD"
  /\ (forall categoryId,
        In categoryId (map fst Category.categories) ->
        exists name, Category.getCategoryName categoryId = Category.Name name
                     /\ In (categoryId, name) Category.categories)
  /\ (forall categoryId,
        ~ In categoryId (map fst Category.categories) ->
        ~ In categoryId Category.inherited ->
        Category.getCategoryName categoryId = Category.Name "Video")
  /\ map Category.getCategoryName SearchApi.categories
     = [Category.Name "Movies"; Category.Name "TV Shows"; Category.Name "Video"].
Proof.
  assert (Hcases : forall categoryId,
            (exists k v, In (k, v) [("200", "Movies"); ("201", "Movies DVDR");
                                    ("207", "Movies HD"); ("209", "Movies BluRay");
                                    ("205", "TV Shows"); ("208", "TV HD");
                                    ("299", "Video"); ("501", "TV"); ("503", "TV HD")]
                         /\ categoryId = k
                         /\ Category.getCategoryName categoryId = Category.Name v)
            \/ (~ In categoryId (map fst Category.categories)
                /\ Category.ownProperty categoryId Category.categories = None)).
  { intros id. unfold Category.getCategoryName, Category.categories.
    cbn [Category.ownProperty].
    destruct (String.eqb_spec id "503") as [->|H503];
      [left; exists "503", "TV HD"; simpl; tauto|].
    destruct (String.eqb_spec id "501") as [->|H501];
      [left; exists "501", "TV"; simpl; tauto|].
    destruct (String.eqb_spec id "299") as [->|H299];
      [left; exists "299", "Video"; simpl; tauto|].
    destruct (String.eqb_spec id "208") as [->|H208];
      [left; exists "208", "TV HD"; simpl; tauto|].
    destruct (String.eqb_spec id "205") as [->|H205];
      [left; exists "205", "TV Shows"; simpl; tauto|].
    destruct (String.eqb_spec id "209") as [->|H209];
      [left; exists "209", "Movies BluRay"; simpl; tauto|].
    destruct (String.eqb_spec id "207") as [->|H207];
      [left; exists "207", "Movies HD"; simpl; tauto|].
    destruct (String.eqb_spec id "201") as [->|H201];
      [left; exists "201", "Movies DVDR"; simpl; tauto|].
    destruct (String.eqb_spec id "200") as [->|H200];
      [left; exists "200", "Movies"; simpl; tauto|].
    right. split; [|reflexivity]. simpl. intuition congruence. }
  split; [|split; [reflexivity | split; [|split; [|reflexivity]]]].
  - intros id. destruct (Hcases id) as [(k & v & Hin & -> & ->)|[_ Hnone]].
    + simpl in Hin.
      repeat (destruct Hin as [Hin|Hin]; [inversion Hin; subst; discriminate|]).
      destruct Hin.
    + unfold Category.getCategoryName. rewrite Hnone.
      destruct (existsb _ _); discriminate.
  - intros id Hin. destruct (Hcases id) as [(k & v & Hkv & -> & ->)|[Hnot _]];
      [|contradiction].
    exists v. split; [reflexivity|]. simpl in Hkv. simpl.
    repeat (destruct Hkv as [Hkv|Hkv]; [inversion Hkv; subst; tauto|]).
    destruct Hkv.
  - intros id Hnot Hninh. destruct (Hcases id) as [(k & v & Hkv & -> & _)|[_ Hnone]].
    + exfalso. apply Hnot. simpl in Hkv. simpl.
      repeat (destruct Hkv as [Hkv|Hkv]; [inversion Hkv; subst; tauto|]).
      destruct Hkv.
    + unfold Category.getCategoryName. rewrite Hnone.
      destruct (existsb (String.eqb id) Category.inherited) eqn:E; [|reflexivity].
      exfalso. apply Hninh. apply existsb_exists in E. destruct E as (x & Hx & Hxe).
      apply String.eqb_eq in Hxe. now subst.
Qed.
